(** * openai-gpt-assistants: the typed object cache, the stateful resource
      handle and the run polling state machine

    A shallow embedding of [src/cache.ts], [src/utils.ts] (the
    [StatefulObject] base class) and [src/run.ts], and the properties of
    the specification that are about them.

    Modelling conventions.
    - A remote record is a JavaScript object: it is represented by its
      address [ref] together with the fields the code reads.  [===] on two
      records compares addresses.  Records are never mutated by this code.
    - [Record<Id, ...>] used as a dictionary is a [gmap string] for its own
      properties; it is made by the literal [{}], so that [cache.data[id]]
      also finds the members of [Object.prototype].  The objects found
      that way (the functions [constructor], [toString], ..., and, for
      [__proto__], [Object.prototype] itself) are shared by the whole
      process; the property [value] that [set] assigns to them is kept in
      [slots].  Once [Object.prototype] has a [value], the name [value]
      is inherited as well, and [for ... in] visits it.  Records of the
      remote API have no [value] or [emitter] property of their own.
    - [ObjectType] is the four-string union of the source; the guards
      [if (!cache) throw ...] on an unknown kind are unreachable for a
      typed kind and have no counterpart here.
    - An event emitter is a heap cell holding its registrations.  Listeners
      are observers: a listener of a handle re-publishes the event on the
      handle, an external listener is recorded as having heard the event.
      Listeners neither throw nor call back into the cache.
    - The answer that the remote API gives to a call is a parameter of
      the operation that issues it, and [Date.now()] is a parameter [now].
      Request options play no role and are left out.  An [async]
      operation is given as a whole, which is the run in which nothing
      else happens while it awaits; the callback of the poll timer is
      given in its three synchronous parts as well ([Run.tick_begin],
      [Run.tick_resume], [Run.tick_end]), which a schedule may interleave
      with the parts of other ticks.  [Run.fire] and [ticks] are the
      schedules in which a tick is over before anything else runs.
    - Where the repository holds two revisions of a file, the later one is
      embedded ([load] subscribes, [Run] polls with a compound id).
    - Every effect on the outside (emissions, remote calls, timers set and
      cleared, console output) is appended to the [trace] of the world,
      oldest first. *)

From stdpp Require Import gmap strings list fin_maps.
From Stdlib Require Import ZArith.

Local Open Scope Z_scope.

(** ** Data *)

Inductive ObjectType := assistant | thread | message | run.

Definition Id := string.

Inductive CacheEvent :=
  cacheInserted | updated | cacheRemoved | fetched | created | deleted.

(** [OpenAI.Beta.Threads.Runs.Run['status']] *)
Inductive RunStatus :=
  | queued | in_progress | requires_action | cancelling
  | cancelled | failed | completed | expired.

#[global] Instance ObjectType_eq_dec : EqDecision ObjectType.
Proof. solve_decision. Defined.
#[global] Instance CacheEvent_eq_dec : EqDecision CacheEvent.
Proof. solve_decision. Defined.
#[global] Instance RunStatus_eq_dec : EqDecision RunStatus.
Proof. solve_decision. Defined.

(** A record returned by the remote API.  [status] and [required_action]
    are [undefined] on records that are not runs. *)
Record Value := mkValue {
  ref : nat;
  status : option RunStatus;
  required_action : option nat;
}.

(** [a === b] on two records. *)
Definition same_ref (a b : Value) : bool := Nat.eqb (ref a) (ref b).

(** The identity of an emitter: the one of the whole cache, the one of a
    partition, or the n-th emitter allocated for an entry. *)
Inductive EmitterRef :=
  | GlobalEm
  | KindEm (object : ObjectType)
  | ItemEm (n : nat).

#[global] Instance EmitterRef_eq_dec : EqDecision EmitterRef.
Proof. solve_decision. Defined.

Definition EmitterRef_code (e : EmitterRef) : nat :=
  match e with
  | GlobalEm => 0
  | KindEm assistant => 1
  | KindEm thread => 2
  | KindEm message => 3
  | KindEm run => 4
  | ItemEm n => 5 + n
  end.

Definition EmitterRef_decode (c : nat) : EmitterRef :=
  match c with
  | 0 => GlobalEm
  | 1 => KindEm assistant
  | 2 => KindEm thread
  | 3 => KindEm message
  | 4 => KindEm run
  | S (S (S (S (S n)))) => ItemEm n
  end%nat.

#[global] Program Instance EmitterRef_countable : Countable EmitterRef :=
  inj_countable' EmitterRef_code EmitterRef_decode _.
Next Obligation. by intros [|[]|n]. Qed.

(** [TypeError] is the error of the JavaScript runtime for a property
    read on [undefined] and for a listener that is not a function. *)
Inductive Error :=
  | EmptyCacheForId (id : Id)
  | InvalidIdType (type_of_id : string) (object : ObjectType)
  | NotLoaded
  | PollTimeout (id : Id)
  | RemoteFailure (code : nat)
  | TypeError.

Inductive Outcome (A : Type) :=
  | Ok (a : A)
  | Throw (e : Error).
Arguments Ok {A} a.
Arguments Throw {A} e.

(** What the remote API answers to a retrieve call. *)
Definition Response := Outcome Value.

(** The events of a resource handle: the six cache events re-published,
    and the three events of [RunEvents]. *)
Inductive HandleEvent :=
  | Republished (key : CacheEvent)
  | statusChanged (s : option RunStatus)
  | actionRequired (action : option nat)
  | finished (err : option Error) (s : option RunStatus).

(** A listener is the closure made by [createListener(key)] in
    [StatefulObject._subscribe] for the handle [self] with id [hid], or a
    listener attached from outside. *)
Inductive Listener :=
  | Republish (self : nat) (hid : Id) (key : CacheEvent)
  | External (n : nat).

#[global] Instance Listener_eq_dec : EqDecision Listener.
Proof. solve_decision. Defined.

Definition Registration : Type := CacheEvent * Listener.

Inductive Obs :=
  | Emit (e : EmitterRef) (event : CacheEvent)
         (object : option ObjectType) (id : Id) (value : option Value)
  | HandleEmit (self : nat) (event : HandleEvent)
  | Heard (n : nat) (event : CacheEvent) (first : string)
  | RemoteCall (object : ObjectType) (threadId : option Id) (id : Id)
  | IntervalSet (timer : nat)
  | IntervalCleared (timer : nat)
  | ConsoleError (id : Id) (err : Error).

Module Item.
(** [ObjectCacheItem<T>] *)
Record t := mk { value : Value; emitter : EmitterRef }.
End Item.

(** [ObjectCache<T>]; its [emitter] is the channel [KindEm object]. *)
Record ObjectCache := mkObjectCache { data : gmap Id Item.t }.

(** [Record<ObjectType, ObjectCache<any>>] *)
Record Partitions := mkPartitions {
  p_assistant : ObjectCache;
  p_thread : ObjectCache;
  p_message : ObjectCache;
  p_run : ObjectCache;
}.

Definition partition (p : Partitions) (object : ObjectType) : ObjectCache :=
  match object with
  | assistant => p_assistant p
  | thread => p_thread p
  | message => p_message p
  | run => p_run p
  end.

Definition with_partition (p : Partitions) (object : ObjectType)
    (c : ObjectCache) : Partitions :=
  match object with
  | assistant => mkPartitions c (p_thread p) (p_message p) (p_run p)
  | thread => mkPartitions (p_assistant p) c (p_message p) (p_run p)
  | message => mkPartitions (p_assistant p) (p_thread p) c (p_run p)
  | run => mkPartitions (p_assistant p) (p_thread p) (p_message p) c
  end.

(** An object that [cache.data[id]] can find besides the entries: a
    member of [Object.prototype], by its name ([Object.prototype] itself
    under the name [__proto__]), or a record, by its address. *)
Definition Host : Type := string + nat.

Definition object_prototype : Host := inl "__proto__"%string.

(** The names of the properties of [Object.prototype]. *)
Definition prototype_members : list string :=
  ["constructor"; "__defineGetter__"; "__defineSetter__"; "hasOwnProperty";
   "__lookupGetter__"; "__lookupSetter__"; "isPrototypeOf";
   "propertyIsEnumerable"; "toString"; "valueOf"; "__proto__";
   "toLocaleString"]%string.

(** [slots] holds the property [value] of the hosts that have one of
    their own. *)
Record World := mkWorld {
  _cache : Partitions;
  channels : gmap EmitterRef (list Registration);
  fresh_emitter : nat;
  timers : gset nat;
  fresh_timer : nat;
  trace : list Obs;
  slots : gmap Host Value;
}.

(** [new Cache(ctx)] in a fresh process. *)
Definition new_Cache : World :=
  {| _cache := mkPartitions (mkObjectCache ∅) (mkObjectCache ∅)
                            (mkObjectCache ∅) (mkObjectCache ∅);
     channels := ∅; fresh_emitter := 0%nat;
     timers := ∅; fresh_timer := 0%nat; trace := []; slots := ∅ |}.

Definition with_cache (w : World) (p : Partitions) : World :=
  mkWorld p (channels w) (fresh_emitter w) (timers w) (fresh_timer w) (trace w)
          (slots w).
Definition with_channels (w : World) (c : gmap EmitterRef (list Registration))
    : World :=
  mkWorld (_cache w) c (fresh_emitter w) (timers w) (fresh_timer w) (trace w)
          (slots w).
Definition with_fresh_emitter (w : World) (n : nat) : World :=
  mkWorld (_cache w) (channels w) n (timers w) (fresh_timer w) (trace w)
          (slots w).
Definition with_timers (w : World) (t : gset nat) (n : nat) : World :=
  mkWorld (_cache w) (channels w) (fresh_emitter w) t n (trace w) (slots w).
Definition with_trace (w : World) (t : list Obs) : World :=
  mkWorld (_cache w) (channels w) (fresh_emitter w) (timers w) (fresh_timer w) t
          (slots w).
Definition with_slots (w : World) (s : gmap Host Value) : World :=
  mkWorld (_cache w) (channels w) (fresh_emitter w) (timers w) (fresh_timer w)
          (trace w) s.

(** The own property [id] of [cache.data]. *)
Definition entry (w : World) (object : ObjectType) (id : Id) : option Item.t :=
  data (partition (_cache w) object) !! id.

(** The object that [cache.data[id]] inherits when [data] has no own
    property [id]: a member of [Object.prototype], or, under the name
    [value], the record that [Object.prototype.value] holds. *)
Definition inherited (w : World) (id : Id) : option Host :=
  if bool_decide (id ∈ prototype_members) then Some (inl id)
  else if bool_decide (id = "value"%string) then
    match slots w !! object_prototype with
    | Some v => Some (inr (ref v))
    | None => None
    end
  else None.

(** [host.value]: the host's own property, or else the one of
    [Object.prototype], which every host inherits from. *)
Definition host_value (w : World) (h : Host) : option Value :=
  match slots w !! h with
  | Some v => Some v
  | None => slots w !! object_prototype
  end.

(** [cache.data[id]]: an entry, an inherited object, or [undefined]. *)
Inductive Lookup :=
  | Own (item : Item.t)
  | Inherited (h : Host)
  | Missing.

Definition lookup (w : World) (object : ObjectType) (id : Id) : Lookup :=
  match entry w object id with
  | Some item => Own item
  | None =>
      match inherited w id with
      | Some h => Inherited h
      | None => Missing
      end
  end.

(** [cache.data[id]?.value] *)
Definition cached (w : World) (object : ObjectType) (id : Id) : option Value :=
  match lookup w object id with
  | Own item => Some (Item.value item)
  | Inherited h => host_value w h
  | Missing => None
  end.

Definition listeners_of (w : World) (e : EmitterRef) : list Registration :=
  default [] (channels w !! e).

Arguments entry : simpl never.
Arguments listeners_of : simpl never.
Arguments inherited : simpl never.
Arguments lookup : simpl never.
Arguments cached : simpl never.

Definition put_item (object : ObjectType) (id : Id) (item : Item.t)
    (w : World) : World :=
  with_cache w
    (with_partition (_cache w) object
       (mkObjectCache (<[id := item]> (data (partition (_cache w) object))))).

Definition drop_item (object : ObjectType) (id : Id) (w : World) : World :=
  with_cache w
    (with_partition (_cache w) object
       (mkObjectCache (delete id (data (partition (_cache w) object))))).

(** ** A state and exception monad

    A computation over a state [S] ends normally with a result or throws;
    either way the changes made to the state so far remain. *)

Definition M (S A : Type) : Type := S -> Outcome A * S.

Definition ret {S A} (a : A) : M S A := fun s => (Ok a, s).
Definition throw {S A} (e : Error) : M S A := fun s => (Throw e, s).
Definition bind {S A B} (m : M S A) (f : A -> M S B) : M S B :=
  fun s => match m s with
           | (Ok a, s') => f a s'
           | (Throw e, s') => (Throw e, s')
           end.
Definition try_catch {S A} (m : M S A) (handler : Error -> M S A) : M S A :=
  fun s => match m s with
           | (Ok a, s') => (Ok a, s')
           | (Throw e, s') => handler e s'
           end.
Definition read {S} : M S S := fun s => (Ok s, s).
Definition modify {S} (f : S -> S) : M S unit := fun s => (Ok tt, f s).

Notation "'let*' x ':=' m 'in' f" := (bind m (fun x => f))
  (at level 10, x name, m at level 100, f at level 200, only parsing).
Notation "m '>>' f" := (bind m (fun _ => f))
  (at level 90, right associativity, only parsing).

Definition log (o : Obs) : M World unit :=
  modify (fun w => with_trace w (trace w ++ [o])).

(** ** Emitters *)

(** [!s] for a string [s]: the empty string is falsy. *)
Definition falsy (s : string) : bool := bool_decide (s = ""%string).

Definition kind_name (object : ObjectType) : string :=
  match object with
  | assistant => "assistant"
  | thread => "thread"
  | message => "message"
  | run => "run"
  end%string.

(** Calling one listener with first argument [first]. *)
Definition call_listener (l : Listener) (event : CacheEvent) (first : string)
    : list Obs :=
  match l with
  | Republish self hid key =>
      if decide (first = hid) then [HandleEmit self (Republished key)] else []
  | External n => [Heard n event first]
  end.

Definition deliveries (regs : list Registration) (event : CacheEvent)
    (first : string) : list Obs :=
  flat_map (fun r : Registration =>
              if decide (r.1 = event) then call_listener r.2 event first
              else []) regs.

(** [e.emit(event, [object,] id, value)]: the listeners registered for
    [event] are called in registration order.  The first argument they
    receive is [object] on the global emitter and [id] elsewhere. *)
Definition emit_on (e : EmitterRef) (event : CacheEvent)
    (object : option ObjectType) (id : Id) (value : option Value)
    : M World unit :=
  let first := match object with Some k => kind_name k | None => id end in
  modify (fun w => with_trace w
    (trace w ++ Emit e event object id value
             :: deliveries (listeners_of w e) event first)).

(** [e.addListener(event, l)] *)
Definition addListener (e : EmitterRef) (event : CacheEvent) (l : Listener)
    : M World unit :=
  modify (fun w => with_channels w
    (<[e := listeners_of w e ++ [(event, l)]]> (channels w))).

Fixpoint remove_first (r : Registration) (regs : list Registration)
    : list Registration :=
  match regs with
  | [] => []
  | r' :: regs' => if decide (r = r') then regs' else r' :: remove_first r regs'
  end.

(** [e.removeListener(event, l)] removes one registration of [l] for
    [event], the one added last. *)
Definition removeListener (e : EmitterRef) (event : CacheEvent) (l : Listener)
    : M World unit :=
  modify (fun w => with_channels w
    (<[e := reverse (remove_first (event, l) (reverse (listeners_of w e)))]>
       (channels w))).

(** [e.removeAllListeners()] *)
Definition removeAllListeners (e : EmitterRef) : M World unit :=
  modify (fun w => with_channels w (<[e := []]> (channels w))).

Definition alloc_emitter (w : World) : World :=
  with_fresh_emitter
    (with_channels w (<[ItemEm (fresh_emitter w) := []]> (channels w)))
    (S (fresh_emitter w)).

(** [new TypedEmitter()] *)
Definition new_TypedEmitter : M World EmitterRef :=
  let* w := read in
  modify alloc_emitter >>
  ret (ItemEm (fresh_emitter w)).

(** ** [class Cache] *)

(** The id argument of [Cache.fetch]: [Id | { threadId: Id; id: Id }]. *)
Inductive FetchId :=
  | Plain (id : Id)
  | Compound (threadId id : Id).

(** [typeof id] *)
Definition typeof (id : FetchId) : string :=
  match id with Plain _ => "string" | Compound _ _ => "object" end.

Module Cache.

(** [emitter(object?, id?)]: [!object] and [!id] hold for a missing
    argument, and [!id] for the empty id as well.  The result is [None]
    for [undefined], which is what [item.emitter] is on an inherited
    object. *)
Definition emitter (object : option ObjectType) (id : option Id)
    : M World (option EmitterRef) :=
  match object with
  | None => ret (Some GlobalEm)
  | Some k =>
      match id with
      | None => ret (Some (KindEm k))
      | Some i =>
          if falsy i then ret (Some (KindEm k))
          else
            let* w := read in
            match lookup w k i with
            | Missing => throw (EmptyCacheForId i)
            | Own item => ret (Some (Item.emitter item))
            | Inherited _ => ret None
            end
      end
  end.

Arguments emitter object id : simpl nomatch.

(** [e.emit(event, ...)] where [e] is what [emitter] returned *)
Definition emit_via (e : option EmitterRef) (event : CacheEvent)
    (object : option ObjectType) (id : Id) (value : option Value)
    : M World unit :=
  match e with
  | Some e => emit_on e event object id value
  | None => throw TypeError
  end.

(** [_emit(event, object, id, value?)] *)
Definition _emit (event : CacheEvent) (object : ObjectType) (id : Id)
    (value : option Value) : M World unit :=
  let* g := emitter None None in
  emit_via g event (Some object) id value >>
  let* k := emitter (Some object) None in
  emit_via k event None id value >>
  let* e := emitter (Some object) (Some id) in
  emit_via e event None id value.

(** [get(object, id)] *)
Definition get (object : ObjectType) (id : Id) : M World (option Value) :=
  let* w := read in
  ret (cached w object id).

(** [cache.data[id] = item] *)
Definition store (object : ObjectType) (id : Id) (item : Item.t)
    : M World unit :=
  modify (put_item object id item).

(** [delete cache.data[id]] *)
Definition unstore (object : ObjectType) (id : Id) : M World unit :=
  modify (drop_item object id).

(** [data.value = value] on an inherited object *)
Definition store_on (h : Host) (value : Value) : M World unit :=
  modify (fun w => with_slots w (<[h := value]> (slots w))).

(** [set(object, id, value)]: [if (cache.data[id])] holds for an entry
    and for an inherited object alike. *)
Definition set (object : ObjectType) (id : Id) (value : Value)
    : M World unit :=
  let* w := read in
  match lookup w object id with
  | Own data =>
      if same_ref (Item.value data) value then ret tt
      else
        store object id (Item.mk value (Item.emitter data)) >>
        _emit updated object id (Some value)
  | Inherited h =>
      if match host_value w h with
         | Some old => same_ref old value
         | None => false
         end
      then ret tt
      else
        store_on h value >>
        _emit updated object id (Some value)
  | Missing =>
      let* e := new_TypedEmitter in
      store object id (Item.mk value e) >>
      _emit cacheInserted object id (Some value)
  end.

(** [remove(object, id)]; on an inherited object [data.emitter] is
    [undefined]. *)
Definition remove (object : ObjectType) (id : Id) : M World unit :=
  let* w := read in
  match lookup w object id with
  | Own data =>
      _emit cacheRemoved object id None >>
      removeAllListeners (Item.emitter data) >>
      unstore object id
  | Inherited _ =>
      _emit cacheRemoved object id None >>
      throw TypeError
  | Missing => ret tt
  end.

(** [this.ctx.client.beta.<...>.retrieve(...)]: one remote call, answered
    by [answer]. *)
Definition retrieve (object : ObjectType) (threadId : option Id) (id : Id)
    (answer : Response) : M World Value :=
  log (RemoteCall object threadId id) >>
  match answer with
  | Ok v => ret v
  | Throw e => throw e
  end.

(** [fetch(object, id, options)]: each kind first checks [typeof id],
    [string] for an assistant or a thread, [object] for a message or a
    run. *)
Definition fetch (object : ObjectType) (id : FetchId) (answer : Response)
    : M World Value :=
  let* result :=
    match object, id with
    | assistant, Plain i => retrieve assistant None i answer
    | thread, Plain i => retrieve thread None i answer
    | message, Compound t i => retrieve message (Some t) i answer
    | run, Compound t i => retrieve run (Some t) i answer
    | _, _ => throw (InvalidIdType (typeof id) object)
    end in
  let stringId := match id with Compound _ i => i | Plain i => i end in
  set object stringId result >>
  _emit fetched object stringId (Some result) >>
  ret result.

(** [fetch] is [async] and awaits the remote call.  [fetch_begin] is the
    part that runs when [fetch] is called: the check of the id and the
    call issued; it returns the plain id.  [fetch_resume] is the part
    that runs when the call has been answered. *)
Definition fetch_begin (object : ObjectType) (id : FetchId) : M World Id :=
  match object, id with
  | assistant, Plain i => log (RemoteCall assistant None i) >> ret i
  | thread, Plain i => log (RemoteCall thread None i) >> ret i
  | message, Compound t i => log (RemoteCall message (Some t) i) >> ret i
  | run, Compound t i => log (RemoteCall run (Some t) i) >> ret i
  | _, _ => throw (InvalidIdType (typeof id) object)
  end.

Definition fetch_resume (object : ObjectType) (stringId : Id)
    (answer : Response) : M World Value :=
  match answer with
  | Throw e => throw e
  | Ok result =>
      set object stringId result >>
      _emit fetched object stringId (Some result) >>
      ret result
  end.

(** [getOrFetch(object, id, options)]; [existing.value] of an inherited
    object may be [undefined]. *)
Definition getOrFetch (object : ObjectType) (id : Id) (answer : Response)
    : M World (option Value) :=
  let* w := read in
  match lookup w object id with
  | Own existing => ret (Some (Item.value existing))
  | Inherited h => ret (host_value w h)
  | Missing =>
      let* result := fetch object (Plain id) answer in
      ret (Some result)
  end.

End Cache.

Arguments Cache.set : simpl never.
Arguments Cache.remove : simpl never.
Arguments Cache.fetch : simpl never.
Arguments Cache.getOrFetch : simpl never.
Arguments Cache._emit : simpl never.

(** ** Operations of an object on the shared world

    A method of a handle runs on the pair of the handle's own fields and
    the world. *)

Definition this {H} : M (H * World) H := fun s => (Ok s.1, s).
Definition update_this {H} (f : H -> H) : M (H * World) unit :=
  modify (fun s => (f s.1, s.2)).
Definition world {H} : M (H * World) World := fun s => (Ok s.2, s).

(** A computation on the world alone, run from a method. *)
Definition in_world {H A} (m : M World A) : M (H * World) A :=
  fun s => let (r, w') := m s.2 in (r, (s.1, w')).

(** A method of the sub-object [get s], run from a method of [s]. *)
Definition zoom {S T A} (get : S -> T) (put : T -> S -> S)
    (m : M (T * World) A) : M (S * World) A :=
  fun s => let (r, s') := m (get s.1, s.2) in (r, (put s'.1 s.1, s'.2)).

Fixpoint for_each {S A} (l : list A) (f : A -> M S unit) : M S unit :=
  match l with
  | [] => ret tt
  | x :: l' => f x >> for_each l' f
  end.

(** ** [class StatefulObject] *)

Module StatefulObject.

(** [_unsubscribe] is [None] for the closure that does nothing and
    [Some e] for the closure that removes the six listeners of this
    handle from the emitter [e]. *)
Record t := mk {
  self : nat;
  object : ObjectType;
  _id : Id;
  _unsubscribe : option EmitterRef;
}.

Definition with_unsubscribe (u : option EmitterRef) (h : t) : t :=
  mk (self h) (object h) (_id h) u.

(** [get wrappedValue()] *)
Definition wrappedValue : M (t * World) Value :=
  let* h := this in
  let* val := in_world (Cache.get (object h) (_id h)) in
  match val with
  | None => throw NotLoaded
  | Some v => ret v
  end.

(** [get id()] *)
Definition id (h : t) : Id := _id h.

(** [this.emit(event, ...)] *)
Definition emit (event : HandleEvent) : M (t * World) unit :=
  let* h := this in
  in_world (log (HandleEmit (self h) event)).

(** The keys of [listeners], in the order [_subscribe] fills them. *)
Definition keys : list CacheEvent :=
  [cacheInserted; cacheRemoved; updated; fetched; created; deleted].

(** [this._unsubscribe()]: [for (const key in listeners)] visits the six
    own keys and then, if [Object.prototype] has a [value], the key
    [value], for which [removeListener] is given a record and throws. *)
Definition call_unsubscribe : M (t * World) unit :=
  let* h := this in
  match _unsubscribe h with
  | None => ret tt
  | Some e =>
      for_each keys (fun key =>
        in_world (removeListener e key (Republish (self h) (_id h) key))) >>
      let* w := world in
      match slots w !! object_prototype with
      | Some _ => throw TypeError
      | None => update_this (with_unsubscribe None)
      end
  end.

(** [_subscribe()] *)
Definition _subscribe : M (t * World) unit :=
  let* h := this in
  let* val := in_world (Cache.get (object h) (id h)) in
  match val with
  | None => ret tt
  | Some _ =>
      call_unsubscribe >>
      let* emitter := in_world (Cache.emitter (Some (object h)) (Some (id h))) in
      match emitter with
      | None => throw TypeError
      | Some e =>
          for_each keys (fun key =>
            in_world (addListener e key (Republish (self h) (_id h) key))) >>
          update_this (with_unsubscribe (Some e))
      end
  end.

(** [new StatefulObject(ctx, object, id)] for the handle numbered [self] *)
Definition constructor (self : nat) (object : ObjectType) (id : Id)
    : M World t :=
  fun w => let (r, s) := _subscribe (mk self object id None, w) in
           (match r with Ok _ => Ok s.1 | Throw e => Throw e end, s.2).

(** [load(options)] *)
Definition load (answer : Response) : M (t * World) unit :=
  let* h := this in
  in_world (Cache.getOrFetch (object h) (_id h) answer) >>
  _subscribe.

(** [fetch(options)] *)
Definition fetch (answer : Response) : M (t * World) unit :=
  let* h := this in
  in_world (Cache.fetch (object h) (Plain (_id h)) answer) >>
  ret tt.

End StatefulObject.

(** [static readonly object] of the four classes *)
Definition Assistant_object : ObjectType := assistant.
Definition Thread_object : ObjectType := thread.
Definition Message_object : ObjectType := message.
Definition Run_object : ObjectType := run.

(** ** [class Run] *)

Definition POLL_INTERVAL_MS : Z := 750.
Definition POLL_TIMEOUT_MS : Z := 1000 * 60 * 2.

(** [setInterval(callback, POLL_INTERVAL_MS)]: a new active timer. *)
Definition setInterval : M World nat :=
  let* w := read in
  modify (fun w => with_timers w ({[fresh_timer w]} ∪ timers w)
                                 (S (fresh_timer w))) >>
  log (IntervalSet (fresh_timer w)) >>
  ret (fresh_timer w).

(** [clearInterval(t)]; [clearInterval(null)] does nothing. *)
Definition clearInterval (t : option nat) : M World unit :=
  match t with
  | None => ret tt
  | Some n =>
      modify (fun w => with_timers w (timers w ∖ {[n]}) (fresh_timer w)) >>
      log (IntervalCleared n)
  end.

Definition exitStatuses : list RunStatus :=
  [cancelled; expired; completed; failed].

(** [statuses.includes(s)] *)
Definition includes (statuses : list RunStatus) (s : option RunStatus) : bool :=
  match s with
  | Some x => bool_decide (x ∈ statuses)
  | None => false
  end.

Module Run.

(** [base] holds the fields inherited from [StatefulObject]; [thread] is
    the owning [Thread] handle, of which only [object] and [_id] are
    read. *)
Record t := mk {
  base : StatefulObject.t;
  thread : StatefulObject.t;
  _pollInterval : option nat;
  _pollStartTime : Z;
}.

Definition with_base (b : StatefulObject.t) (r : t) : t :=
  mk b (thread r) (_pollInterval r) (_pollStartTime r).
Definition with_thread (h : StatefulObject.t) (r : t) : t :=
  mk (base r) h (_pollInterval r) (_pollStartTime r).
Definition with_pollInterval (i : option nat) (r : t) : t :=
  mk (base r) (thread r) i (_pollStartTime r).
Definition with_pollStartTime (z : Z) (r : t) : t :=
  mk (base r) (thread r) (_pollInterval r) z.

Definition super {A} (m : M (StatefulObject.t * World) A) : M (t * World) A :=
  zoom base with_base m.
Definition on_thread {A} (m : M (StatefulObject.t * World) A)
    : M (t * World) A :=
  zoom thread with_thread m.

Definition id (r : t) : Id := StatefulObject.id (base r).

(** [new Run(ctx, thread, id)] for the handle numbered [self] *)
Definition constructor (self : nat) (thread : StatefulObject.t) (id : Id)
    : M World t :=
  let* b := StatefulObject.constructor self Run_object id in
  ret (mk b thread None 0).

(** [endPolling()] *)
Definition endPolling : M (t * World) unit :=
  let* r := this in
  in_world (clearInterval (_pollInterval r)) >>
  update_this (with_pollInterval None) >>
  update_this (with_pollStartTime 0).

(** The body of the arrow function given to [setInterval], run at time
    [now].  [run_answer] answers the retrieve of the run and
    [thread_answer] the retrieve of the thread, if they are issued. *)
Definition callback (now : Z) (run_answer thread_answer : Response)
    : M (t * World) unit :=
  let* r := this in
  let elapsed := now - _pollStartTime r in
  if bool_decide (elapsed > POLL_TIMEOUT_MS) then
    endPolling >>
    super (StatefulObject.emit (finished (Some (PollTimeout (id r))) None))
  else
    let* oldRun := super StatefulObject.wrappedValue in
    let* fetched :=
      try_catch
        (let* v := in_world (Cache.fetch Run_object
                     (Compound (StatefulObject.id (thread r)) (id r))
                     run_answer) in
         ret (Some v))
        (fun err =>
           in_world (log (ConsoleError (id r) err)) >>
           super (StatefulObject.emit (finished (Some err) None)) >>
           endPolling >>
           ret None) in
    match fetched with
    | None => ret tt
    | Some run' =>
        (if bool_decide (status run' ≠ status oldRun)
         then super (StatefulObject.emit (statusChanged (status run')))
         else ret tt) >>
        (if bool_decide (status run' = Some requires_action)
         then super (StatefulObject.emit
                       (actionRequired (required_action run')))
         else ret tt) >>
        if includes exitStatuses (status run') then
          endPolling >>
          on_thread (StatefulObject.fetch thread_answer) >>
          super (StatefulObject.emit (finished None (status run')))
        else ret tt
    end.

(** The callback is [async]: it awaits the retrieve of the run and, for a
    terminal status, the retrieve of the thread, and other callbacks and
    operations may run meanwhile.  These are its three synchronous parts.

    [tick_begin] runs when the timer calls the callback.  Its result is
    [None] when the callback is over, and otherwise the record read as
    [oldRun] and the plain id of the retrieve that is awaited. *)
Definition tick_begin (now : Z) : M (t * World) (option (Value * Id)) :=
  let* r := this in
  let elapsed := now - _pollStartTime r in
  if bool_decide (elapsed > POLL_TIMEOUT_MS) then
    endPolling >>
    super (StatefulObject.emit (finished (Some (PollTimeout (id r))) None)) >>
    ret None
  else
    let* oldRun := super StatefulObject.wrappedValue in
    try_catch
      (let* i := in_world (Cache.fetch_begin Run_object
                   (Compound (StatefulObject.id (thread r)) (id r))) in
       ret (Some (oldRun, i)))
      (fun err =>
         in_world (log (ConsoleError (id r) err)) >>
         super (StatefulObject.emit (finished (Some err) None)) >>
         endPolling >>
         ret None).

(** [tick_resume] runs when the retrieve of the run has been answered.
    Its result is [None] when the callback is over, and otherwise the
    status to report and the plain id of the retrieve of the thread that
    is awaited. *)
Definition tick_resume (oldRun : Value) (i : Id) (run_answer : Response)
    : M (t * World) (option (option RunStatus * Id)) :=
  let* r := this in
  let* fetched :=
    try_catch
      (let* v := in_world (Cache.fetch_resume Run_object i run_answer) in
       ret (Some v))
      (fun err =>
         in_world (log (ConsoleError (id r) err)) >>
         super (StatefulObject.emit (finished (Some err) None)) >>
         endPolling >>
         ret None) in
  match fetched with
  | None => ret None
  | Some run' =>
      (if bool_decide (status run' ≠ status oldRun)
       then super (StatefulObject.emit (statusChanged (status run')))
       else ret tt) >>
      (if bool_decide (status run' = Some requires_action)
       then super (StatefulObject.emit
                     (actionRequired (required_action run')))
       else ret tt) >>
      if includes exitStatuses (status run') then
        endPolling >>
        let* ti := in_world (Cache.fetch_begin
                     (StatefulObject.object (thread r))
                     (Plain (StatefulObject._id (thread r)))) in
        ret (Some (status run', ti))
      else ret None
  end.

(** [tick_end] runs when the retrieve of the thread has been answered. *)
Definition tick_end (s : option RunStatus) (ti : Id)
    (thread_answer : Response) : M (t * World) unit :=
  let* r := this in
  in_world (Cache.fetch_resume (StatefulObject.object (thread r)) ti
              thread_answer) >>
  super (StatefulObject.emit (finished None s)).

(** The timer [timer] comes due and the callback runs up to its first
    [await]. *)
Definition fire_begin (timer : nat) (now : Z)
    : M (t * World) (option (Value * Id)) :=
  let* w := world in
  if bool_decide (timer ∈ timers w) then tick_begin now else ret None.

(** The callback from its first [await] on, when nothing else runs while
    it awaits again: [p] is what [tick_begin] returned. *)
Definition tick_rest (p : option (Value * Id))
    (run_answer thread_answer : Response) : M (t * World) unit :=
  match p with
  | None => ret tt
  | Some (oldRun, i) =>
      let* q := tick_resume oldRun i run_answer in
      match q with
      | None => ret tt
      | Some (s, ti) => tick_end s ti thread_answer
      end
  end.

(** [beginPolling(options)] at time [now] *)
Definition beginPolling (now : Z) : M (t * World) unit :=
  endPolling >>
  update_this (with_pollStartTime now) >>
  let* timer := in_world setInterval in
  update_this (with_pollInterval (Some timer)).

(** The timer [timer] comes due: its callback runs if the interval is
    still active.  The callback is run as a whole: nothing else happens
    while it awaits, which is the schedule when its retrieves are
    answered before the timer comes due again.  [fire_begin] and
    [tick_rest] give the schedules where they are not. *)
Definition fire (timer : nat) (now : Z) (run_answer thread_answer : Response)
    : M (t * World) unit :=
  let* w := world in
  if bool_decide (timer ∈ timers w) then callback now run_answer thread_answer
  else ret tt.

(** [load(options)] *)
Definition load (now : Z) (answer : Response) : M (t * World) unit :=
  super (StatefulObject.load answer) >>
  beginPolling now.

(** [waitUntilFinished()], up to the promise it returns, which is
    settled by the next [finished] event of this handle. *)
Definition waitUntilFinished (now : Z) : M (t * World) unit :=
  let* r := this in
  match _pollInterval r with
  | None => beginPolling now
  | Some _ => ret tt
  end.

End Run.

(** ** [class Message] *)

Module Message.

Record t := mk {
  base : StatefulObject.t;
  thread : StatefulObject.t;
}.

Definition with_base (b : StatefulObject.t) (m : t) : t := mk b (thread m).

(** [new Message(ctx, thread, id)] *)
Definition constructor (self : nat) (thread : StatefulObject.t) (id : Id)
    : M World t :=
  let* b := StatefulObject.constructor self Message_object id in
  ret (mk b thread).

(** [load(options)], inherited *)
Definition load (answer : Response) : M (t * World) unit :=
  zoom base with_base (StatefulObject.load answer).

End Message.

(** ** Reading the trace *)

(** What was observed between the world [w] and a later world [w']. *)
Definition since (w w' : World) : list Obs :=
  drop (length (trace w)) (trace w').

(** The events emitted on the emitter [e], with their id and value. *)
Definition emitted_on (e : EmitterRef) (tr : list Obs)
    : list (CacheEvent * Id * option Value) :=
  flat_map (fun o => match o with
                     | Emit e' event _ id value =>
                         if decide (e' = e) then [(event, id, value)] else []
                     | _ => []
                     end) tr.

(** The remote calls issued. *)
Definition remote_calls (tr : list Obs) : list (ObjectType * option Id * Id) :=
  flat_map (fun o => match o with
                     | RemoteCall object threadId id => [(object, threadId, id)]
                     | _ => []
                     end) tr.

(** What a poll session of the handle [self] shows: the remote calls, the
    events of [RunEvents] that the handle emits, and the timers set and
    cleared, in the order they happen. *)
Inductive PollObs :=
  | Called (object : ObjectType) (threadId : option Id) (id : Id)
  | Raised (event : HandleEvent)
  | Started (timer : nat)
  | Cleared (timer : nat).

Definition poll_view (self : nat) (tr : list Obs) : list PollObs :=
  flat_map (fun o => match o with
                     | RemoteCall object threadId id => [Called object threadId id]
                     | HandleEmit self' (Republished _) => []
                     | HandleEmit self' event =>
                         if decide (self' = self) then [Raised event] else []
                     | IntervalSet t => [Started t]
                     | IntervalCleared t => [Cleared t]
                     | _ => []
                     end) tr.

(** The emitter that [emitter(object, id)] returns, if it returns. *)
Definition channel_of (w : World) (object : ObjectType) (id : Id)
    : option EmitterRef :=
  if falsy id then Some (KindEm object)
  else Item.emitter <$> entry w object id.

(** What one [_emit] appends to the trace when the third emitter is [e]. *)
Definition fanout (w : World) (event : CacheEvent) (object : ObjectType)
    (id : Id) (value : option Value) (e : EmitterRef) : list Obs :=
  Emit GlobalEm event (Some object) id value
    :: deliveries (listeners_of w GlobalEm) event (kind_name object)
  ++ Emit (KindEm object) event None id value
    :: deliveries (listeners_of w (KindEm object)) event id
  ++ Emit e event None id value
    :: deliveries (listeners_of w e) event id.

(** The emitter on which the third emission of [_emit] lands when the
    entry of [(k, i)] owns the emitter [e]. *)
Definition third (k : ObjectType) (i : Id) (e : EmitterRef) : EmitterRef :=
  if falsy i then KindEm k else e.

(** The world after [set] on a missing entry. *)
Definition inserted (k : ObjectType) (i : Id) (v : Value) (w : World) : World :=
  let w1 := put_item k i (Item.mk v (ItemEm (fresh_emitter w))) (alloc_emitter w) in
  with_trace w1
    (trace w ++ fanout w1 cacheInserted k i (Some v)
                       (third k i (ItemEm (fresh_emitter w)))).

(** The world after [set] on an entry that holds another record. *)
Definition overwritten (k : ObjectType) (i : Id) (v : Value) (e : EmitterRef)
    (w : World) : World :=
  let w1 := put_item k i (Item.mk v e) w in
  with_trace w1 (trace w ++ fanout w1 updated k i (Some v) (third k i e)).

(** Every emission, with the emitter it was made on. *)
Definition emissions (tr : list Obs)
    : list (EmitterRef * CacheEvent * Id * option Value) :=
  flat_map (fun o => match o with
                     | Emit e event _ id value => [(e, event, id, value)]
                     | _ => []
                     end) tr.

(** The world after one more observation. *)
Definition logged (o : Obs) (w : World) : World :=
  with_trace w (trace w ++ [o]).

(** The thread id and the id that [fetch] hands to the remote API, when
    the id has the shape that the kind requires. *)
Definition fetch_shape (object : ObjectType) (id : FetchId)
    : option (option Id * Id) :=
  match object, id with
  | assistant, Plain i | thread, Plain i => Some (None, i)
  | message, Compound t i | run, Compound t i => Some (Some t, i)
  | _, _ => None
  end.

(** The world after [remove] on the entry [item]. *)
Definition removed (k : ObjectType) (i : Id) (item : Item.t) (w : World)
    : World :=
  drop_item k i
    (with_channels
       (with_trace w
          (trace w ++ fanout w cacheRemoved k i None
                             (third k i (Item.emitter item))))
       (<[Item.emitter item := []]> (channels w))).

(** [w'] comes after [w]: the trace has grown by [tr]; the timers and
    the inherited objects are the same. *)
Definition grows (w w' : World) (tr : list Obs) : Prop :=
  trace w' = trace w ++ tr ∧ timers w' = timers w ∧
  fresh_timer w' = fresh_timer w ∧ slots w' = slots w.

(** [cache.data[id]] is an entry or [undefined], not an inherited
    object. *)
Definition storable (w : World) (k : ObjectType) (i : Id) : Prop :=
  is_Some (entry w k i) ∨ inherited w i = None.

(** [Object.prototype] has no property [value]. *)
Definition unpolluted (w : World) : Prop :=
  slots w !! object_prototype = None.



(** What one tick of the poll session of [r] shows when it is within the
    time bound, the run is cached with the record [old], and both remote
    calls succeed, the first with the record [v]. *)
Definition tick_view (r : Run.t) (timer : nat) (old v : Value) : list PollObs :=
  [Called run (Some (StatefulObject.id (Run.thread r))) (Run.id r)]
  ++ (if bool_decide (status v ≠ status old)
      then [Raised (statusChanged (status v))] else [])
  ++ (if bool_decide (status v = Some requires_action)
      then [Raised (actionRequired (required_action v))] else [])
  ++ (if includes exitStatuses (status v)
      then [Cleared timer;
            Called thread None (StatefulObject.id (Run.thread r));
            Raised (finished None (status v))]
      else []).

(** The retrieve of the thread of [r], answered by the record [tv], has
    been written through: the cache holds an entry for the thread whose
    record has the address of [tv], and the last event on the global
    emitter in [tr] is [fetched] for the thread, with [tv]. *)
Definition thread_refetched (r : Run.t) (tv : Value) (w' : World)
    (tr : list Obs) : Prop :=
  (∃ titem, entry w' thread (StatefulObject.id (Run.thread r)) = Some titem ∧
            same_ref (Item.value titem) tv = true) ∧
  last (emitted_on GlobalEm tr)
    = Some (fetched, StatefulObject.id (Run.thread r), Some tv).

(** The world after [clearInterval(t)]. *)
Definition cleared (t : option nat) (w : World) : World :=
  match t with
  | None => w
  | Some n =>
      logged (IntervalCleared n)
        (with_timers w (timers w ∖ {[n]}) (fresh_timer w))
  end.

(** The trace after an observation made only if [c] holds. *)
Definition logged_if (c : bool) (o : Obs) (w : World) : World :=
  if c then logged o w else w.

(** The registrations that [_subscribe] adds for the handle [h]. *)
Definition subscription (h : StatefulObject.t) : list Registration :=
  map (fun key => (key, Republish (StatefulObject.self h)
                                  (StatefulObject._id h) key))
      StatefulObject.keys.

(** ** Two poll sessions to run the model on *)

Definition thread_1 : StatefulObject.t :=
  StatefulObject.mk 2 Thread_object "thread_1" None.

(** The handle and the world that [Run.create] leaves at time 0 when the
    remote API has created the run [run_1] with the status [queued]: the
    record is stored, [created] is emitted, the handle is made and
    polling begins. *)
Definition polled_run : Run.t * World :=
  let v := mkValue 1 (Some queued) None in
  let w := ((Cache.set Run_object "run_1" v >>
             Cache._emit created Run_object "run_1" (Some v)) new_Cache).2 in
  let r := match Run.constructor 1 thread_1 "run_1" w with
           | (Ok r, w') => (r, w')
           | (Throw _, w') => (Run.mk thread_1 thread_1 None 0, w')
           end in
  (Run.beginPolling 0 r).2.

(** The handle and the world after [new Run(ctx, thread, "run_1")] on an
    empty cache followed by [waitUntilFinished()] at time 0. *)
Definition unloaded_run : Run.t * World :=
  let r := match Run.constructor 1 thread_1 "run_1" new_Cache with
           | (Ok r, w') => (r, w')
           | (Throw _, w') => (Run.mk thread_1 thread_1 None 0, w')
           end in
  (Run.waitUntilFinished 0 r).2.

(** ** The statements of the specification that the code does not meet
    for every input, as predicates of the input *)

(** [set(k, i, v1)] and then [set(k, i, v2)] emit [cacheInserted] and then
    [updated], once each, on the global emitter, on the emitter of the
    kind and on the emitter of the entry. *)
Definition insert_then_update (k : ObjectType) (i : Id) (v1 v2 : Value)
    (w : World) : Prop :=
  ∃ w2 item,
    (Cache.set k i v1 >> Cache.set k i v2) w = (Ok tt, w2) ∧
    entry w2 k i = Some item ∧
    ∀ e, e ∈ [GlobalEm; KindEm k; Item.emitter item] ->
      emitted_on e (since w w2) =
        [(cacheInserted, i, Some v1); (updated, i, Some v2)].


(** After [remove(k, i)], [emitter(k, i)] throws the error of a missing
    entry. *)
Definition emitter_fails_after_remove (k : ObjectType) (i : Id) (w : World)
    : Prop :=
  ∃ w', Cache.remove k i w = (Ok tt, w') ∧
        Cache.emitter (Some k) (Some i) w' = (Throw (EmptyCacheForId i), w').

(** * The rest of the code

    The operations of the resource classes that create, list, modify and
    delete.  A remote call other than a retrieve is not recorded in the
    trace; its answer is a parameter of the operation.  The [id] field of
    a record, which [Value] leaves out, is read through a parameter
    [id_of]. *)

(** [await] of a remote call that is answered by [answer]. *)
Definition remote {A} (answer : Outcome A) : M World A :=
  match answer with
  | Ok a => ret a
  | Throw e => throw e
  end.

(** Runs a method on the handle [h] and returns the handle. *)
Definition on_new {H A} (h : H) (m : M (H * World) A) : M World H :=
  fun w => let (r, s) := m (h, w) in
           (match r with Ok _ => Ok s.1 | Throw e => Throw e end, s.2).

(** ** [class Context] *)

Module Context.

(** [_opts(options)]: an options object is a map from property names to
    values, [None] for a property that holds [undefined].  The spread
    lets [options] win over [requestOptions]; the loop deletes the
    properties that hold [undefined]. *)
Definition _opts {V} (requestOptions options : gmap string (option V))
    : gmap string (option V) :=
  filter (fun kv => is_Some kv.2) (options ∪ requestOptions).

End Context.

(** ** [createWrappedPage] *)

(** The [data] of [createWrappedPage(ctx, page, initializer)]: for each
    item in turn the handle is made, then the item is stored.  The
    handles made are numbered from [self] on. *)
Fixpoint createWrappedPage {H} (id_of : Value -> Id)
    (object_of : H -> ObjectType) (initializer : nat -> Id -> M World H)
    (self : nat) (page : list Value) : M World (list H) :=
  match page with
  | [] => ret []
  | item :: rest =>
      let* value := initializer self (id_of item) in
      Cache.set (object_of value) (id_of item) item >>
      let* values := createWrappedPage id_of object_of initializer (S self) rest in
      ret (value :: values)
  end.

(** ** [class Assistant] *)

Module Assistant.

(** [new Assistant(ctx, id)] *)
Definition constructor (self : nat) (id : Id) : M World StatefulObject.t :=
  StatefulObject.constructor self Assistant_object id.

(** [Assistant.create(ctx, params, options)] *)
Definition create (id_of : Value -> Id) (self : nat) (answer : Response)
    : M World StatefulObject.t :=
  let* assistant := remote answer in
  Cache.set Assistant_object (id_of assistant) assistant >>
  Cache._emit created Assistant_object (id_of assistant) (Some assistant) >>
  constructor self (id_of assistant).

(** [delete(options)]: [answer] is the [deleted] field of what the remote
    API answers.  The argument [this.wrappedValue.id] is read before the
    call. *)
Definition delete (id_of : Value -> Id) (answer : Outcome bool)
    : M (StatefulObject.t * World) bool :=
  let* h := this in
  let* v0 := StatefulObject.wrappedValue in
  let* result := in_world (remote answer) in
  if result : bool then
    let* v1 := StatefulObject.wrappedValue in
    in_world (Cache._emit deleted (StatefulObject.object h) (id_of v1) None) >>
    let* v2 := StatefulObject.wrappedValue in
    in_world (Cache.remove (StatefulObject.object h) (id_of v2)) >>
    ret result
  else ret result.

(** [Assistant.list(ctx, options)], the [data] of the wrapped page *)
Definition list (id_of : Value -> Id) (self : nat)
    (answer : Outcome (list Value)) : M World (list StatefulObject.t) :=
  let* page := remote answer in
  createWrappedPage id_of StatefulObject.object constructor self page.

(** [update(params, options)] *)
Definition update (id_of : Value -> Id) (answer : Response)
    : M (StatefulObject.t * World) unit :=
  let* h := this in
  let* v0 := StatefulObject.wrappedValue in
  let* assistant := in_world (remote answer) in
  in_world (Cache.set (StatefulObject.object h) (id_of assistant) assistant).

End Assistant.

(** ** [class Thread] *)

Module Thread.

(** [new Thread(ctx, id)] *)
Definition constructor (self : nat) (id : Id) : M World StatefulObject.t :=
  StatefulObject.constructor self Thread_object id.

(** [Thread.load(ctx, id, options)] *)
Definition load (self : nat) (id : Id) (answer : Response)
    : M World StatefulObject.t :=
  let* thread := constructor self id in
  on_new thread (StatefulObject.load answer).

(** [Thread.create(ctx, params, options)] *)
Definition create (id_of : Value -> Id) (self : nat) (answer : Response)
    : M World StatefulObject.t :=
  let* thread := remote answer in
  Cache.set Thread_object (id_of thread) thread >>
  Cache._emit created Thread_object (id_of thread) (Some thread) >>
  constructor self (id_of thread).

(** [Thread.createAndRun(ctx, params, options)] at time [now].
    [thread_id_of] reads the [thread_id] field of a run record;
    [run_answer] answers the remote call that creates both, and
    [thread_answer] the retrieve of the thread, if it is issued.  The
    [Thread] handle is made first, being an argument of [new Run]. *)
Definition createAndRun (id_of thread_id_of : Value -> Id)
    (self_thread self_run : nat) (now : Z)
    (run_answer thread_answer : Response) : M World Run.t :=
  let* _run := remote run_answer in
  Cache.set Run_object (id_of _run) _run >>
  let* thread := load self_thread (thread_id_of _run) thread_answer in
  let* run := Run.constructor self_run thread (id_of _run) in
  let* run := on_new run (Run.beginPolling now) in
  let* t := Cache.get Thread_object (thread_id_of _run) in
  Cache._emit created Thread_object (thread_id_of _run) t >>
  Cache._emit created Run_object (id_of _run) (Some _run) >>
  ret run.

(** [update(params, options)] *)
Definition update (id_of : Value -> Id) (answer : Response)
    : M (StatefulObject.t * World) unit :=
  let* h := this in
  let* v0 := StatefulObject.wrappedValue in
  let* updated := in_world (remote answer) in
  in_world (Cache.set (StatefulObject.object h) (id_of updated) updated).

End Thread.

(** ** [class Run], the operations besides polling *)

(** [Run.create(ctx, thread, params, options)] at time [now] *)
Definition Run_create (id_of : Value -> Id) (self : nat)
    (thread : StatefulObject.t) (now : Z) (answer : Response) : M World Run.t :=
  let* run := remote answer in
  Cache.set Run_object (id_of run) run >>
  Cache._emit created Run_object (id_of run) (Some run) >>
  let* created := Run.constructor self thread (id_of run) in
  on_new created (Run.beginPolling now).

(** [Run.load(ctx, thread, id, options)] at time [now] *)
Definition Run_load (self : nat) (thread : StatefulObject.t) (id : Id)
    (now : Z) (answer : Response) : M World Run.t :=
  let* run := Run.constructor self thread id in
  on_new run (Run.load now answer).

(** [Run.list(ctx, thread, options)], the [data] of the wrapped page *)
Definition Run_list (id_of : Value -> Id) (self : nat)
    (thread : StatefulObject.t) (answer : Outcome (list Value))
    : M World (list Run.t) :=
  let* page := remote answer in
  createWrappedPage id_of (fun r => StatefulObject.object (Run.base r))
    (fun self id => Run.constructor self thread id) self page.

(** [update(params, options)], [cancel(options)] and
    [submitToolOutputs(params, options)] differ in the remote call only:
    each stores what it answers under the id of the handle. *)
Definition Run_update (answer : Response) : M (Run.t * World) unit :=
  let* r := this in
  let* result := in_world (remote answer) in
  in_world (Cache.set (StatefulObject.object (Run.base r)) (Run.id r) result).

Definition Run_cancel (answer : Response) : M (Run.t * World) unit :=
  let* r := this in
  let* result := in_world (remote answer) in
  in_world (Cache.set (StatefulObject.object (Run.base r)) (Run.id r) result).

Definition Run_submitToolOutputs (answer : Response) : M (Run.t * World) unit :=
  let* r := this in
  let* result := in_world (remote answer) in
  in_world (Cache.set (StatefulObject.object (Run.base r)) (Run.id r) result).

(** ** [class Message], the operations besides loading *)

(** [Message.create(ctx, thread, params, options)] *)
Definition Message_create (id_of : Value -> Id) (self : nat)
    (thread : StatefulObject.t) (answer : Response) : M World Message.t :=
  let* message := remote answer in
  Cache.set Message_object (id_of message) message >>
  Cache._emit created Message_object (id_of message) (Some message) >>
  Message.constructor self thread (id_of message).

(** [update(params, options)] *)
Definition Message_update (answer : Response) : M (Message.t * World) unit :=
  let* m := this in
  let* result := in_world (remote answer) in
  in_world (Cache.set (StatefulObject.object (Message.base m))
              (StatefulObject.id (Message.base m)) result).

(** ** Reading the trace, continued *)

(** The cache events that the handle [self] re-publishes. *)
Definition republished (self : nat) (tr : list Obs) : list CacheEvent :=
  flat_map (fun o => match o with
                     | HandleEmit self' (Republished key) =>
                         if decide (self' = self) then [key] else []
                     | _ => []
                     end) tr.

(** No listener of the handle [self] is among [regs]. *)
Definition unheard (self : nat) (regs : list Registration) : Prop :=
  ∀ event self' hid key,
    (event, Republish self' hid key) ∈ regs -> self' ≠ self.

(** The handle [self] has no listener on any emitter. *)
Definition unsubscribed (self : nat) (w : World) : Prop :=
  ∀ e, unheard self (listeners_of w e).

(** Every entry owns an emitter that has been allocated, and no two
    entries own the same. *)
Definition own_emitters (w : World) : Prop :=
  (∀ k i item, entry w k i = Some item ->
     ∃ n, Item.emitter item = ItemEm n ∧ (n < fresh_emitter w)%nat) ∧
  (∀ k1 i1 item1 k2 i2 item2,
     entry w k1 i1 = Some item1 -> entry w k2 i2 = Some item2 ->
     Item.emitter item1 = Item.emitter item2 -> k1 = k2 ∧ i1 = i2).

(** Every active timer has been handed out by [setInterval]. *)
Definition known_timers (w : World) : Prop :=
  ∀ t, t ∈ timers w -> (t < fresh_timer w)%nat.

(** A run of ticks of the timer [timer], one for each time and answer of
    [steps], each over before the next begins; the retrieve of the
    thread, if issued, is answered by [thread_answer]. *)
Fixpoint ticks (timer : nat) (steps : list (Z * Response))
    (thread_answer : Response) : M (Run.t * World) unit :=
  match steps with
  | [] => ret tt
  | (now, answer) :: rest =>
      Run.fire timer now answer thread_answer >>
      ticks timer rest thread_answer
  end.

(** Two callbacks of the timer [timer] that overlap: the second is called,
    at [now2], while the first, called at [now1], awaits its retrieve;
    then the first goes on to its end, its retrieves answered by [a1] and
    [t1], and then the second, with [a2] and [t2]. *)
Definition overlapping (timer : nat) (now1 now2 : Z)
    (a1 t1 a2 t2 : Response) : M (Run.t * World) unit :=
  let* p1 := Run.fire_begin timer now1 in
  let* p2 := Run.fire_begin timer now2 in
  Run.tick_rest p1 a1 t1 >>
  Run.tick_rest p2 a2 t2.

(** The world after [setInterval]. *)
Definition started (w : World) : World :=
  logged (IntervalSet (fresh_timer w))
    (with_timers w ({[fresh_timer w]} ∪ timers w) (S (fresh_timer w))).

(** What a tick shows of a run whose status stays [s]: the retrieve, and
    [actionRequired] if [s] is [requires_action]. *)
Definition idle_tick_view (r : Run.t) (s : option RunStatus) (v : Value)
    : list PollObs :=
  Called run (Some (StatefulObject.id (Run.thread r))) (Run.id r)
  :: (if bool_decide (s = Some requires_action)
      then [Raised (actionRequired (required_action v))] else []).

(** The ticks of [steps], each answered by its record. *)
Definition answered (steps : list (Z * Value)) : list (Z * Response) :=
  map (fun step => (step.1, Ok step.2)) steps.

(** A way to read the id of a record, to run the model on: the prefix
    followed by the digit of its reference. *)
Definition numbered (prefix : string) (v : Value) : Id :=
  String.append prefix
    (String (Ascii.ascii_of_nat (48 + ref v)) EmptyString).

(** The world after [fetch] has retrieved the record [v] of a missing
    entry. *)
Definition fetched_new (k : ObjectType) (t : option Id) (i : Id) (v : Value)
    (w : World) : World :=
  let w1 := inserted k i v (logged (RemoteCall k t i) w) in
  with_trace w1
    (trace w1 ++ fanout w1 fetched k i (Some v)
                        (third k i (ItemEm (fresh_emitter w)))).

(** The world after the handle [h] has registered its listeners on the
    emitter [e]. *)
Definition subscribed (h : StatefulObject.t) (e : EmitterRef) (w : World)
    : World :=
  with_channels w (<[e := listeners_of w e ++ subscription h]> (channels w)).

(** * Properties *)

(** ** Basic facts *)

Section Basics.

Lemma partition_with_partition p k c :
  partition (with_partition p k c) k = c.
Proof. by destruct k. Qed.

Lemma partition_with_partition_ne p k k' c :
  k ≠ k' -> partition (with_partition p k c) k' = partition p k'.
Proof. by destruct k, k'. Qed.

Lemma since_refl w : since w w = [].
Proof. unfold since. by rewrite drop_all. Qed.

Lemma since_app w w' tr : trace w' = trace w ++ tr -> since w w' = tr.
Proof. unfold since. intros ->. by rewrite drop_app_length. Qed.

Lemma emitted_on_app e l1 l2 :
  emitted_on e (l1 ++ l2) = emitted_on e l1 ++ emitted_on e l2.
Proof. apply flat_map_app. Qed.

Lemma emitted_on_cons e o l :
  emitted_on e (o :: l) = emitted_on e [o] ++ emitted_on e l.
Proof. apply (emitted_on_app e [o]). Qed.

(** Listeners emit nothing on the emitters of the cache, issue no remote
    call and emit none of the events of [RunEvents]. *)
Lemma emitted_on_deliveries e regs event first :
  emitted_on e (deliveries regs event first) = [].
Proof.
  induction regs as [|[ev l] regs IH]; [done|].
  unfold deliveries in *. cbn [flat_map]. rewrite emitted_on_app, IH.
  cbn. case_decide; [|done]. destruct l; cbn; [case_decide|]; done.
Qed.

Lemma poll_view_app h l1 l2 :
  poll_view h (l1 ++ l2) = poll_view h l1 ++ poll_view h l2.
Proof. apply flat_map_app. Qed.

Lemma poll_view_cons h o l :
  poll_view h (o :: l) = poll_view h [o] ++ poll_view h l.
Proof. apply (poll_view_app h [o]). Qed.

Lemma poll_view_deliveries h regs event first :
  poll_view h (deliveries regs event first) = [].
Proof.
  induction regs as [|[ev l] regs IH]; [done|].
  unfold deliveries in *. cbn [flat_map]. rewrite poll_view_app, IH.
  cbn. case_decide; [|done]. destruct l; cbn; [case_decide|]; done.
Qed.

Lemma lookup_own w k i item : entry w k i = Some item -> lookup w k i = Own item.
Proof. intros H. unfold lookup. by rewrite H. Qed.

Lemma lookup_missing w k i :
  entry w k i = None -> inherited w i = None -> lookup w k i = Missing.
Proof. intros H Hi. unfold lookup. by rewrite H, Hi. Qed.

Lemma lookup_missing_inv w k i :
  lookup w k i = Missing -> entry w k i = None ∧ inherited w i = None.
Proof.
  unfold lookup. destruct (entry w k i); [done|].
  by destruct (inherited w i).
Qed.

Lemma lookup_inherited w k i h :
  entry w k i = None -> inherited w i = Some h -> lookup w k i = Inherited h.
Proof. intros H Hi. unfold lookup. by rewrite H, Hi. Qed.

Lemma cached_own w k i item :
  entry w k i = Some item -> cached w k i = Some (Item.value item).
Proof. intros H. unfold cached. by rewrite (lookup_own _ _ _ _ H). Qed.

Lemma cached_missing w k i :
  entry w k i = None -> inherited w i = None -> cached w k i = None.
Proof. intros H Hi. unfold cached. by rewrite (lookup_missing _ _ _ H Hi). Qed.

Lemma inherited_slots w w' i :
  slots w' = slots w -> inherited w' i = inherited w i.
Proof. intros H. unfold inherited. by rewrite H. Qed.

Lemma storable_later w w' k i :
  slots w' = slots w -> entry w' k i = entry w k i ->
  storable w k i -> storable w' k i.
Proof.
  intros Hs He. unfold storable. by rewrite He, (inherited_slots _ _ _ Hs).
Qed.


Lemma emitter_of_entry w k i :
  Cache.emitter (Some k) (Some i) w =
    (match channel_of w k i with
     | Some e => Ok (Some e)
     | None =>
         match inherited w i with
         | Some _ => Ok None
         | None => Throw (EmptyCacheForId i)
         end
     end, w).
Proof.
  unfold Cache.emitter, channel_of.
  destruct (falsy i); [reflexivity|].
  unfold bind, read, lookup.
  destruct (entry w k i); [done|]. by destruct (inherited w i).
Qed.

Lemma _emit_run event k i v w e :
  channel_of w k i = Some e ->
  Cache._emit event k i v w =
    (Ok tt, with_trace w (trace w ++ fanout w event k i v e)).
Proof.
  intros He. unfold Cache._emit, bind at 1 2 3 4. cbn.
  unfold bind. rewrite emitter_of_entry.
  replace (channel_of _ k i) with (Some e) by (by rewrite <- He).
  unfold Cache.emit_via, emit_on, modify, with_trace, listeners_of, fanout; cbn.
  do 2 f_equal. by rewrite <- !app_assoc.
Qed.

Lemma _emit_missing event k i v w :
  channel_of w k i = None -> inherited w i = None ->
  (Cache._emit event k i v w).1 = Throw (EmptyCacheForId i).
Proof.
  intros He Hi. unfold Cache._emit, bind at 1 2 3 4. cbn.
  unfold bind. rewrite emitter_of_entry.
  replace (channel_of _ k i) with (@None EmitterRef) by (by rewrite <- He).
  replace (inherited _ i) with (@None Host) by (by rewrite <- Hi).
  done.
Qed.

End Basics.

(** ** The cache operations, case by case *)

Section CacheSteps.

Lemma entry_put_item k i item w : entry (put_item k i item w) k i = Some item.
Proof.
  unfold entry, put_item; cbn. rewrite partition_with_partition; cbn.
  apply lookup_insert_eq.
Qed.

Lemma entry_put_item_ne k i item w k' i' :
  k' ≠ k ∨ i' ≠ i -> entry (put_item k i item w) k' i' = entry w k' i'.
Proof.
  intros Hne. unfold entry, put_item; cbn.
  destruct (decide (k = k')) as [<-|Hk].
  - rewrite partition_with_partition; cbn.
    apply lookup_insert_ne. destruct Hne; congruence.
  - by rewrite partition_with_partition_ne.
Qed.

Lemma entry_drop_item k i w : entry (drop_item k i w) k i = None.
Proof.
  unfold entry, drop_item; cbn. rewrite partition_with_partition; cbn.
  apply lookup_delete_eq.
Qed.

Lemma entry_drop_item_ne k i w k' i' :
  k' ≠ k ∨ i' ≠ i -> entry (drop_item k i w) k' i' = entry w k' i'.
Proof.
  intros Hne. unfold entry, drop_item; cbn.
  destruct (decide (k = k')) as [<-|Hk].
  - rewrite partition_with_partition; cbn.
    apply lookup_delete_ne. destruct Hne; congruence.
  - by rewrite partition_with_partition_ne.
Qed.

Lemma channel_of_put_item k i v e w :
  channel_of (put_item k i (Item.mk v e) w) k i = Some (third k i e).
Proof.
  unfold channel_of, third. rewrite entry_put_item. by destruct (falsy i).
Qed.

Lemma channel_of_present k i item w :
  entry w k i = Some item ->
  channel_of w k i = Some (third k i (Item.emitter item)).
Proof. intros H. unfold channel_of, third. rewrite H. by destruct (falsy i). Qed.

Lemma set_absent k i v w :
  entry w k i = None -> inherited w i = None ->
  Cache.set k i v w = (Ok tt, inserted k i v w).
Proof.
  intros H Hi. unfold Cache.set, bind at 1, read.
  rewrite (lookup_missing _ _ _ H Hi).
  unfold bind at 1, new_TypedEmitter, bind at 1 2, read, modify, ret.
  unfold bind, Cache.store, modify.
  by rewrite (_emit_run _ _ _ _ _ _ (channel_of_put_item _ _ _ _ _)).
Qed.

Lemma set_same k i v w item :
  entry w k i = Some item -> same_ref (Item.value item) v = true ->
  Cache.set k i v w = (Ok tt, w).
Proof.
  intros H Hv. unfold Cache.set, bind at 1, read.
  by rewrite (lookup_own _ _ _ _ H), Hv.
Qed.

Lemma set_other k i v w item :
  entry w k i = Some item -> same_ref (Item.value item) v = false ->
  Cache.set k i v w = (Ok tt, overwritten k i v (Item.emitter item) w).
Proof.
  intros H Hv. unfold Cache.set, bind at 1, read.
  rewrite (lookup_own _ _ _ _ H), Hv.
  unfold bind, Cache.store, modify.
  by rewrite (_emit_run _ _ _ _ _ _ (channel_of_put_item _ _ _ _ _)).
Qed.

Lemma entry_inserted k i v w :
  entry (inserted k i v w) k i = Some (Item.mk v (ItemEm (fresh_emitter w))).
Proof. apply entry_put_item. Qed.

Lemma entry_inserted_ne k i v w k' i' :
  k' ≠ k ∨ i' ≠ i -> entry (inserted k i v w) k' i' = entry w k' i'.
Proof. apply (entry_put_item_ne _ _ _ (alloc_emitter w)). Qed.

Lemma entry_overwritten k i v e w :
  entry (overwritten k i v e w) k i = Some (Item.mk v e).
Proof. apply entry_put_item. Qed.

Lemma entry_overwritten_ne k i v e w k' i' :
  k' ≠ k ∨ i' ≠ i -> entry (overwritten k i v e w) k' i' = entry w k' i'.
Proof. apply entry_put_item_ne. Qed.

Lemma since_inserted k i v w :
  since w (inserted k i v w) =
    fanout (put_item k i (Item.mk v (ItemEm (fresh_emitter w))) (alloc_emitter w))
           cacheInserted k i (Some v) (third k i (ItemEm (fresh_emitter w))).
Proof. by apply since_app. Qed.

Lemma since_overwritten k i v e w :
  since w (overwritten k i v e w) =
    fanout (put_item k i (Item.mk v e) w) updated k i (Some v) (third k i e).
Proof. by apply since_app. Qed.

Lemma emitted_on_fanout e w event k i v e3 :
  emitted_on e (fanout w event k i v e3) =
    (if decide (GlobalEm = e) then [(event, i, v)] else [])
    ++ (if decide (KindEm k = e) then [(event, i, v)] else [])
    ++ (if decide (e3 = e) then [(event, i, v)] else []).
Proof.
  unfold fanout.
  rewrite (emitted_on_cons e _ (_ ++ _)), emitted_on_app, (emitted_on_cons e _ (_ ++ _)),
    emitted_on_app, (emitted_on_cons e _ (deliveries _ _ _)), !emitted_on_deliveries.
  cbn. by repeat case_decide.
Qed.

Lemma poll_view_fanout h w event k i v e3 :
  poll_view h (fanout w event k i v e3) = [].
Proof.
  unfold fanout.
  rewrite (poll_view_cons h _ (_ ++ _)), poll_view_app,
    (poll_view_cons h _ (_ ++ _)), poll_view_app,
    (poll_view_cons h _ (deliveries _ _ _)), !poll_view_deliveries.
  done.
Qed.


End CacheSteps.

(** ** The cache *)

Section CacheProperties.

Lemma bind_run {S A B} (m : M S A) (f : A -> M S B) s a s' :
  m s = (Ok a, s') -> bind m f s = f a s'.
Proof. intros H. unfold bind. by rewrite H. Qed.

Lemma bind_throw {S A B} (m : M S A) (f : A -> M S B) s e s' :
  m s = (Throw e, s') -> bind m f s = (Throw e, s').
Proof. intros H. unfold bind. by rewrite H. Qed.

Lemma get_run k i w : Cache.get k i w = (Ok (cached w k i), w).
Proof. done. Qed.

Lemma same_ref_true a b : same_ref a b = true <-> ref a = ref b.
Proof. apply Nat.eqb_eq. Qed.

Lemma same_ref_false a b : same_ref a b = false <-> ref a ≠ ref b.
Proof. apply Nat.eqb_neq. Qed.

Lemma third_nonempty k i e : i ≠ ""%string -> third k i e = e.
Proof. intros H. unfold third, falsy. by rewrite bool_decide_eq_false_2. Qed.

Lemma emissions_app l1 l2 : emissions (l1 ++ l2) = emissions l1 ++ emissions l2.
Proof. apply flat_map_app. Qed.

Lemma emissions_cons o l : emissions (o :: l) = emissions [o] ++ emissions l.
Proof. apply (emissions_app [o]). Qed.

Lemma emissions_deliveries regs event first :
  emissions (deliveries regs event first) = [].
Proof.
  induction regs as [|[ev l] regs IH]; [done|].
  unfold deliveries in *. cbn [flat_map]. rewrite emissions_app, IH.
  cbn. case_decide; [|done]. destruct l; cbn; [case_decide|]; done.
Qed.

Lemma emissions_fanout w event k i v e3 :
  emissions (fanout w event k i v e3) =
    [(GlobalEm, event, i, v); (KindEm k, event, i, v); (e3, event, i, v)].
Proof.
  unfold fanout.
  rewrite (emissions_cons _ (_ ++ _)), emissions_app,
    (emissions_cons _ (_ ++ _)), emissions_app,
    (emissions_cons _ (deliveries _ _ _)), !emissions_deliveries.
  done.
Qed.

Lemma storable_absent w k i :
  storable w k i -> entry w k i = None -> inherited w i = None.
Proof. intros [[x Hx]|Hi] He; [congruence | done]. Qed.

(** [set] on an entry or on a missing id returns normally, and leaves an
    entry whose record has the address of the record given. *)
Lemma set_total k i v w :
  storable w k i ->
  ∃ w' item, Cache.set k i v w = (Ok tt, w') ∧ entry w' k i = Some item ∧
             same_ref (Item.value item) v = true.
Proof.
  intros Hs. destruct (entry w k i) as [item|] eqn:He.
  - destruct (same_ref (Item.value item) v) eqn:Hv.
    + exists w, item. by rewrite (set_same _ _ _ _ _ He Hv).
    + eexists _, _. rewrite (set_other _ _ _ _ _ He Hv).
      split; [done|]. rewrite entry_overwritten. split; [done|].
      by apply same_ref_true.
  - eexists _, _. rewrite (set_absent _ _ _ _ He (storable_absent _ _ _ Hs He)).
    split; [done|]. rewrite entry_inserted. split; [done|].
    by apply same_ref_true.
Qed.

(** For an id that is an entry or missing: [set(k, i, v)] returns
    normally, and [get(k, i)] right after it returns a record that is
    reference-equal to [v]. *)
Lemma get_after_set k i v w :
  storable w k i ->
  ∃ w' x, Cache.set k i v w = (Ok tt, w') ∧
          Cache.get k i w' = (Ok (Some x), w') ∧
          same_ref x v = true.
Proof.
  intros Hs. destruct (set_total k i v w Hs) as (w' & item & Hset & He & Hv).
  exists w', (Item.value item). by rewrite get_run, (cached_own _ _ _ _ He).
Qed.






(** For an id that is an entry or missing, a second [set] of the same
    record changes nothing and emits nothing. *)
Lemma set_again k i v w :
  storable w k i ->
  ∃ w1, Cache.set k i v w = (Ok tt, w1) ∧ Cache.set k i v w1 = (Ok tt, w1).
Proof.
  intros Hs. destruct (set_total k i v w Hs) as (w1 & item & Hset & He & Hv).
  exists w1. split; [done|]. by apply (set_same _ _ _ _ _ He).
Qed.




(** For every kind [k], every id [i] that is neither empty nor the name of
    an inherited object, and records [v1] and [v2] at different
    addresses, from a cache with no entry for [(k, i)]: [set(k, i, v1)]
    then [set(k, i, v2)] emits [cacheInserted] then [updated], once each
    and in that order, on the global emitter, on the emitter of the kind
    and on the emitter of the entry. *)
Lemma insert_then_update_nonempty_id k i v1 v2 w :
  i ≠ ""%string -> inherited w i = None -> entry w k i = None ->
  ref v1 ≠ ref v2 ->
  insert_then_update k i v1 v2 w.
Proof.
  intros Hi Hinh He Hv. apply same_ref_false in Hv.
  exists (overwritten k i v2 (ItemEm (fresh_emitter w)) (inserted k i v1 w)),
         (Item.mk v2 (ItemEm (fresh_emitter w))).
  split.
  { rewrite (bind_run _ _ _ _ _ (set_absent _ _ _ _ He Hinh)).
    by rewrite (set_other _ _ _ _ _ (entry_inserted k i v1 w) Hv). }
  split; [apply entry_overwritten|].
  intros e Hin.
  rewrite (since_app w _ (since w (inserted k i v1 w)
                          ++ since (inserted k i v1 w)
                               (overwritten k i v2 (ItemEm (fresh_emitter w))
                                  (inserted k i v1 w)))).
  2:{ rewrite since_inserted, since_overwritten. cbn. by rewrite <- app_assoc. }
  rewrite emitted_on_app, since_inserted, since_overwritten,
    !emitted_on_fanout, !third_nonempty by done.
  cbn in Hin. rewrite !elem_of_cons, elem_of_nil in Hin.
  destruct Hin as [->|[->|[->|[]]]]; by repeat case_decide.
Qed.

(** C6 fails on the code.  At the empty id, from the empty cache:
    [emitter(k, "")] is the emitter of the kind, so that the third
    emission of [_emit] lands there; the kind sees [cacheInserted] and
    [updated] twice each and the emitter of the entry sees neither. *)
Theorem insert_then_update_empty_id :
  ¬ insert_then_update assistant ""
      (mkValue 1 None None) (mkValue 2 None None) new_Cache.
Proof.
  intros (w2 & item & Hrun & He & Hem).
  vm_compute in Hrun. injection Hrun as <-.
  vm_compute in He. injection He as <-.
  assert (Hin : KindEm assistant ∈ [GlobalEm; KindEm assistant; ItemEm 0])
    by (apply elem_of_cons; right; apply elem_of_cons; by left).
  specialize (Hem _ Hin). vm_compute in Hem. discriminate Hem.
Qed.

(** The same sequence at the name of an inherited object does not get
    past the first [set]. *)
Lemma insert_then_update_prototype_member :
  ¬ insert_then_update assistant "constructor"
      (mkValue 1 None None) (mkValue 2 None None) new_Cache.
Proof.
  intros (w2 & item & Hrun & _). vm_compute in Hrun. discriminate Hrun.
Qed.

Lemma getOrFetch_run_present k i answer w item :
  entry w k i = Some item ->
  Cache.getOrFetch k i answer w = (Ok (Some (Item.value item)), w).
Proof.
  intros H. unfold Cache.getOrFetch, bind, read.
  by rewrite (lookup_own _ _ _ _ H).
Qed.

Lemma getOrFetch_run_absent k i answer w :
  entry w k i = None -> inherited w i = None ->
  Cache.getOrFetch k i answer w
  = (let* result := Cache.fetch k (Plain i) answer in ret (Some result)) w.
Proof.
  intros H Hi. unfold Cache.getOrFetch, bind at 1, read.
  by rewrite (lookup_missing _ _ _ H Hi).
Qed.

Lemma getOrFetch_run_inherited k i answer w h :
  entry w k i = None -> inherited w i = Some h ->
  Cache.getOrFetch k i answer w = (Ok (host_value w h), w).
Proof.
  intros H Hi. unfold Cache.getOrFetch, bind at 1, read.
  by rewrite (lookup_inherited _ _ _ _ H Hi).
Qed.

(** C8. For every kind [k] and id [i] with an entry in the cache,
    [getOrFetch(k, i)] returns the record of that entry and leaves the
    world as it was: the entry keeps its record and the trace gains
    nothing, so no remote call is issued. *)
Theorem getOrFetch_present k i answer w item :
  entry w k i = Some item ->
  ∃ w', Cache.getOrFetch k i answer w = (Ok (Some (Item.value item)), w') ∧
        w' = w ∧ entry w' k i = Some item ∧ remote_calls (since w w') = [].
Proof.
  intros H. exists w. rewrite (getOrFetch_run_present _ _ _ _ _ H).
  by rewrite since_refl.
Qed.

Lemma getOrFetch_present_witness :
  let v := mkValue 1 None None in
  let w := inserted assistant "asst_1" v new_Cache in
  ∃ w', Cache.getOrFetch assistant "asst_1" (Ok (mkValue 2 None None)) w
          = (Ok (Some v), w') ∧
        w' = w ∧
        entry w' assistant "asst_1" = Some (Item.mk v (ItemEm 0)) ∧
        remote_calls (since w w') = [].
Proof.
  apply (getOrFetch_present assistant "asst_1" _ _
           (Item.mk (mkValue 1 None None) (ItemEm 0))).
  reflexivity.
Defined.

Lemma remove_absent k i w :
  entry w k i = None -> inherited w i = None ->
  Cache.remove k i w = (Ok tt, w).
Proof.
  intros H Hi. unfold Cache.remove, bind, read.
  by rewrite (lookup_missing _ _ _ H Hi).
Qed.

Lemma remove_present k i w item :
  entry w k i = Some item -> Cache.remove k i w = (Ok tt, removed k i item w).
Proof.
  intros H. unfold Cache.remove, bind at 1, read.
  rewrite (lookup_own _ _ _ _ H).
  rewrite (bind_run _ _ _ _ _
             (_emit_run _ _ _ _ _ _ (channel_of_present _ _ _ _ H))).
  done.
Qed.

(** For every kind [k] and every id [i] that is neither empty nor the name
    of an inherited object: after [remove(k, i)], [emitter(k, i)] throws
    the error of a missing entry; [remove] leaves the world as it was
    when there is no entry; and when there is one, it emits
    [cacheRemoved] on the global emitter, on the emitter of the kind and
    on the emitter of the entry, leaves that emitter without listeners
    and the cache without the entry. *)
Lemma remove_then_emitter k i w :
  i ≠ ""%string -> inherited w i = None ->
  emitter_fails_after_remove k i w ∧
  (entry w k i = None -> Cache.remove k i w = (Ok tt, w)) ∧
  (∀ item, entry w k i = Some item ->
     ∃ w', Cache.remove k i w = (Ok tt, w') ∧
           emissions (since w w') =
             [(GlobalEm, cacheRemoved, i, None);
              (KindEm k, cacheRemoved, i, None);
              (Item.emitter item, cacheRemoved, i, None)] ∧
           listeners_of w' (Item.emitter item) = [] ∧
           entry w' k i = None).
Proof.
  intros Hi Hinh.
  assert (Hthrow : ∀ w', entry w' k i = None -> inherited w' i = None ->
            Cache.emitter (Some k) (Some i) w' = (Throw (EmptyCacheForId i), w')).
  { intros w' H H'. rewrite emitter_of_entry. unfold channel_of, falsy.
    by rewrite bool_decide_eq_false_2, H, H'. }
  split; [|split].
  - destruct (entry w k i) as [item|] eqn:He.
    + exists (removed k i item w). split; [by apply remove_present|].
      apply Hthrow; [apply entry_drop_item | done].
    + exists w. split; [by apply remove_absent|]. by apply Hthrow.
  - intros He. by apply remove_absent.
  - intros item He. exists (removed k i item w).
    split; [by apply remove_present|]. split; [|split].
    + rewrite (since_app w _ (fanout w cacheRemoved k i None
                                (third k i (Item.emitter item)))) by done.
      by rewrite emissions_fanout, third_nonempty.
    + unfold listeners_of, removed; cbn. by rewrite lookup_insert_eq.
    + apply entry_drop_item.
Qed.

Lemma remove_then_emitter_witness :
  emitter_fails_after_remove assistant "asst_1"
    (inserted assistant "asst_1" (mkValue 1 None None) new_Cache).
Proof.
  apply (remove_then_emitter assistant "asst_1"); [discriminate | reflexivity].
Defined.

(** C9 fails on the code.  At the empty id [emitter(k, "")] returns the
    emitter of the kind whether or not there is an entry: after
    [remove(k, "")] it does not throw. *)
Theorem emitter_after_remove_empty_id :
  ¬ emitter_fails_after_remove assistant ""
      (inserted assistant "" (mkValue 1 None None) new_Cache).
Proof.
  intros (w' & Hrm & Hem). vm_compute in Hrm. injection Hrm as <-.
  vm_compute in Hem. discriminate Hem.
Qed.

(** At the name of an inherited object [remove] itself throws, after two
    emissions of [cacheRemoved], and [emitter] returns [undefined]. *)
Lemma remove_prototype_member :
  ∃ w', Cache.remove assistant "constructor" new_Cache = (Throw TypeError, w') ∧
        emissions (since new_Cache w')
          = [(GlobalEm, cacheRemoved, "constructor"%string, None);
             (KindEm assistant, cacheRemoved, "constructor"%string, None)] ∧
        Cache.emitter (Some assistant) (Some "constructor"%string) w'
          = (Ok None, w').
Proof. eexists. split; [reflexivity|]. split; reflexivity. Qed.

End CacheProperties.

(** ** Fetching *)

Section Fetching.

(** What [set] does on an entry or on a missing id. *)
Lemma set_spec k i v w :
  storable w k i ->
  ∃ w' item tr,
    Cache.set k i v w = (Ok tt, w') ∧
    entry w' k i = Some item ∧
    same_ref (Item.value item) v = true ∧
    (Item.value item = v ∨ entry w k i = Some item) ∧
    (∀ k' i', k' ≠ k ∨ i' ≠ i -> entry w' k' i' = entry w k' i') ∧
    grows w w' tr ∧ (∀ h, poll_view h tr = []).
Proof.
  intros Hs. destruct (entry w k i) as [item|] eqn:He.
  - destruct (same_ref (Item.value item) v) eqn:Hv.
    + exists w, item, []. rewrite (set_same _ _ _ _ _ He Hv).
      repeat split; [done | done | by right | by rewrite app_nil_r].
    + eexists _, _, _. rewrite (set_other _ _ _ _ _ He Hv).
      split; [done|]. rewrite entry_overwritten.
      repeat split; [by apply same_ref_true | by left | |
                     intros h; apply poll_view_fanout].
      intros k' i' Hne. by apply entry_overwritten_ne.
  - eexists _, _, _.
    rewrite (set_absent _ _ _ _ He (storable_absent _ _ _ Hs He)).
    split; [done|]. rewrite entry_inserted.
    repeat split; [by apply same_ref_true | by left | |
                   intros h; apply poll_view_fanout].
    intros k' i' Hne. by apply entry_inserted_ne.
Qed.

Lemma retrieve_ok k t i v w :
  Cache.retrieve k t i (Ok v) w = (Ok v, logged (RemoteCall k t i) w).
Proof. done. Qed.

Lemma fetch_request k fid t i answer w :
  fetch_shape k fid = Some (t, i) ->
  Cache.fetch k fid answer w =
    bind (Cache.retrieve k t i answer)
         (fun result => Cache.set k i result >>
                        Cache._emit fetched k i (Some result) >>
                        ret result) w.
Proof.
  intros H. unfold Cache.fetch.
  destruct k, fid; cbn in H; try discriminate H; by injection H as <- <-.
Qed.

(** [fetch] is its two parts, one after the other. *)
Lemma fetch_in_parts k fid answer w :
  Cache.fetch k fid answer w
  = (let* i := Cache.fetch_begin k fid in Cache.fetch_resume k i answer) w.
Proof.
  unfold Cache.fetch, Cache.fetch_begin, Cache.fetch_resume, Cache.retrieve.
  destruct k, fid, answer; reflexivity.
Qed.

(** The id does not have the shape that the kind requires: [fetch] throws
    before anything else happens. *)
Lemma fetch_bad_shape k fid answer w :
  fetch_shape k fid = None ->
  Cache.fetch k fid answer w = (Throw (InvalidIdType (typeof fid) k), w).
Proof.
  intros H. unfold Cache.fetch.
  by destruct k, fid; cbn in H; try discriminate H.
Qed.

(** The remote call fails: [fetch] throws its error, and only the call
    has been observed. *)
Lemma fetch_remote_failure k fid t i e w :
  fetch_shape k fid = Some (t, i) ->
  Cache.fetch k fid (Throw e) w = (Throw e, logged (RemoteCall k t i) w).
Proof.
  intros H. by rewrite (fetch_request _ _ _ _ _ _ H).
Qed.

(** The remote call succeeds, for an id that is an entry or missing:
    [fetch] returns its record, which is now in the cache under the plain
    id, and [fetched] is the last event on the global emitter. *)
Lemma fetch_spec k fid t i v w :
  fetch_shape k fid = Some (t, i) ->
  storable w k i ->
  ∃ w' item tr,
    Cache.fetch k fid (Ok v) w = (Ok v, w') ∧
    entry w' k i = Some item ∧
    same_ref (Item.value item) v = true ∧
    (Item.value item = v ∨ entry w k i = Some item) ∧
    (∀ k' i', k' ≠ k ∨ i' ≠ i -> entry w' k' i' = entry w k' i') ∧
    grows w w' tr ∧ (∀ h, poll_view h tr = [Called k t i]) ∧
    last (emitted_on GlobalEm tr) = Some (fetched, i, Some v).
Proof.
  intros H Hs. rewrite (fetch_request _ _ _ _ _ _ H).
  destruct (set_spec k i v (logged (RemoteCall k t i) w) Hs)
    as (w1 & item & tr & Hset & He & Hv & Hval & Hother & Hgrow & Hpv).
  exists (with_trace w1 (trace w1 ++ fanout w1 fetched k i (Some v)
                                      (third k i (Item.emitter item)))),
         item, ([RemoteCall k t i] ++ tr ++ fanout w1 fetched k i (Some v)
                                      (third k i (Item.emitter item))).
  split.
  { rewrite (bind_run _ _ _ _ _ (retrieve_ok k t i v w)).
    rewrite (bind_run _ _ _ _ _ Hset).
    by rewrite (bind_run _ _ _ _ _
                  (_emit_run _ _ _ _ _ _ (channel_of_present _ _ _ _ He))). }
  split; [done|]. split; [done|]. split; [done|]. split; [done|].
  destruct Hgrow as (Ht & Hm & Hf & Hsl).
  split; [|split].
  - unfold grows; cbn. rewrite Ht, Hm, Hf, Hsl. cbn. by rewrite <- !app_assoc.
  - intros h. by rewrite poll_view_app, poll_view_app, Hpv, poll_view_fanout.
  - rewrite !emitted_on_app, emitted_on_fanout.
    rewrite decide_True by done. rewrite decide_False by done.
    rewrite !app_assoc.
    destruct (decide (third k i (Item.emitter item) = GlobalEm));
      rewrite ?app_nil_r; apply last_snoc.
Qed.

End Fetching.

(** ** Keys of the partitions of messages and runs *)

Section Keys.

(** For the kinds message and run and an id that is an entry or missing,
    whatever the thread ids [t1] and [t2]: [fetch] with the compound id
    [(t1, i)] leaves its record under the key [i]; a later [fetch] with
    [(t2, i)] of a record at another address replaces it in that same
    entry; [get] and [getOrFetch] with the plain id [i] then return the
    later record; and no entry under another key has changed. *)
Lemma own_id_is_the_key k t1 t2 i v1 v2 answer w :
  k = message ∨ k = run -> ref v1 ≠ ref v2 -> storable w k i ->
  ∃ w1 w2 item1 e,
    Cache.fetch k (Compound t1 i) (Ok v1) w = (Ok v1, w1) ∧
    entry w1 k i = Some item1 ∧ same_ref (Item.value item1) v1 = true ∧
    Cache.fetch k (Compound t2 i) (Ok v2) w1 = (Ok v2, w2) ∧
    entry w2 k i = Some (Item.mk v2 e) ∧
    Cache.get k i w2 = (Ok (Some v2), w2) ∧
    Cache.getOrFetch k i answer w2 = (Ok (Some v2), w2) ∧
    ∀ i', i' ≠ i -> entry w2 k i' = entry w k i'.
Proof.
  intros Hk Hv Hs.
  assert (Hshape : ∀ t, fetch_shape k (Compound t i) = Some (Some t, i))
    by (by destruct Hk as [-> | ->]).
  destruct (fetch_spec k _ _ _ v1 w (Hshape t1) Hs)
    as (w1 & item1 & tr1 & Hf1 & He1 & Hr1 & _ & Ho1 & _).
  destruct (fetch_spec k _ _ _ v2 w1 (Hshape t2) ltac:(left; by exists item1))
    as (w2 & item2 & tr2 & Hf2 & He2 & Hr2 & Hval2 & Ho2 & _).
  assert (Hitem2 : Item.value item2 = v2).
  { destruct Hval2 as [|He]; [done|]. rewrite He1 in He. injection He as <-.
    apply same_ref_true in Hr1, Hr2. congruence. }
  destruct item2 as [x e]; cbn in Hitem2; subst x.
  exists w1, w2, item1, e. repeat split; try done.
  - by rewrite get_run, (cached_own _ _ _ _ He2).
  - by rewrite (getOrFetch_run_present _ _ _ _ _ He2).
  - intros i' Hi. rewrite Ho2, Ho1; auto.
Qed.

Lemma own_id_is_the_key_witness :
  ∃ w1 w2 item1 e,
    Cache.fetch message (Compound "thread_1" "msg_1")
      (Ok (mkValue 1 None None)) new_Cache = (Ok (mkValue 1 None None), w1) ∧
    entry w1 message "msg_1" = Some item1 ∧
    same_ref (Item.value item1) (mkValue 1 None None) = true ∧
    Cache.fetch message (Compound "thread_2" "msg_1")
      (Ok (mkValue 2 None None)) w1 = (Ok (mkValue 2 None None), w2) ∧
    entry w2 message "msg_1" = Some (Item.mk (mkValue 2 None None) e) ∧
    Cache.get message "msg_1" w2 = (Ok (Some (mkValue 2 None None)), w2) ∧
    Cache.getOrFetch message "msg_1" (Throw NotLoaded) w2
      = (Ok (Some (mkValue 2 None None)), w2) ∧
    ∀ i', i' ≠ "msg_1"%string ->
          entry w2 message i' = entry new_Cache message i'.
Proof.
  apply own_id_is_the_key; [by left | cbn; lia | by right].
Defined.






End Keys.

(** ** Loading a handle *)

Section Loading.

Lemma in_world_run {H A} (m : M World A) (h : H) w :
  in_world m (h, w) = ((m w).1, (h, (m w).2)).
Proof. unfold in_world; cbn. by destruct (m w). Qed.

Lemma with_channels_same w : with_channels w (channels w) = w.
Proof. by destruct w. Qed.

Lemma for_each_removeListener e (l : CacheEvent -> Listener) ks
    (h : StatefulObject.t) w :
  ∃ c, for_each ks (fun key => in_world (removeListener e key (l key))) (h, w)
       = (Ok tt, (h, with_channels w c)).
Proof.
  revert w. induction ks as [|key ks IH]; intros w.
  - exists (channels w). by rewrite with_channels_same.
  - cbn [for_each]. unfold bind at 1. rewrite in_world_run. cbn [fst snd].
    destruct (IH (removeListener e key (l key) w).2) as (c & ->).
    by exists c.
Qed.

Lemma for_each_addListener e (l : CacheEvent -> Listener) ks
    (h : StatefulObject.t) w :
  ∃ c, for_each ks (fun key => in_world (addListener e key (l key))) (h, w)
       = (Ok tt, (h, with_channels w c)) ∧
       default [] (c !! e)
       = listeners_of w e ++ map (fun key => (key, l key)) ks.
Proof.
  revert w. induction ks as [|key ks IH]; intros w.
  - exists (channels w). rewrite with_channels_same, app_nil_r. done.
  - cbn [for_each]. unfold bind at 1. rewrite in_world_run. cbn [fst snd].
    destruct (IH (addListener e key (l key) w).2) as (c & -> & Hc).
    exists c. split; [done|]. rewrite Hc. unfold listeners_of at 1. cbn.
    rewrite lookup_insert_eq. cbn. by rewrite <- app_assoc.
Qed.

(** [_unsubscribe()] touches nothing but registrations, when it is the
    closure that does nothing or [Object.prototype] has no [value]. *)
Lemma call_unsubscribe_run h w :
  StatefulObject._unsubscribe h = None ∨ unpolluted w ->
  ∃ c, StatefulObject.call_unsubscribe (h, w)
       = (Ok tt, (StatefulObject.with_unsubscribe None h, with_channels w c))
       ∨ (StatefulObject._unsubscribe h = None ∧
          StatefulObject.call_unsubscribe (h, w) = (Ok tt, (h, w)) ∧
          c = channels w).
Proof.
  intros Hclean. unfold StatefulObject.call_unsubscribe.
  rewrite (bind_run _ _ _ h (h, w)) by done.
  destruct (StatefulObject._unsubscribe h) as [e|] eqn:Hu.
  - destruct Hclean as [|Hclean]; [done|].
    destruct (for_each_removeListener e
                (Republish (StatefulObject.self h) (StatefulObject._id h))
                StatefulObject.keys h w) as (c & Hc).
    exists c. left. rewrite (bind_run _ _ _ _ _ Hc).
    rewrite (bind_run _ _ _ (with_channels w c) (h, with_channels w c)) by done.
    change (slots (with_channels w c)) with (slots w).
    by rewrite Hclean.
  - exists (channels w). right. done.
Qed.

(** [_subscribe()] on a handle whose entry is in the cache: the handle is
    registered for the six events on the emitter that [emitter(object,
    id)] returns, and remembers that emitter; the cache, the timers and
    the trace are as they were. *)
Lemma _subscribe_present h w item :
  entry w (StatefulObject.object h) (StatefulObject._id h) = Some item ->
  StatefulObject._unsubscribe h = None ∨ unpolluted w ->
  ∃ e c,
    channel_of w (StatefulObject.object h) (StatefulObject._id h) = Some e ∧
    StatefulObject._subscribe (h, w)
      = (Ok tt, (StatefulObject.with_unsubscribe (Some e) h,
                 with_channels w c)) ∧
    ∀ r, r ∈ subscription h -> r ∈ default [] (c !! e).
Proof.
  intros He Hclean.
  pose proof (channel_of_present _ _ _ _ He) as Hch.
  set (e := third (StatefulObject.object h) (StatefulObject._id h)
                  (Item.emitter item)) in *.
  assert (Hstep : ∀ h0 w0,
    StatefulObject.self h0 = StatefulObject.self h ->
    StatefulObject._id h0 = StatefulObject._id h ->
    StatefulObject.object h0 = StatefulObject.object h ->
    _cache w0 = _cache w ->
    ∃ c, (let* emitter := in_world (Cache.emitter
                                (Some (StatefulObject.object h))
                                (Some (StatefulObject.id h))) in
          match emitter with
          | None => throw TypeError
          | Some e =>
              for_each StatefulObject.keys (fun key =>
                in_world (addListener e key
                            (Republish (StatefulObject.self h)
                                       (StatefulObject._id h) key))) >>
              update_this (StatefulObject.with_unsubscribe (Some e))
          end) (h0, w0)
         = (Ok tt, (StatefulObject.with_unsubscribe (Some e) h0,
                    with_channels w0 c)) ∧
         ∀ r, r ∈ subscription h -> r ∈ default [] (c !! e)).
  { intros h0 w0 Hself Hid Hobj Hcache.
    destruct (for_each_addListener e
                (Republish (StatefulObject.self h) (StatefulObject._id h))
                StatefulObject.keys h0 w0) as (c & Hc & Hregs).
    exists c. split.
    - rewrite (bind_run _ _ _ (Some e) (h0, w0)).
      + by rewrite (bind_run _ _ _ _ _ Hc).
      + rewrite in_world_run, emitter_of_entry. unfold StatefulObject.id.
        replace (channel_of w0 _ _) with (Some e); [done|].
        rewrite <- Hch. unfold channel_of, entry. by rewrite Hcache.
    - intros r Hr. rewrite Hregs. apply elem_of_app. by right. }
  unfold StatefulObject._subscribe.
  rewrite (bind_run _ _ _ h (h, w)) by done.
  rewrite (bind_run _ _ _ (Some (Item.value item)) (h, w))
    by (by rewrite in_world_run, get_run; unfold StatefulObject.id;
        rewrite (cached_own _ _ _ _ He)).
  destruct (call_unsubscribe_run h w Hclean)
    as (c0 & [Hu | (Hnone & Hu & ->)]).
  - rewrite (bind_run _ _ _ _ _ Hu).
    destruct (Hstep (StatefulObject.with_unsubscribe None h)
                (with_channels w c0)) as (c & Hrun & Hregs); try done.
    exists e, c. split; [done|]. split; [|done]. by rewrite Hrun.
  - rewrite (bind_run _ _ _ _ _ Hu).
    destruct (Hstep h w) as (c & Hrun & Hregs); try done.
    exists e, c. split; [done|]. split; [|done]. by rewrite Hrun.
Qed.

(** The part of C2 that the code does meet: for a handle of an assistant
    or of a thread whose id is an entry or missing, when the remote call
    (if one is needed) succeeds, [load] returns normally, with an entry in
    the cache for the handle and the handle registered for the six events
    on the emitter that [emitter(object, id)] returns; the remote API is
    called only when the entry was missing. *)
Lemma load_assistant_or_thread h v w :
  StatefulObject.object h = assistant ∨ StatefulObject.object h = thread ->
  storable w (StatefulObject.object h) (StatefulObject._id h) ->
  StatefulObject._unsubscribe h = None ∨ unpolluted w ->
  ∃ h' w' e,
    StatefulObject.load (Ok v) (h, w) = (Ok tt, (h', w')) ∧
    is_Some (entry w' (StatefulObject.object h) (StatefulObject._id h)) ∧
    channel_of w' (StatefulObject.object h) (StatefulObject._id h) = Some e ∧
    StatefulObject._unsubscribe h' = Some e ∧
    (∀ r, r ∈ subscription h -> r ∈ listeners_of w' e) ∧
    poll_view (StatefulObject.self h) (since w w') =
      match entry w (StatefulObject.object h) (StatefulObject._id h) with
      | Some _ => []
      | None => [Called (StatefulObject.object h) None (StatefulObject._id h)]
      end.
Proof.
  intros Hk Hs Hclean. unfold StatefulObject.load.
  rewrite (bind_run _ _ _ h (h, w)) by done.
  destruct (entry w (StatefulObject.object h) (StatefulObject._id h))
    as [item|] eqn:He.
  - destruct (_subscribe_present h w item He Hclean)
      as (e & c & Hch & Hsub & Hregs).
    exists (StatefulObject.with_unsubscribe (Some e) h), (with_channels w c), e.
    split.
    { rewrite (bind_run _ _ _ (Some (Item.value item)) (h, w)); [done|].
      by rewrite in_world_run, (getOrFetch_run_present _ _ _ _ _ He). }
    split; [by exists item|]. split; [done|]. split; [done|].
    split; [done|]. by rewrite (since_app w _ []) by (by rewrite app_nil_r).
  - assert (Hshape : fetch_shape (StatefulObject.object h)
                       (Plain (StatefulObject._id h))
                     = Some (None, StatefulObject._id h))
      by (by destruct Hk as [-> | ->]).
    pose proof (storable_absent _ _ _ Hs He) as Hi.
    destruct (fetch_spec _ _ _ _ v w Hshape Hs)
      as (w1 & item & tr & Hf & He1 & _ & _ & _ & (Ht & _ & _ & Hsl) & Hpv & _).
    assert (Hclean1 : StatefulObject._unsubscribe h = None ∨ unpolluted w1).
    { destruct Hclean as [|Hclean]; [by left|right].
      unfold unpolluted. by rewrite Hsl. }
    destruct (_subscribe_present h w1 item He1 Hclean1)
      as (e & c & Hch & Hsub & Hregs).
    exists (StatefulObject.with_unsubscribe (Some e) h), (with_channels w1 c), e.
    split.
    { rewrite (bind_run _ _ _ (Some v) (h, w1)); [done|].
      rewrite in_world_run, (getOrFetch_run_absent _ _ _ _ He Hi).
      by rewrite (bind_run _ _ _ _ _ Hf). }
    split; [by exists item|]. split; [done|]. split; [done|].
    split; [done|].
    by rewrite (since_app w _ tr).
Qed.

Lemma load_throws_on_miss h answer w :
  StatefulObject.object h = message ∨ StatefulObject.object h = run ->
  lookup w (StatefulObject.object h) (StatefulObject._id h) = Missing ->
  StatefulObject.load answer (h, w)
    = (Throw (InvalidIdType "string" (StatefulObject.object h)), (h, w)).
Proof.
  intros Hk He. unfold StatefulObject.load.
  rewrite (bind_run _ _ _ h (h, w)) by done.
  destruct (lookup_missing_inv _ _ _ He) as (He0 & Hi).
  apply bind_throw. rewrite in_world_run.
  rewrite (getOrFetch_run_absent _ _ _ _ He0 Hi).
  unfold bind. rewrite fetch_bad_shape; [done|].
  by destruct Hk as [-> | ->].
Qed.

(** [Message.load] and [Run.load] are that [load]: on a miss they throw,
    and [Run.load] never gets to [beginPolling]. *)
Lemma Message_load_uncached m answer w :
  StatefulObject.object (Message.base m) = message ->
  lookup w message (StatefulObject._id (Message.base m)) = Missing ->
  Message.load answer (m, w) = (Throw (InvalidIdType "string" message), (m, w)).
Proof.
  intros Hk He. unfold Message.load, zoom. cbn [fst snd].
  rewrite load_throws_on_miss; rewrite ?Hk; [by destruct m | by left | done].
Qed.

Lemma Run_load_uncached r now answer w :
  StatefulObject.object (Run.base r) = run ->
  lookup w run (StatefulObject._id (Run.base r)) = Missing ->
  Run.load now answer (r, w) = (Throw (InvalidIdType "string" run), (r, w)).
Proof.
  intros Hk He. unfold Run.load. apply bind_throw.
  unfold Run.super, zoom. cbn [fst snd].
  rewrite load_throws_on_miss; rewrite ?Hk; [by destruct r | by right | done].
Qed.

(** C2 fails on the code.  A handle of a message or of a run whose record
    is not in the cache ([cache.data[id]] is [undefined]): [load] throws
    the error of a wrong id shape, whatever the remote API would answer.
    Nothing else has happened: no remote call, no entry, no
    subscription. *)
Theorem load_uncached_message_or_run h answer w :
  StatefulObject.object h = message ∨ StatefulObject.object h = run ->
  lookup w (StatefulObject.object h) (StatefulObject._id h) = Missing ->
  StatefulObject.load answer (h, w)
    = (Throw (InvalidIdType "string" (StatefulObject.object h)), (h, w)).
Proof. apply load_throws_on_miss. Qed.

Lemma load_uncached_message_or_run_witness :
  let h := StatefulObject.mk 1 message "msg_1" None in
  StatefulObject.load (Ok (mkValue 1 None None)) (h, new_Cache)
    = (Throw (InvalidIdType "string" message), (h, new_Cache)).
Proof.
  apply load_uncached_message_or_run; [by left | reflexivity].
Defined.

End Loading.

(** ** The poll session of a run *)

Section Polling.

Lemma try_catch_ok {S A} (m : M S A) (handler : Error -> M S A) s a s' :
  m s = (Ok a, s') -> try_catch m handler s = (Ok a, s').
Proof. intros H. unfold try_catch. by rewrite H. Qed.

Lemma try_catch_throw {S A} (m : M S A) (handler : Error -> M S A) s e s' :
  m s = (Throw e, s') -> try_catch m handler s = handler e s'.
Proof. intros H. unfold try_catch. by rewrite H. Qed.

Lemma super_wrappedValue_run r w :
  Run.super StatefulObject.wrappedValue (r, w)
    = (match cached w (StatefulObject.object (Run.base r))
                      (StatefulObject._id (Run.base r)) with
       | Some v => Ok v
       | None => Throw NotLoaded
       end, (r, w)).
Proof.
  destruct r as [b th pi start].
  unfold Run.super, zoom, StatefulObject.wrappedValue; cbn.
  unfold bind, this, in_world; cbn.
  by destruct (cached w _ _).
Qed.

Lemma super_wrappedValue r w item :
  entry w (StatefulObject.object (Run.base r))
          (StatefulObject._id (Run.base r)) = Some item ->
  Run.super StatefulObject.wrappedValue (r, w) = (Ok (Item.value item), (r, w)).
Proof.
  intros H. by rewrite super_wrappedValue_run, (cached_own _ _ _ _ H).
Qed.

Lemma super_wrappedValue_missing r w :
  cached w (StatefulObject.object (Run.base r))
           (StatefulObject._id (Run.base r)) = None ->
  Run.super StatefulObject.wrappedValue (r, w) = (Throw NotLoaded, (r, w)).
Proof. intros H. by rewrite super_wrappedValue_run, H. Qed.

Lemma super_emit event r w :
  Run.super (StatefulObject.emit event) (r, w)
    = (Ok tt, (r, logged (HandleEmit (StatefulObject.self (Run.base r)) event) w)).
Proof. by destruct r. Qed.

Lemma super_emit_if (c : bool) event r w :
  (if c then Run.super (StatefulObject.emit event) else ret tt) (r, w)
    = (Ok tt, (r, logged_if c
                    (HandleEmit (StatefulObject.self (Run.base r)) event) w)).
Proof. destruct c; [apply super_emit | done]. Qed.

Lemma endPolling_run r w :
  Run.endPolling (r, w)
    = (Ok tt, (Run.mk (Run.base r) (Run.thread r) None 0,
               cleared (Run._pollInterval r) w)).
Proof. by destruct r as [b th [t|] start]. Qed.

Lemma on_thread_fetch answer r w :
  Run.on_thread (StatefulObject.fetch answer) (r, w)
    = (match (Cache.fetch (StatefulObject.object (Run.thread r))
                (Plain (StatefulObject._id (Run.thread r))) answer w).1 with
       | Ok _ => Ok tt
       | Throw e => Throw e
       end,
       (r, (Cache.fetch (StatefulObject.object (Run.thread r))
              (Plain (StatefulObject._id (Run.thread r))) answer w).2)).
Proof.
  destruct r as [b th pi start].
  unfold Run.on_thread, zoom, StatefulObject.fetch; cbn.
  unfold bind, this, in_world; cbn.
  by destruct (Cache.fetch _ _ _ _) as [[]].
Qed.

Lemma on_thread_fetch_bind {B} answer (f : unit -> M (Run.t * World) B) r w :
  bind (Run.on_thread (StatefulObject.fetch answer)) f (r, w)
    = match Cache.fetch (StatefulObject.object (Run.thread r))
              (Plain (StatefulObject._id (Run.thread r))) answer w with
      | (Ok _, w') => f tt (r, w')
      | (Throw e, w') => (Throw e, (r, w'))
      end.
Proof.
  unfold bind at 1. rewrite on_thread_fetch.
  by destruct (Cache.fetch _ _ _ _) as [[]].
Qed.

(** One tick within the time bound of a run that is cached, both
    retrieves succeeding, the id of the thread being an entry or missing
    if it is retrieved: what the session shows, the entry of the run,
    and, for a terminal status, the interval cleared and the thread
    written through. *)
Lemma tick_fetched r timer w now old v tv :
  StatefulObject.object (Run.base r) = run ->
  StatefulObject.object (Run.thread r) = thread ->
  Run._pollInterval r = Some timer ->
  timer ∈ timers w ->
  now - Run._pollStartTime r <= POLL_TIMEOUT_MS ->
  entry w run (Run.id r) = Some old ->
  (includes exitStatuses (status v) = true ->
   storable w thread (StatefulObject.id (Run.thread r))) ->
  ∃ r' w' tr item,
    Run.fire timer now (Ok v) (Ok tv) (r, w) = (Ok tt, (r', w')) ∧
    trace w' = trace w ++ tr ∧
    poll_view (StatefulObject.self (Run.base r)) tr
      = tick_view r timer (Item.value old) v ∧
    entry w' run (Run.id r) = Some item ∧
    (Item.value item = v ∨ Item.value item = Item.value old) ∧
    slots w' = slots w ∧
    if includes exitStatuses (status v)
    then r' = Run.mk (Run.base r) (Run.thread r) None 0 ∧
         timers w' = timers w ∖ {[timer]} ∧
         thread_refetched r tv w' tr
    else r' = r ∧ timers w' = timers w ∧
         ∀ k i, k ≠ run -> entry w' k i = entry w k i.
Proof.
  intros Hk Hkt Hpi Htimer Hnow Hold Hst.
  set (self := StatefulObject.self (Run.base r)).
  (* the retrieve of the run *)
  destruct (fetch_spec run (Compound (StatefulObject.id (Run.thread r)) (Run.id r))
              _ _ v w eq_refl (or_introl (ex_intro _ old Hold)))
    as (w1 & item & tr1 & Hf1 & He1 & _ & Hval1 & Hother1
        & (Ht1 & Hm1 & _ & Hsl1) & Hpv1 & _).
  assert (Hitem : Item.value item = v ∨ Item.value item = Item.value old).
  { destruct Hval1 as [|H]; [by left|]. right. congruence. }
  set (w2 := logged_if (bool_decide (status v = Some requires_action))
               (HandleEmit self (actionRequired (required_action v)))
               (logged_if (bool_decide (status v ≠ status (Item.value old)))
                  (HandleEmit self (statusChanged (status v))) w1)).
  assert (Hrun :
    Run.fire timer now (Ok v) (Ok tv) (r, w) =
      (if includes exitStatuses (status v)
       then bind Run.endPolling
              (fun _ => Run.on_thread (StatefulObject.fetch (Ok tv)) >>
                        Run.super (StatefulObject.emit (finished None (status v))))
       else ret tt) (r, w2)).
  { unfold Run.fire. rewrite (bind_run _ _ _ w (r, w)) by done.
    rewrite bool_decide_eq_true_2 by done.
    unfold Run.callback. rewrite (bind_run _ _ _ r (r, w)) by done.
    rewrite (bool_decide_eq_false_2 (now - Run._pollStartTime r > POLL_TIMEOUT_MS))
      by lia.
    unfold Run_object.
    rewrite (bind_run _ _ _ _ _ (super_wrappedValue r w old
               ltac:(by rewrite Hk))).
    erewrite (bind_run (try_catch _ _)); last first.
    { apply try_catch_ok. rewrite (bind_run _ _ _ v (r, w1)).
      - reflexivity.
      - by rewrite in_world_run, Hf1. }
    cbv beta iota.
    rewrite (bind_run _ _ _ _ _ (super_emit_if _ _ r w1)).
    by rewrite (bind_run _ _ _ _ _ (super_emit_if _ _ r _)). }
  assert (Htr2 : ∃ tr2, trace w2 = trace w ++ tr2 ∧
            poll_view self tr2 =
              [Called run (Some (StatefulObject.id (Run.thread r))) (Run.id r)]
              ++ (if bool_decide (status v ≠ status (Item.value old))
                  then [Raised (statusChanged (status v))] else [])
              ++ (if bool_decide (status v = Some requires_action)
                  then [Raised (actionRequired (required_action v))] else [])).
  { exists (tr1 ++ (if bool_decide (status v ≠ status (Item.value old))
                    then [HandleEmit self (statusChanged (status v))] else [])
                ++ (if bool_decide (status v = Some requires_action)
                    then [HandleEmit self (actionRequired (required_action v))]
                    else [])).
    split.
    - unfold w2, logged_if, logged.
      do 2 destruct (bool_decide _); cbn; rewrite Ht1, <- ?app_assoc;
        cbn; by rewrite ?app_nil_r.
    - rewrite !poll_view_app, Hpv1.
      do 2 destruct (bool_decide _); cbn; by rewrite ?decide_True. }
  destruct Htr2 as (tr2 & Htr2 & Hpv2).
  assert (He2 : ∀ k i, entry w2 k i = entry w1 k i).
  { intros k i. unfold w2, logged_if. by do 2 destruct (bool_decide _). }
  assert (Hm2 : timers w2 = timers w).
  { unfold w2, logged_if. by do 2 destruct (bool_decide _). }
  assert (Hsl2 : slots w2 = slots w).
  { unfold w2, logged_if. by do 2 destruct (bool_decide _). }
  unfold tick_view.
  destruct (includes exitStatuses (status v)) eqn:Hexit.
  - (* a terminal status: the interval is cleared, the thread refetched *)
    assert (Hst2 : storable w2 thread (StatefulObject.id (Run.thread r))).
    { apply (storable_later w); [done| |by apply Hst].
      rewrite He2. apply Hother1. by left. }
    rewrite (bind_run _ _ _ _ _ (endPolling_run r w2)), Hpi in Hrun.
    destruct (fetch_spec thread (Plain (StatefulObject._id (Run.thread r)))
                _ _ tv (cleared (Some timer) w2) eq_refl Hst2)
      as (w3 & titem & tr3 & Hf3 & He3 & Hv3 & _ & Hother3
          & (Ht3 & Hm3 & _ & Hsl3) & Hpv3 & Hlast3).
    eexists _, _, (tr2 ++ [IntervalCleared timer] ++ tr3
                   ++ [HandleEmit self (finished None (status v))]), item.
    split.
    { rewrite Hrun.
      rewrite (bind_run _ _ _ tt
                 (Run.mk (Run.base r) (Run.thread r) None 0, w3)).
      - apply super_emit.
      - rewrite on_thread_fetch. cbn [Run.thread]. by rewrite Hkt, Hf3. }
    split.
    { cbn. rewrite Ht3. cbn. rewrite Htr2, <- !app_assoc. done. }
    split.
    { rewrite !poll_view_app, Hpv2, Hpv3. cbn. rewrite decide_True by done.
      by rewrite <- !app_assoc. }
    split.
    { change (entry w3 run (Run.id r) = Some item).
      rewrite Hother3 by (by left). by rewrite <- He1, <- He2. }
    split; [done|].
    split; [change (slots w3 = slots w); rewrite Hsl3; exact Hsl2|].
    split; [done|]. split; [cbn; by rewrite Hm3, <- Hm2|].
    split; [by exists titem|].
    rewrite !emitted_on_app. cbn [emitted_on flat_map]. rewrite !app_nil_r.
    rewrite !last_app. by rewrite Hlast3.
  - exists r, w2, tr2, item. rewrite Hrun.
    split; [done|]. split; [done|].
    split; [by rewrite Hpv2, app_nil_r|].
    split; [by rewrite He2|]. split; [done|].
    split; [done|]. split; [done|]. split; [done|].
    intros k i Hne. rewrite He2. apply Hother1. by left.
Qed.

(** A timer that is not active does not run its callback. *)
Lemma fire_inactive timer now a1 a2 r w :
  timer ∉ timers w -> Run.fire timer now a1 a2 (r, w) = (Ok tt, (r, w)).
Proof.
  intros H. unfold Run.fire. rewrite (bind_run _ _ _ w (r, w)) by done.
  by rewrite bool_decide_eq_false_2.
Qed.

(** What the three parts of the callback do, case by case. *)
Lemma tick_begin_run now r w :
  Run.tick_begin now (r, w) =
    if bool_decide (now - Run._pollStartTime r > POLL_TIMEOUT_MS)
    then (Ok None,
          (Run.mk (Run.base r) (Run.thread r) None 0,
           logged (HandleEmit (StatefulObject.self (Run.base r))
                     (finished (Some (PollTimeout (Run.id r))) None))
                  (cleared (Run._pollInterval r) w)))
    else match cached w (StatefulObject.object (Run.base r))
                        (StatefulObject._id (Run.base r)) with
         | None => (Throw NotLoaded, (r, w))
         | Some oldRun =>
             (Ok (Some (oldRun, Run.id r)),
              (r, logged (RemoteCall run (Some (StatefulObject.id (Run.thread r)))
                            (Run.id r)) w))
         end.
Proof.
  unfold Run.tick_begin. rewrite (bind_run _ _ _ r (r, w)) by done.
  destruct (bool_decide (now - Run._pollStartTime r > POLL_TIMEOUT_MS)).
  { rewrite (bind_run _ _ _ _ _ (endPolling_run r w)).
    by rewrite (bind_run _ _ _ _ _ (super_emit _ _ _)). }
  destruct (cached w _ _) as [oldRun|] eqn:Hc.
  - rewrite (bind_run _ _ _ oldRun (r, w))
      by (by rewrite super_wrappedValue_run, Hc).
    apply try_catch_ok.
    by rewrite (bind_run _ _ _ (Run.id r)
                  (r, logged (RemoteCall run
                                (Some (StatefulObject.id (Run.thread r)))
                                (Run.id r)) w)).
  - apply bind_throw. by rewrite super_wrappedValue_run, Hc.
Qed.

Lemma tick_resume_run oldRun i a r w :
  Run.tick_resume oldRun i a (r, w) =
    match Cache.fetch_resume run i a w with
    | (Throw err, w2) =>
        (Ok None,
         (Run.mk (Run.base r) (Run.thread r) None 0,
          cleared (Run._pollInterval r)
            (logged (HandleEmit (StatefulObject.self (Run.base r))
                       (finished (Some err) None))
               (logged (ConsoleError (Run.id r) err) w2))))
    | (Ok v, w2) =>
        let w4 :=
          logged_if (bool_decide (status v = Some requires_action))
            (HandleEmit (StatefulObject.self (Run.base r))
               (actionRequired (required_action v)))
            (logged_if (bool_decide (status v ≠ status oldRun))
               (HandleEmit (StatefulObject.self (Run.base r))
                  (statusChanged (status v))) w2) in
        if includes exitStatuses (status v) then
          match Cache.fetch_begin (StatefulObject.object (Run.thread r))
                  (Plain (StatefulObject._id (Run.thread r)))
                  (cleared (Run._pollInterval r) w4) with
          | (Ok ti, w6) =>
              (Ok (Some (status v, ti)),
               (Run.mk (Run.base r) (Run.thread r) None 0, w6))
          | (Throw e, w6) =>
              (Throw e, (Run.mk (Run.base r) (Run.thread r) None 0, w6))
          end
        else (Ok None, (r, w4))
    end.
Proof.
  unfold Run.tick_resume, Run_object.
  rewrite (bind_run _ _ _ r (r, w)) by done.
  destruct (Cache.fetch_resume run i a w) as [[v|err] w2] eqn:Hres.
  - erewrite (bind_run (try_catch _ _)); last first.
    { apply try_catch_ok. rewrite (bind_run _ _ _ v (r, w2)).
      - reflexivity.
      - by rewrite in_world_run, Hres. }
    cbv beta iota zeta.
    rewrite (bind_run _ _ _ _ _ (super_emit_if _ _ r w2)).
    rewrite (bind_run _ _ _ _ _ (super_emit_if _ _ r _)).
    destruct (includes exitStatuses (status v)); [|done].
    rewrite (bind_run _ _ _ _ _ (endPolling_run r _)).
    destruct (Cache.fetch_begin _ _ _) as [[ti|e] w6] eqn:Hb.
    + rewrite (bind_run _ _ _ ti
                 (Run.mk (Run.base r) (Run.thread r) None 0, w6)); [done|].
      by rewrite in_world_run, Hb.
    + apply bind_throw. by rewrite in_world_run, Hb.
  - erewrite (bind_run (try_catch _ _)); last first.
    { erewrite try_catch_throw; last first.
      { apply bind_throw. by rewrite in_world_run, Hres. }
      rewrite (bind_run _ _ _ tt (r, _)) by (by rewrite in_world_run).
      rewrite (bind_run _ _ _ _ _ (super_emit _ r _)).
      rewrite (bind_run _ _ _ _ _ (endPolling_run r _)).
      reflexivity. }
    reflexivity.
Qed.

Lemma tick_end_run s ti a r w :
  Run.tick_end s ti a (r, w) =
    match Cache.fetch_resume (StatefulObject.object (Run.thread r)) ti a w with
    | (Ok _, w') =>
        (Ok tt, (r, logged (HandleEmit (StatefulObject.self (Run.base r))
                              (finished None s)) w'))
    | (Throw e, w') => (Throw e, (r, w'))
    end.
Proof.
  unfold Run.tick_end. rewrite (bind_run _ _ _ r (r, w)) by done.
  destruct (Cache.fetch_resume _ _ _ _) as [[v|e] w'] eqn:Hres.
  - rewrite (bind_run _ _ _ v (r, w')) by (by rewrite in_world_run, Hres).
    apply super_emit.
  - apply bind_throw. by rewrite in_world_run, Hres.
Qed.

(** The callback is its three parts run one after the other. *)
Lemma callback_in_parts now a1 a2 s :
  Run.callback now a1 a2 s
  = (let* p := Run.tick_begin now in Run.tick_rest p a1 a2) s.
Proof.
  destruct s as [r w].
  pose proof (tick_begin_run now r w) as Hb.
  unfold Run.callback. rewrite (bind_run _ _ _ r (r, w)) by done.
  destruct (bool_decide (now - Run._pollStartTime r > POLL_TIMEOUT_MS)).
  { rewrite (bind_run _ _ _ _ _ Hb).
    rewrite (bind_run _ _ _ _ _ (endPolling_run r w)). apply super_emit. }
  destruct (cached w (StatefulObject.object (Run.base r))
                     (StatefulObject._id (Run.base r))) as [oldRun|] eqn:Hc.
  2: { rewrite (bind_throw _ _ _ _ _ Hb). apply bind_throw.
       by rewrite super_wrappedValue_run, Hc. }
  rewrite (bind_run _ _ _ _ _ Hb).
  rewrite (bind_run _ _ _ oldRun (r, w))
    by (by rewrite super_wrappedValue_run, Hc).
  unfold Run.tick_rest.
  pose proof (tick_resume_run oldRun (Run.id r) a1 r
                (logged (RemoteCall run (Some (StatefulObject.id (Run.thread r)))
                           (Run.id r)) w)) as Hr.
  assert (Hf : Cache.fetch Run_object
                 (Compound (StatefulObject.id (Run.thread r)) (Run.id r)) a1 w
               = Cache.fetch_resume run (Run.id r) a1
                   (logged (RemoteCall run
                              (Some (StatefulObject.id (Run.thread r)))
                              (Run.id r)) w))
    by (by rewrite fetch_in_parts).
  destruct (Cache.fetch_resume run (Run.id r) a1 _) as [[v|err] w2].
  - erewrite (bind_run (try_catch _ _)); last first.
    { apply try_catch_ok. rewrite (bind_run _ _ _ v (r, w2)).
      - reflexivity.
      - by rewrite in_world_run, Hf. }
    cbv beta iota zeta in Hr |- *.
    rewrite (bind_run _ _ _ _ _ (super_emit_if _ _ r w2)).
    rewrite (bind_run _ _ _ _ _ (super_emit_if _ _ r _)).
    destruct (includes exitStatuses (status v)).
    2: { by rewrite (bind_run _ _ _ _ _ Hr). }
    rewrite (bind_run _ _ _ _ _ (endPolling_run r _)).
    rewrite on_thread_fetch_bind, fetch_in_parts.
    unfold bind at 1.
    destruct (Cache.fetch_begin _ _ _) as [[ti|e] w6].
    + rewrite (bind_run _ _ _ _ _ Hr), tick_end_run.
      cbn [Run.thread Run.base].
      by destruct (Cache.fetch_resume _ _ _ _) as [[x|e] w7].
    + by rewrite (bind_throw _ _ _ _ _ Hr).
  - erewrite (bind_run (try_catch _ _)); last first.
    { erewrite try_catch_throw; last first.
      { apply bind_throw. by rewrite in_world_run, Hf. }
      rewrite (bind_run _ _ _ tt (r, _)) by (by rewrite in_world_run).
      rewrite (bind_run _ _ _ _ _ (super_emit _ r _)).
      rewrite (bind_run _ _ _ _ _ (endPolling_run r _)).
      reflexivity. }
    by rewrite (bind_run _ _ _ _ _ Hr).
Qed.

(** The part of C4 that the code does meet: a tick of an active poll
    timer at which more than [POLL_TIMEOUT_MS] (two minutes) have passed
    since the session began, whatever the remote API would answer,
    returns normally; all it does is clear the interval and then emit one
    [finished] event with the timeout error and no status; the handle is
    left without interval, and the timer does not call its callback
    again. *)
Lemma tick_after_timeout r timer w now a1 a2 :
  Run._pollInterval r = Some timer ->
  timer ∈ timers w ->
  now - Run._pollStartTime r > POLL_TIMEOUT_MS ->
  ∃ r' w',
    Run.fire timer now a1 a2 (r, w) = (Ok tt, (r', w')) ∧
    since w w' =
      [IntervalCleared timer;
       HandleEmit (StatefulObject.self (Run.base r))
         (finished (Some (PollTimeout (Run.id r))) None)] ∧
    Run._pollInterval r' = None ∧
    (timer ∉ timers w') ∧
    ∀ now' b1 b2, Run.fire timer now' b1 b2 (r', w') = (Ok tt, (r', w')).
Proof.
  intros Hpi Htimer Hnow.
  exists (Run.mk (Run.base r) (Run.thread r) None 0),
         (logged (HandleEmit (StatefulObject.self (Run.base r))
                    (finished (Some (PollTimeout (Run.id r))) None))
                 (cleared (Some timer) w)).
  assert (Hnot : timer ∉ timers w ∖ {[timer]}).
  { intros [_ Hin]%elem_of_difference. apply Hin. by apply elem_of_singleton. }
  split; [|split; [|split; [|split]]].
  - unfold Run.fire. rewrite (bind_run _ _ _ w (r, w)) by done.
    rewrite bool_decide_eq_true_2 by done.
    unfold Run.callback. rewrite (bind_run _ _ _ r (r, w)) by done.
    rewrite bool_decide_eq_true_2 by done.
    rewrite (bind_run _ _ _ _ _ (endPolling_run r w)), Hpi.
    by rewrite super_emit.
  - apply since_app. cbn. by rewrite <- app_assoc.
  - done.
  - done.
  - intros now' b1 b2. by apply fire_inactive.
Qed.

(** C4 fails on the code.  The session of [polled_run], begun at time 0:
    the timer calls the callback at 119500 ms, which issues its retrieve
    and awaits it; the timer calls the callback again at 120500 ms, past
    the timeout, which clears the interval and emits [finished] with the
    timeout error; then the retrieve of the first callback is answered,
    with the status [requires_action], and that callback goes on without
    looking at the interval: [statusChanged] and [actionRequired] are
    emitted after the [finished] event of the timeout. *)
Theorem stale_tick_after_timeout :
  ∃ r' w',
    overlapping 0 119500 120500
      (Ok (mkValue 2 (Some requires_action) (Some 7%nat)))
      (Ok (mkValue 3 None None))
      (Ok (mkValue 4 (Some in_progress) None))
      (Ok (mkValue 5 None None))
      (polled_run.1, polled_run.2) = (Ok tt, (r', w')) ∧
    poll_view 1 (since polled_run.2 w') =
      [Called run (Some "thread_1"%string) "run_1"%string;
       Cleared 0;
       Raised (finished (Some (PollTimeout "run_1")) None);
       Raised (statusChanged (Some requires_action));
       Raised (actionRequired (Some 7%nat))].
Proof. eexists _, _. split; by vm_compute. Qed.

(** C1 fails on the code.  A tick of an active poll timer within the time
    bound, for a run of which [cache.get] has no record: reading
    [wrappedValue] throws out of the callback.  Nothing has been emitted
    and the interval is still active. *)
Theorem tick_of_unloaded_run_throws r timer w now a1 a2 :
  timer ∈ timers w ->
  now - Run._pollStartTime r <= POLL_TIMEOUT_MS ->
  cached w (StatefulObject.object (Run.base r))
           (StatefulObject._id (Run.base r)) = None ->
  Run.fire timer now a1 a2 (r, w) = (Throw NotLoaded, (r, w)).
Proof.
  intros Htimer Hnow He.
  unfold Run.fire. rewrite (bind_run _ _ _ w (r, w)) by done.
  rewrite bool_decide_eq_true_2 by done.
  unfold Run.callback. rewrite (bind_run _ _ _ r (r, w)) by done.
  rewrite (bool_decide_eq_false_2 (now - Run._pollStartTime r > POLL_TIMEOUT_MS))
    by lia.
  apply bind_throw. by apply super_wrappedValue_missing.
Qed.

(** The failure that the callback does catch: the retrieve of the run
    fails.  The tick returns normally, having reported the error with a
    [finished] event without status and cleared the interval. *)
Lemma tick_with_failing_fetch r timer w now old e a2 :
  StatefulObject.object (Run.base r) = run ->
  Run._pollInterval r = Some timer ->
  timer ∈ timers w ->
  now - Run._pollStartTime r <= POLL_TIMEOUT_MS ->
  entry w run (Run.id r) = Some old ->
  ∃ r' w',
    Run.fire timer now (Throw e) a2 (r, w) = (Ok tt, (r', w')) ∧
    since w w' =
      [RemoteCall run (Some (StatefulObject.id (Run.thread r))) (Run.id r);
       ConsoleError (Run.id r) e;
       HandleEmit (StatefulObject.self (Run.base r)) (finished (Some e) None);
       IntervalCleared timer] ∧
    Run._pollInterval r' = None ∧
    (timer ∉ timers w').
Proof.
  intros Hk Hpi Htimer Hnow Hold.
  eexists _, _. split; [|split; [|split]].
  - unfold Run.fire. rewrite (bind_run _ _ _ w (r, w)) by done.
    rewrite bool_decide_eq_true_2 by done.
    unfold Run.callback. rewrite (bind_run _ _ _ r (r, w)) by done.
    rewrite (bool_decide_eq_false_2 (now - Run._pollStartTime r > POLL_TIMEOUT_MS))
      by lia.
    unfold Run_object.
    rewrite (bind_run _ _ _ _ _ (super_wrappedValue r w old
               ltac:(by rewrite Hk))).
    erewrite (bind_run (try_catch _ _)); last first.
    { erewrite try_catch_throw; last first.
      { apply bind_throw. rewrite in_world_run.
        by rewrite (fetch_remote_failure run (Compound _ _) _ _ e w eq_refl). }
      rewrite (bind_run _ _ _ tt (r, _)) by (by rewrite in_world_run).
      rewrite (bind_run _ _ _ _ _ (super_emit _ r _)).
      rewrite (bind_run _ _ _ _ _ (endPolling_run r _)), Hpi.
      reflexivity. }
    reflexivity.
  - apply since_app. cbn. by rewrite <- !app_assoc.
  - done.
  - cbn. intros [_ Hin]%elem_of_difference. apply Hin. by apply elem_of_singleton.
Qed.

(** The part of C3 that the code does meet: a run with an active poll
    timer whose cached record has the status [queued], the id of the
    thread being an entry or missing, and three ticks within the time
    bound, each over before the next begins, at which the remote API
    answers with records of status [queued], [in_progress] and
    [completed], the retrieve of the thread succeeding.  The three ticks
    return normally; the session shows, in this order, the three
    retrieves of the run with [statusChanged(in_progress)] after the
    second and [statusChanged(completed)] after the third, then the
    interval cleared, the retrieve of the thread, and one [finished]
    event with no error and the status [completed]; the record retrieved
    for the thread is in the cache and [fetched] for it is the last event
    of the cache; the handle is left without interval, and the timer does
    not call its callback again. *)
Lemma run_terminal_detection r timer w old now1 now2 now3 v1 v2 v3 tv1 tv2 tv3 :
  StatefulObject.object (Run.base r) = run ->
  StatefulObject.object (Run.thread r) = thread ->
  Run._pollInterval r = Some timer ->
  timer ∈ timers w ->
  entry w run (Run.id r) = Some old ->
  storable w thread (StatefulObject.id (Run.thread r)) ->
  status (Item.value old) = Some queued ->
  status v1 = Some queued ->
  status v2 = Some in_progress ->
  status v3 = Some completed ->
  now1 - Run._pollStartTime r <= POLL_TIMEOUT_MS ->
  now2 - Run._pollStartTime r <= POLL_TIMEOUT_MS ->
  now3 - Run._pollStartTime r <= POLL_TIMEOUT_MS ->
  ∃ r' w',
    (Run.fire timer now1 (Ok v1) (Ok tv1) >>
     Run.fire timer now2 (Ok v2) (Ok tv2) >>
     Run.fire timer now3 (Ok v3) (Ok tv3)) (r, w) = (Ok tt, (r', w')) ∧
    poll_view (StatefulObject.self (Run.base r)) (since w w') =
      [Called run (Some (StatefulObject.id (Run.thread r))) (Run.id r);
       Called run (Some (StatefulObject.id (Run.thread r))) (Run.id r);
       Raised (statusChanged (Some in_progress));
       Called run (Some (StatefulObject.id (Run.thread r))) (Run.id r);
       Raised (statusChanged (Some completed));
       Cleared timer;
       Called thread None (StatefulObject.id (Run.thread r));
       Raised (finished None (Some completed))] ∧
    thread_refetched r tv3 w' (since w w') ∧
    Run._pollInterval r' = None ∧
    (timer ∉ timers w') ∧
    ∀ now a1 a2, Run.fire timer now a1 a2 (r', w') = (Ok tt, (r', w')).
Proof.
  intros Hk Hkt Hpi Htimer Hold Hst Hs0 Hs1 Hs2 Hs3 Hn1 Hn2 Hn3.
  destruct (tick_fetched r timer w now1 old v1 tv1 Hk Hkt Hpi Htimer Hn1 Hold
              (fun _ => Hst))
    as (r1 & w1 & tr1 & item1 & Hf1 & Ht1 & Hpv1 & He1 & Hv1 & Hsl1 & Hend1).
  unfold tick_view in Hpv1. rewrite Hs1, Hs0 in Hpv1. rewrite Hs1 in Hend1.
  cbn in Hend1. destruct Hend1 as (-> & Hm1 & Hother1).
  assert (Hst1 : status (Item.value item1) = Some queued)
    by (destruct Hv1 as [-> | ->]; done).
  rewrite <- Hm1 in Htimer.
  assert (Hst1' : storable w1 thread (StatefulObject.id (Run.thread r)))
    by (apply (storable_later w); [done | by apply Hother1 | done]).
  destruct (tick_fetched r timer w1 now2 item1 v2 tv2 Hk Hkt Hpi Htimer Hn2 He1
              (fun _ => Hst1'))
    as (r2 & w2 & tr2 & item2 & Hf2 & Ht2 & Hpv2 & He2 & Hv2 & Hsl2 & Hend2).
  unfold tick_view in Hpv2. rewrite Hs2, Hst1 in Hpv2. rewrite Hs2 in Hend2.
  cbn in Hend2. destruct Hend2 as (-> & Hm2 & Hother2).
  assert (Hst2 : status (Item.value item2) ≠ Some completed)
    by (destruct Hv2 as [-> | ->]; congruence).
  rewrite <- Hm2 in Htimer.
  assert (Hst2' : storable w2 thread (StatefulObject.id (Run.thread r)))
    by (apply (storable_later w1); [done | by apply Hother2 | done]).
  destruct (tick_fetched r timer w2 now3 item2 v3 tv3 Hk Hkt Hpi Htimer Hn3 He2
              (fun _ => Hst2'))
    as (r3 & w3 & tr3 & item3 & Hf3 & Ht3 & Hpv3 & He3 & Hv3 & _ & Hend3).
  unfold tick_view in Hpv3. rewrite Hs3 in Hpv3, Hend3.
  cbn in Hend3. destruct Hend3 as (-> & Hm3 & Hthread & Hlast).
  rewrite (bool_decide_eq_true_2 (Some completed ≠ _)) in Hpv3 by congruence.
  assert (Hnot : timer ∉ timers w3).
  { rewrite Hm3. intros [_ Hin]%elem_of_difference.
    apply Hin. by apply elem_of_singleton. }
  assert (Hsince : since w w3 = tr1 ++ tr2 ++ tr3)
    by (apply since_app; by rewrite Ht3, Ht2, Ht1, <- !app_assoc).
  exists (Run.mk (Run.base r) (Run.thread r) None 0), w3.
  split; [|split; [|split; [|split; [|split]]]].
  - rewrite (bind_run _ _ _ _ _ Hf1). by rewrite (bind_run _ _ _ _ _ Hf2).
  - rewrite Hsince, !poll_view_app, Hpv1, Hpv2, Hpv3. done.
  - split; [done|].
    rewrite Hsince, !emitted_on_app, !last_app. by rewrite Hlast.
  - done.
  - done.
  - intros now a1 a2. by apply fire_inactive.
Qed.

(** The same session when the record in the cache is the first answer of
    the remote API: two ticks, answered with [in_progress] and
    [completed]. *)
Lemma run_terminal_detection_in_two_ticks r timer w old now1 now2 v1 v2 tv1 tv2 :
  StatefulObject.object (Run.base r) = run ->
  StatefulObject.object (Run.thread r) = thread ->
  Run._pollInterval r = Some timer ->
  timer ∈ timers w ->
  entry w run (Run.id r) = Some old ->
  storable w thread (StatefulObject.id (Run.thread r)) ->
  status (Item.value old) = Some queued ->
  status v1 = Some in_progress ->
  status v2 = Some completed ->
  now1 - Run._pollStartTime r <= POLL_TIMEOUT_MS ->
  now2 - Run._pollStartTime r <= POLL_TIMEOUT_MS ->
  ∃ r' w',
    (Run.fire timer now1 (Ok v1) (Ok tv1) >>
     Run.fire timer now2 (Ok v2) (Ok tv2)) (r, w) = (Ok tt, (r', w')) ∧
    poll_view (StatefulObject.self (Run.base r)) (since w w') =
      [Called run (Some (StatefulObject.id (Run.thread r))) (Run.id r);
       Raised (statusChanged (Some in_progress));
       Called run (Some (StatefulObject.id (Run.thread r))) (Run.id r);
       Raised (statusChanged (Some completed));
       Cleared timer;
       Called thread None (StatefulObject.id (Run.thread r));
       Raised (finished None (Some completed))] ∧
    thread_refetched r tv2 w' (since w w') ∧
    Run._pollInterval r' = None ∧
    (timer ∉ timers w').
Proof.
  intros Hk Hkt Hpi Htimer Hold Hst Hs0 Hs1 Hs2 Hn1 Hn2.
  destruct (tick_fetched r timer w now1 old v1 tv1 Hk Hkt Hpi Htimer Hn1 Hold
              (fun _ => Hst))
    as (r1 & w1 & tr1 & item1 & Hf1 & Ht1 & Hpv1 & He1 & Hv1 & Hsl1 & Hend1).
  unfold tick_view in Hpv1. rewrite Hs1, Hs0 in Hpv1. rewrite Hs1 in Hend1.
  cbn in Hend1. destruct Hend1 as (-> & Hm1 & Hother1).
  assert (Hst1 : status (Item.value item1) ≠ Some completed)
    by (destruct Hv1 as [-> | ->]; congruence).
  rewrite <- Hm1 in Htimer.
  assert (Hst1' : storable w1 thread (StatefulObject.id (Run.thread r)))
    by (apply (storable_later w); [done | by apply Hother1 | done]).
  destruct (tick_fetched r timer w1 now2 item1 v2 tv2 Hk Hkt Hpi Htimer Hn2 He1
              (fun _ => Hst1'))
    as (r2 & w2 & tr2 & item2 & Hf2 & Ht2 & Hpv2 & He2 & Hv2 & _ & Hend2).
  unfold tick_view in Hpv2. rewrite Hs2 in Hpv2, Hend2.
  cbn in Hend2. destruct Hend2 as (-> & Hm2 & Hthread & Hlast).
  rewrite (bool_decide_eq_true_2 (Some completed ≠ _)) in Hpv2 by congruence.
  assert (Hsince : since w w2 = tr1 ++ tr2)
    by (apply since_app; by rewrite Ht2, Ht1, <- !app_assoc).
  exists (Run.mk (Run.base r) (Run.thread r) None 0), w2.
  split; [|split; [|split; [|split]]].
  - by rewrite (bind_run _ _ _ _ _ Hf1).
  - by rewrite Hsince, !poll_view_app, Hpv1, Hpv2.
  - split; [done|].
    rewrite Hsince, !emitted_on_app, !last_app. by rewrite Hlast.
  - done.
  - rewrite Hm2. intros [_ Hin]%elem_of_difference.
    apply Hin. by apply elem_of_singleton.
Qed.

(** C3 fails on the code.  The session of [polled_run], whose record has
    the status [queued]: two ticks, each over before the next begins, are
    answered [queued] and [in_progress]; the timer then calls the
    callback at 2250 ms and again at 3000 ms, while the retrieve of the
    third callback is still awaited; both retrieves are answered
    [completed].  The third callback emits [statusChanged(completed)],
    clears the interval, retrieves the thread and emits [finished]; the
    fourth, which read its [oldRun] before, emits
    [statusChanged(completed)] again, retrieves the thread again and
    emits [finished] a second time. *)
Theorem overlapping_ticks_finish_twice :
  ∃ r' w',
    (Run.fire 0 750 (Ok (mkValue 2 (Some queued) None))
                    (Ok (mkValue 6 None None)) >>
     Run.fire 0 1500 (Ok (mkValue 3 (Some in_progress) None))
                     (Ok (mkValue 6 None None)) >>
     overlapping 0 2250 3000
       (Ok (mkValue 4 (Some completed) None)) (Ok (mkValue 6 None None))
       (Ok (mkValue 5 (Some completed) None)) (Ok (mkValue 7 None None)))
      (polled_run.1, polled_run.2) = (Ok tt, (r', w')) ∧
    poll_view 1 (since polled_run.2 w') =
      [Called run (Some "thread_1"%string) "run_1"%string;
       Called run (Some "thread_1"%string) "run_1"%string;
       Raised (statusChanged (Some in_progress));
       Called run (Some "thread_1"%string) "run_1"%string;
       Called run (Some "thread_1"%string) "run_1"%string;
       Raised (statusChanged (Some completed));
       Cleared 0;
       Called thread None "thread_1"%string;
       Raised (finished None (Some completed));
       Raised (statusChanged (Some completed));
       Called thread None "thread_1"%string;
       Raised (finished None (Some completed))].
Proof. eexists _, _. split; by vm_compute. Qed.

Lemma polled_run_shape :
  Run._pollInterval polled_run.1 = Some 0%nat ∧
  Run._pollStartTime polled_run.1 = 0 ∧
  Run.id polled_run.1 = "run_1"%string ∧
  entry polled_run.2 run "run_1"
    = Some (Item.mk (mkValue 1 (Some queued) None) (ItemEm 0)).
Proof. by vm_compute. Qed.

Lemma unloaded_run_shape :
  Run._pollInterval unloaded_run.1 = Some 0%nat ∧
  Run._pollStartTime unloaded_run.1 = 0 ∧
  entry unloaded_run.2 run "run_1" = None ∧
  trace unloaded_run.2 = [IntervalSet 0].
Proof. by vm_compute. Qed.

Lemma tick_after_timeout_on_polled_run :
  ∃ r' w',
    Run.fire 0 120001 (Ok (mkValue 2 (Some in_progress) None))
      (Ok (mkValue 3 None None)) (polled_run.1, polled_run.2)
      = (Ok tt, (r', w')) ∧
    since polled_run.2 w' =
      [IntervalCleared 0;
       HandleEmit (StatefulObject.self (Run.base polled_run.1))
         (finished (Some (PollTimeout (Run.id polled_run.1))) None)] ∧
    Run._pollInterval r' = None ∧
    (0%nat ∉ timers w') ∧
    ∀ now' b1 b2, Run.fire 0 now' b1 b2 (r', w') = (Ok tt, (r', w')).
Proof.
  apply tick_after_timeout;
    [reflexivity | apply (bool_decide_unpack _); by vm_compute
    | by vm_compute].
Qed.

Lemma tick_of_unloaded_run_throws_witness :
  Run.fire 0 750 (Ok (mkValue 1 (Some queued) None)) (Ok (mkValue 3 None None))
    (unloaded_run.1, unloaded_run.2)
  = (Throw NotLoaded, (unloaded_run.1, unloaded_run.2)).
Proof.
  apply tick_of_unloaded_run_throws;
    [apply (bool_decide_unpack _); by vm_compute | by vm_compute
    | by vm_compute].
Defined.

(** The other way out of the callback: the run has reached a terminal
    status and the retrieve of the thread fails.  The error leaves the
    callback after the interval has been cleared, and no [finished] event
    is ever emitted. *)
Lemma tick_with_failing_thread_refetch :
  ∃ r' w',
    Run.fire 0 750 (Ok (mkValue 2 (Some completed) None))
      (Throw (RemoteFailure 500)) (polled_run.1, polled_run.2)
      = (Throw (RemoteFailure 500), (r', w')) ∧
    poll_view 1 (since polled_run.2 w') =
      [Called run (Some "thread_1"%string) "run_1"%string;
       Raised (statusChanged (Some completed));
       Cleared 0;
       Called thread None "thread_1"%string] ∧
    Run._pollInterval r' = None ∧
    ∀ now' b1 b2, Run.fire 0 now' b1 b2 (r', w') = (Ok tt, (r', w')).
Proof.
  eexists _, _. split; [by vm_compute|].
  split; [by vm_compute|]. split; [by vm_compute|].
  intros now' b1 b2. apply fire_inactive.
  intros Hin. apply (bool_decide_pack _) in Hin. by vm_compute in Hin.
Qed.

Lemma run_terminal_detection_on_polled_run :
  ∃ r' w',
    (Run.fire 0 750 (Ok (mkValue 2 (Some queued) None))
                    (Ok (mkValue 5 None None)) >>
     Run.fire 0 1500 (Ok (mkValue 3 (Some in_progress) None))
                     (Ok (mkValue 6 None None)) >>
     Run.fire 0 2250 (Ok (mkValue 4 (Some completed) None))
                     (Ok (mkValue 7 None None)))
      (polled_run.1, polled_run.2) = (Ok tt, (r', w')) ∧
    poll_view (StatefulObject.self (Run.base polled_run.1))
              (since polled_run.2 w') =
      [Called run (Some (StatefulObject.id (Run.thread polled_run.1)))
              (Run.id polled_run.1);
       Called run (Some (StatefulObject.id (Run.thread polled_run.1)))
              (Run.id polled_run.1);
       Raised (statusChanged (Some in_progress));
       Called run (Some (StatefulObject.id (Run.thread polled_run.1)))
              (Run.id polled_run.1);
       Raised (statusChanged (Some completed));
       Cleared 0;
       Called thread None (StatefulObject.id (Run.thread polled_run.1));
       Raised (finished None (Some completed))] ∧
    thread_refetched polled_run.1 (mkValue 7 None None) w'
      (since polled_run.2 w') ∧
    Run._pollInterval r' = None ∧
    (0%nat ∉ timers w') ∧
    ∀ now a1 a2, Run.fire 0 now a1 a2 (r', w') = (Ok tt, (r', w')).
Proof.
  apply (run_terminal_detection polled_run.1 0 polled_run.2
           (Item.mk (mkValue 1 (Some queued) None) (ItemEm 0)));
    [reflexivity | reflexivity | reflexivity
    | apply (bool_decide_unpack _); by vm_compute
    | reflexivity | by right
    | reflexivity | reflexivity | reflexivity | reflexivity
    | by vm_compute | by vm_compute | by vm_compute].
Qed.

End Polling.

(** * Properties of the rest of the code *)

(** ** Request options *)

Section Options.

Context {V : Type}.

Lemma _opts_Some (requestOptions options : gmap string (option V)) key x :
  Context._opts requestOptions options !! key = Some x
  <-> (options ∪ requestOptions) !! key = Some x ∧ is_Some x.
Proof. apply map_lookup_filter_Some. Qed.

(** X1. [_opts] property by property: an option given with a value in the
    call wins; an option given as [undefined] in the call is absent from
    the result even when the session has a value for it; an option not
    given in the call has the value of the session, if that has one; no
    property of the result holds [undefined]. *)
Theorem _opts_lookup (requestOptions options : gmap string (option V)) key :
  Context._opts requestOptions options !! key =
    match options !! key with
    | Some (Some v) => Some (Some v)
    | Some None => None
    | None =>
        match requestOptions !! key with
        | Some (Some v) => Some (Some v)
        | _ => None
        end
    end
  ∧ Context._opts requestOptions options !! key ≠ Some None.
Proof.
  split.
  - destruct (options !! key) as [[v|]|] eqn:Ho.
    + apply _opts_Some. split; [|by eexists]. by apply lookup_union_Some_l.
    + apply eq_None_not_Some. intros [x Hx]. apply _opts_Some in Hx as [Hu [v ->]].
      apply lookup_union_Some_raw in Hu. destruct Hu as [Hu | [Hu _]]; congruence.
    + destruct (requestOptions !! key) as [[v|]|] eqn:Hd.
      * apply _opts_Some. split; [|by eexists].
        apply lookup_union_Some_raw. by right.
      * apply eq_None_not_Some. intros [x Hx]. apply _opts_Some in Hx as [Hu [v ->]].
        apply lookup_union_Some_raw in Hu.
        destruct Hu as [Hu | [_ Hu]]; congruence.
      * apply eq_None_not_Some. intros [x Hx]. apply _opts_Some in Hx as [Hu _].
        apply lookup_union_Some_raw in Hu.
        destruct Hu as [Hu | [_ Hu]]; congruence.
  - intros Hx. apply _opts_Some in Hx as [_ [v Hv]]. discriminate Hv.
Qed.

End Options.

(** ** Entries and their emitters *)

Section Emitters.

Lemma own_emitters_ext w w' :
  _cache w' = _cache w -> fresh_emitter w' = fresh_emitter w ->
  own_emitters w -> own_emitters w'.
Proof.
  intros Hc Hf [H1 H2]. unfold own_emitters, entry. rewrite Hc, Hf. by split.
Qed.

Lemma own_emitters_new_Cache : own_emitters new_Cache.
Proof.
  split.
  - intros k i item H. by destruct k.
  - intros k1 i1 item1 k2 i2 item2 H. by destruct k1.
Qed.

Lemma own_emitters_inserted k i v w :
  own_emitters w -> entry w k i = None -> own_emitters (inserted k i v w).
Proof.
  intros [H1 H2] He. split.
  - intros k' i' item H.
    destruct (decide (k' = k)) as [->|Hk]; [destruct (decide (i' = i)) as [->|Hi]|].
    + rewrite entry_inserted in H. injection H as <-.
      exists (fresh_emitter w). split; [done|]. cbn. lia.
    + rewrite entry_inserted_ne in H by (by right).
      destruct (H1 _ _ _ H) as (n & Hn & Hlt). exists n. split; [done|]. cbn. lia.
    + rewrite entry_inserted_ne in H by (by left).
      destruct (H1 _ _ _ H) as (n & Hn & Hlt). exists n. split; [done|]. cbn. lia.
  - assert (Hfresh : ∀ k' i' item, entry w k' i' = Some item ->
                       Item.emitter item ≠ ItemEm (fresh_emitter w)).
    { intros k' i' item H Heq. destruct (H1 _ _ _ H) as (n & Hn & Hlt).
      rewrite Hn in Heq. injection Heq as ->. lia. }
    assert (Hcase : ∀ k' i' item, entry (inserted k i v w) k' i' = Some item ->
              (k' = k ∧ i' = i ∧ Item.emitter item = ItemEm (fresh_emitter w))
              ∨ entry w k' i' = Some item).
    { intros k' i' item H.
      destruct (decide (k' = k)) as [->|Hk];
        [destruct (decide (i' = i)) as [->|Hi]|].
      - rewrite entry_inserted in H. injection H as <-. by left.
      - rewrite entry_inserted_ne in H by (by right). by right.
      - rewrite entry_inserted_ne in H by (by left). by right. }
    intros k1 i1 item1 k2 i2 item2 H1' H2' Heq.
    destruct (Hcase _ _ _ H1') as [(-> & -> & Hn1) | Ho1],
             (Hcase _ _ _ H2') as [(-> & -> & Hn2) | Ho2]; try done.
    + rewrite Hn1 in Heq. symmetry in Heq. by destruct (Hfresh _ _ _ Ho2).
    + rewrite Hn2 in Heq. by destruct (Hfresh _ _ _ Ho1).
    + by apply (H2 _ _ _ _ _ _ Ho1 Ho2).
Qed.

Lemma own_emitters_overwritten k i v w item :
  own_emitters w -> entry w k i = Some item ->
  own_emitters (overwritten k i v (Item.emitter item) w).
Proof.
  intros [H1 H2] He.
  assert (Hcase : ∀ k' i' item',
            entry (overwritten k i v (Item.emitter item) w) k' i' = Some item' ->
            ∃ old, entry w k' i' = Some old ∧
                   Item.emitter item' = Item.emitter old).
  { intros k' i' item' H.
    destruct (decide (k' = k)) as [->|Hk];
      [destruct (decide (i' = i)) as [->|Hi]|].
    - rewrite entry_overwritten in H. injection H as <-. by exists item.
    - rewrite entry_overwritten_ne in H by (by right). by exists item'.
    - rewrite entry_overwritten_ne in H by (by left). by exists item'. }
  split.
  - intros k' i' item' H. destruct (Hcase _ _ _ H) as (old & Ho & ->).
    by apply (H1 _ _ _ Ho).
  - intros k1 i1 item1 k2 i2 item2 Ha Hb Heq.
    destruct (Hcase _ _ _ Ha) as (old1 & Ho1 & Hn1),
             (Hcase _ _ _ Hb) as (old2 & Ho2 & Hn2).
    apply (H2 _ _ _ _ _ _ Ho1 Ho2). congruence.
Qed.

Lemma own_emitters_removed k i item w :
  own_emitters w -> own_emitters (removed k i item w).
Proof.
  intros [H1 H2].
  assert (Hcase : ∀ k' i' item',
            entry (removed k i item w) k' i' = Some item' ->
            entry w k' i' = Some item').
  { intros k' i' item' H. unfold removed in H.
    destruct (decide (k' = k)) as [->|Hk];
      [destruct (decide (i' = i)) as [->|Hi]|].
    - by rewrite entry_drop_item in H.
    - by rewrite entry_drop_item_ne in H by (by right).
    - by rewrite entry_drop_item_ne in H by (by left). }
  split.
  - intros k' i' item' H. by apply (H1 _ _ _ (Hcase _ _ _ H)).
  - intros k1 i1 item1 k2 i2 item2 Ha Hb.
    by apply (H2 _ _ _ _ _ _ (Hcase _ _ _ Ha) (Hcase _ _ _ Hb)).
Qed.

(** [_emit] changes nothing but the trace, whether it returns or throws. *)
Lemma _emit_frame event k i v w :
  ∃ tr, (Cache._emit event k i v w).2 = with_trace w tr.
Proof.
  unfold Cache._emit, bind at 1 2 3 4. cbn.
  unfold bind. rewrite emitter_of_entry.
  match goal with |- context [channel_of ?w' k i] => destruct (channel_of w' k i) end;
    [by eexists|].
  match goal with |- context [inherited ?w' i] => destruct (inherited w' i) end;
    by eexists.
Qed.

Lemma own_emitters__emit event k i v w :
  own_emitters w -> own_emitters (Cache._emit event k i v w).2.
Proof.
  intros Hw. destruct (_emit_frame event k i v w) as (tr & ->).
  by apply (own_emitters_ext w).
Qed.

(** [set] and [remove] on an inherited object leave the entries as they
    are. *)
Lemma set_inherited_frame k i v w h :
  entry w k i = None -> inherited w i = Some h ->
  ∃ sl tr, (Cache.set k i v w).2 = with_trace (with_slots w sl) tr.
Proof.
  intros He Hi. unfold Cache.set, bind at 1, read.
  rewrite (lookup_inherited _ _ _ _ He Hi).
  destruct (match host_value w h with
            | Some old => same_ref old v
            | None => false
            end).
  { exists (slots w), (trace w). by destruct w. }
  unfold bind at 1, Cache.store_on, modify.
  destruct (_emit_frame updated k i (Some v)
              (with_slots w (<[h:=v]> (slots w)))) as (tr & Htr).
  exists (<[h:=v]> (slots w)), tr. by rewrite Htr.
Qed.

Lemma remove_inherited_frame k i w h :
  entry w k i = None -> inherited w i = Some h ->
  ∃ tr, (Cache.remove k i w).2 = with_trace w tr.
Proof.
  intros He Hi. unfold Cache.remove, bind at 1, read.
  rewrite (lookup_inherited _ _ _ _ He Hi).
  destruct (_emit_frame cacheRemoved k i None w) as (tr & Htr).
  exists tr. unfold bind.
  by destruct (Cache._emit cacheRemoved k i None w) as [[[]|e] w'].
Qed.

Lemma own_emitters_set k i v w :
  own_emitters w -> own_emitters (Cache.set k i v w).2.
Proof.
  intros Hw. destruct (entry w k i) as [item|] eqn:He.
  - destruct (same_ref (Item.value item) v) eqn:Hv.
    + by rewrite (set_same _ _ _ _ _ He Hv).
    + rewrite (set_other _ _ _ _ _ He Hv). by apply own_emitters_overwritten.
  - destruct (inherited w i) as [h|] eqn:Hi.
    + destruct (set_inherited_frame k i v w h He Hi) as (sl & tr & ->).
      by apply (own_emitters_ext w).
    + rewrite (set_absent _ _ _ _ He Hi). by apply own_emitters_inserted.
Qed.

Lemma own_emitters_remove k i w :
  own_emitters w -> own_emitters (Cache.remove k i w).2.
Proof.
  intros Hw. destruct (entry w k i) as [item|] eqn:He.
  - rewrite (remove_present _ _ _ _ He). by apply own_emitters_removed.
  - destruct (inherited w i) as [h|] eqn:Hi.
    + destruct (remove_inherited_frame k i w h He Hi) as (tr & ->).
      by apply (own_emitters_ext w).
    + by rewrite (remove_absent _ _ _ He Hi).
Qed.

Lemma own_emitters_fetch k fid answer w :
  own_emitters w -> own_emitters (Cache.fetch k fid answer w).2.
Proof.
  intros Hw. destruct (fetch_shape k fid) as [[t i]|] eqn:Hs.
  - destruct answer as [v|e].
    + rewrite (fetch_request _ _ _ _ _ _ Hs).
      rewrite (bind_run _ _ _ _ _ (retrieve_ok k t i v w)).
      pose proof (own_emitters_set k i v (logged (RemoteCall k t i) w)
                    (own_emitters_ext w _ eq_refl eq_refl Hw)) as Hset.
      unfold bind at 1.
      destruct (Cache.set k i v (logged (RemoteCall k t i) w)) as [[[]|e] w1];
        [|done].
      pose proof (own_emitters__emit fetched k i (Some v) w1 Hset) as Hem.
      unfold bind.
      by destruct (Cache._emit fetched k i (Some v) w1) as [[[]|e] w2].
    + rewrite (fetch_remote_failure _ _ _ _ _ _ Hs).
      by apply (own_emitters_ext w).
  - by rewrite (fetch_bad_shape _ _ _ _ Hs).
Qed.

(** X2. The entries of a cache made by [new Cache] keep to themselves:
    every entry owns an emitter of its own, one that has been allocated,
    and no two entries share one.  [set], [remove], [_emit], [fetch] and
    [getOrFetch] keep that, whatever they are given and whether they
    return or throw. *)
Theorem own_emitters_kept w :
  own_emitters w ->
  (∀ k i v, own_emitters (Cache.set k i v w).2) ∧
  (∀ k i, own_emitters (Cache.remove k i w).2) ∧
  (∀ event k i v, own_emitters (Cache._emit event k i v w).2) ∧
  (∀ k fid answer, own_emitters (Cache.fetch k fid answer w).2) ∧
  (∀ k i answer, own_emitters (Cache.getOrFetch k i answer w).2).
Proof.
  intros Hw. split; [|split; [|split; [|split]]].
  - intros. by apply own_emitters_set.
  - intros. by apply own_emitters_remove.
  - intros. by apply own_emitters__emit.
  - intros. by apply own_emitters_fetch.
  - intros k i answer. destruct (entry w k i) as [item|] eqn:He.
    + by rewrite (getOrFetch_run_present _ _ _ _ _ He).
    + destruct (inherited w i) as [h|] eqn:Hi.
      * by rewrite (getOrFetch_run_inherited _ _ _ _ _ He Hi).
      * rewrite (getOrFetch_run_absent _ _ _ _ He Hi).
        pose proof (own_emitters_fetch k (Plain i) answer w Hw) as Hf.
        unfold bind.
        by destruct (Cache.fetch k (Plain i) answer w) as [[x|e] w1].
Qed.

Lemma own_emitters_kept_witness :
  own_emitters new_Cache ∧
  (∀ k i v, own_emitters (Cache.set k i v new_Cache).2) ∧
  (∀ k i, own_emitters (Cache.remove k i new_Cache).2) ∧
  (∀ event k i v, own_emitters (Cache._emit event k i v new_Cache).2) ∧
  (∀ k fid answer, own_emitters (Cache.fetch k fid answer new_Cache).2) ∧
  (∀ k i answer, own_emitters (Cache.getOrFetch k i answer new_Cache).2).
Proof.
  split; [apply own_emitters_new_Cache|].
  apply own_emitters_kept, own_emitters_new_Cache.
Defined.

(** X3. The emitter of an entry lasts as long as the entry.  In a cache
    whose entries own their emitters, for an entry whose id is not the
    name of an inherited object: [set] on the entry leaves it the emitter
    it had, listeners included; [remove] followed by [set] gives the
    entry another emitter, which has no listeners, and the old one has
    none left either. *)
Theorem emitter_lifetime k i v w item :
  own_emitters w -> entry w k i = Some item -> inherited w i = None ->
  (∃ item', entry (Cache.set k i v w).2 k i = Some item' ∧
            Item.emitter item' = Item.emitter item ∧
            listeners_of (Cache.set k i v w).2 (Item.emitter item)
              = listeners_of w (Item.emitter item)) ∧
  (∃ item', entry ((Cache.remove k i >> Cache.set k i v) w).2 k i = Some item' ∧
            Item.emitter item' ≠ Item.emitter item ∧
            listeners_of ((Cache.remove k i >> Cache.set k i v) w).2
              (Item.emitter item') = [] ∧
            listeners_of ((Cache.remove k i >> Cache.set k i v) w).2
              (Item.emitter item) = []).
Proof.
  intros [H1 _] He Hi. split.
  - destruct (same_ref (Item.value item) v) eqn:Hv.
    + rewrite (set_same _ _ _ _ _ He Hv). by exists item.
    + rewrite (set_other _ _ _ _ _ He Hv). eexists.
      split; [apply entry_overwritten|]. done.
  - rewrite (bind_run _ _ _ _ _ (remove_present _ _ _ _ He)).
    rewrite (set_absent k i v (removed k i item w))
      by (apply entry_drop_item || exact Hi).
    destruct (H1 _ _ _ He) as (n & Hn & Hlt).
    eexists. split; [apply entry_inserted|]. cbn [Item.emitter snd].
    assert (Hne : ItemEm (fresh_emitter (removed k i item w)) ≠ Item.emitter item).
    { rewrite Hn. cbn. intros [= Heq]. lia. }
    split; [done|]. split.
    + unfold listeners_of; cbn. by rewrite lookup_insert_eq.
    + unfold listeners_of; cbn.
      by rewrite lookup_insert_ne, lookup_insert_eq.
Qed.

Lemma emitter_lifetime_witness :
  let v1 := mkValue 1 None None in
  let v2 := mkValue 2 None None in
  let w := inserted assistant "asst_1" v1 new_Cache in
  (∃ item', entry (Cache.set assistant "asst_1" v2 w).2 assistant "asst_1"
              = Some item' ∧
            Item.emitter item' = ItemEm 0 ∧
            listeners_of (Cache.set assistant "asst_1" v2 w).2 (ItemEm 0)
              = listeners_of w (ItemEm 0)) ∧
  (∃ item', entry ((Cache.remove assistant "asst_1" >>
                    Cache.set assistant "asst_1" v2) w).2 assistant "asst_1"
              = Some item' ∧
            Item.emitter item' ≠ ItemEm 0 ∧
            listeners_of ((Cache.remove assistant "asst_1" >>
                           Cache.set assistant "asst_1" v2) w).2
              (Item.emitter item') = [] ∧
            listeners_of ((Cache.remove assistant "asst_1" >>
                           Cache.set assistant "asst_1" v2) w).2
              (ItemEm 0) = []).
Proof.
  apply (emitter_lifetime assistant "asst_1" (mkValue 2 None None)
           (inserted assistant "asst_1" (mkValue 1 None None) new_Cache)
           (Item.mk (mkValue 1 None None) (ItemEm 0))).
  - apply own_emitters_inserted; [apply own_emitters_new_Cache | reflexivity].
  - reflexivity.
  - reflexivity.
Defined.

(** X4. The events of a [fetch] that the remote API answers, for a plain
    id that is an entry or missing: first the events of the [set] it does
    ([cacheInserted] for a missing entry, [updated] for an entry holding
    another record, none for an entry holding that very record), then
    [fetched]; each on the global emitter, on the emitter of the kind and
    on the one that [emitter(object, id)] returns, in that order. *)
Theorem fetch_emissions k fid t i v w :
  fetch_shape k fid = Some (t, i) ->
  storable w k i ->
  ∃ w' item,
    Cache.fetch k fid (Ok v) w = (Ok v, w') ∧
    entry w' k i = Some item ∧
    emissions (since w w') =
      (let at_all_scopes event :=
         [(GlobalEm, event, i, Some v); (KindEm k, event, i, Some v);
          (third k i (Item.emitter item), event, i, Some v)] in
       match entry w k i with
       | None => at_all_scopes cacheInserted
       | Some old =>
           if same_ref (Item.value old) v then [] else at_all_scopes updated
       end ++ at_all_scopes fetched).
Proof.
  intros Hs Hst. rewrite (fetch_request _ _ _ _ _ _ Hs).
  rewrite (bind_run _ _ _ _ _ (retrieve_ok k t i v w)).
  set (w0 := logged (RemoteCall k t i) w).
  assert (Hfin : ∀ w1 item tr,
    Cache.set k i v w0 = (Ok tt, w1) -> entry w1 k i = Some item ->
    trace w1 = trace w ++ RemoteCall k t i :: tr ->
    ∃ w' item',
      bind (Cache.set k i v)
        (fun _ => Cache._emit fetched k i (Some v) >> ret v) w0 = (Ok v, w') ∧
      entry w' k i = Some item' ∧ item' = item ∧
      emissions (since w w') =
        emissions tr ++ [(GlobalEm, fetched, i, Some v);
                         (KindEm k, fetched, i, Some v);
                         (third k i (Item.emitter item), fetched, i, Some v)]).
  { intros w1 item tr Hrun He Htr.
    eexists _, item. rewrite (bind_run _ _ _ _ _ Hrun).
    rewrite (bind_run _ _ _ _ _
               (_emit_run _ _ _ _ _ _ (channel_of_present _ _ _ _ He))).
    split; [done|]. split; [done|]. split; [done|].
    rewrite (since_app w _ (RemoteCall k t i :: tr
                            ++ fanout w1 fetched k i (Some v)
                                 (third k i (Item.emitter item)))).
    - rewrite (emissions_cons _ (_ ++ _)), emissions_app, emissions_fanout. done.
    - cbn. rewrite Htr. by rewrite <- app_assoc. }
  destruct (entry w k i) as [old|] eqn:He.
  - destruct (same_ref (Item.value old) v) eqn:Hv.
    + destruct (Hfin w0 old []) as (w' & item' & Hrun & He' & -> & Hem).
      * exact (set_same k i v w0 old He Hv).
      * done.
      * done.
      * exists w', old. by rewrite Hrun, Hem.
    + destruct (Hfin (overwritten k i v (Item.emitter old) w0)
                  (Item.mk v (Item.emitter old))
                  (fanout (put_item k i (Item.mk v (Item.emitter old)) w0)
                     updated k i (Some v) (third k i (Item.emitter old))))
        as (w' & item' & Hrun & He' & -> & Hem).
      * exact (set_other k i v w0 old He Hv).
      * apply entry_overwritten.
      * cbn. by rewrite <- app_assoc.
      * eexists w', _. rewrite Hrun, Hem, emissions_fanout. done.
  - destruct (Hfin (inserted k i v w0)
                (Item.mk v (ItemEm (fresh_emitter w0)))
                (fanout (put_item k i (Item.mk v (ItemEm (fresh_emitter w0)))
                           (alloc_emitter w0))
                   cacheInserted k i (Some v)
                   (third k i (ItemEm (fresh_emitter w0)))))
      as (w' & item' & Hrun & He' & -> & Hem).
    + exact (set_absent k i v w0 He (storable_absent _ _ _ Hst He)).
    + apply entry_inserted.
    + cbn. by rewrite <- app_assoc.
    + eexists w', _. rewrite Hrun, Hem, emissions_fanout. done.
Qed.

Lemma fetch_emissions_witness :
  let v := mkValue 1 None None in
  ∃ w' item,
    Cache.fetch thread (Plain "thread_1") (Ok v) new_Cache = (Ok v, w') ∧
    entry w' thread "thread_1" = Some item ∧
    emissions (since new_Cache w') =
      (let at_all_scopes event :=
         [(GlobalEm, event, "thread_1"%string, Some v);
          (KindEm thread, event, "thread_1"%string, Some v);
          (third thread "thread_1" (Item.emitter item), event,
           "thread_1"%string, Some v)] in
       match entry new_Cache thread "thread_1" with
       | None => at_all_scopes cacheInserted
       | Some old =>
           if same_ref (Item.value old) v then [] else at_all_scopes updated
       end ++ at_all_scopes fetched).
Proof.
  apply (fetch_emissions thread (Plain "thread_1") None);
    [reflexivity | by right].
Defined.

(** X5. For an assistant or a thread that is not in the cache
    ([cache.data[id]] is [undefined]), [getOrFetch] twice calls the
    remote API once: the first call stores what the API answers and
    returns it, the second returns that same record whatever the API
    would answer then. *)
Theorem getOrFetch_twice k i v answer w :
  k = assistant ∨ k = thread -> lookup w k i = Missing ->
  ∃ w',
    (let* first := Cache.getOrFetch k i (Ok v) in
     let* second := Cache.getOrFetch k i answer in
     ret (first, second)) w = (Ok (Some v, Some v), w') ∧
    ∀ h, poll_view h (since w w') = [Called k None i].
Proof.
  intros Hk Hl. destruct (lookup_missing_inv _ _ _ Hl) as (He & Hi).
  assert (Hs : fetch_shape k (Plain i) = Some (None, i))
    by (by destruct Hk as [-> | ->]).
  destruct (fetch_spec _ _ _ _ v w Hs (or_intror Hi))
    as (w1 & item & tr & Hf & He1 & _ & Hval & _ & (Ht & _) & Hpv & _).
  assert (Hitem : Item.value item = v)
    by (destruct Hval as [|H]; [done | congruence]).
  exists w1. split.
  - rewrite (bind_run _ _ _ (Some v) w1).
    2: { rewrite (getOrFetch_run_absent _ _ _ _ He Hi).
         by rewrite (bind_run _ _ _ _ _ Hf). }
    rewrite (bind_run _ _ _ _ _ (getOrFetch_run_present _ _ _ _ _ He1)).
    by rewrite Hitem.
  - intros h. by rewrite (since_app w w1 tr).
Qed.

Lemma getOrFetch_twice_witness :
  let v := mkValue 1 None None in
  ∃ w',
    (let* first := Cache.getOrFetch assistant "asst_1" (Ok v) in
     let* second := Cache.getOrFetch assistant "asst_1"
                      (Throw (RemoteFailure 500)) in
     ret (first, second)) new_Cache = (Ok (Some v, Some v), w') ∧
    ∀ h, poll_view h (since new_Cache w') = [Called assistant None "asst_1"%string].
Proof.
  apply getOrFetch_twice; [by left | reflexivity].
Defined.

End Emitters.

(** ** Subscriptions of a handle *)

Section Subscriptions.

Lemma republished_app h l1 l2 :
  republished h (l1 ++ l2) = republished h l1 ++ republished h l2.
Proof. apply flat_map_app. Qed.

Lemma republished_cons h o l :
  republished h (o :: l) = republished h [o] ++ republished h l.
Proof. apply (republished_app h [o]). Qed.

Lemma deliveries_app regs1 regs2 event first :
  deliveries (regs1 ++ regs2) event first
  = deliveries regs1 event first ++ deliveries regs2 event first.
Proof. apply flat_map_app. Qed.

(** Listeners of other handles and of outsiders make the handle [self]
    re-publish nothing. *)
Lemma republished_unheard self regs event first :
  unheard self regs -> republished self (deliveries regs event first) = [].
Proof.
  induction regs as [|[ev l] regs IH]; intros Hun; [done|].
  unfold deliveries in *. cbn [flat_map]. rewrite republished_app, IH.
  - rewrite app_nil_r. cbn. case_decide; [|done].
    destruct l as [self' hid key|n]; cbn; [|done].
    case_decide; [|done]. cbn. rewrite decide_False; [done|].
    apply (Hun ev self' hid key). by left.
  - intros ev' self' hid key Hin. apply (Hun ev' self' hid key). by right.
Qed.

(** The six listeners of a subscription: the one registered for the event
    re-publishes it, if the id is that of the handle. *)
Lemma republished_subscription h event :
  republished (StatefulObject.self h)
    (deliveries (subscription h) event (StatefulObject._id h)) = [event].
Proof.
  destruct event;
    unfold subscription, StatefulObject.keys, deliveries, call_listener;
    cbn [map flat_map fst snd];
    repeat first [ rewrite decide_False by discriminate
                 | rewrite decide_True by reflexivity ];
    cbn; by rewrite decide_True.
Qed.

Lemma republished_fanout self w event k i v e :
  republished self (fanout w event k i v e) =
    republished self (deliveries (listeners_of w GlobalEm) event (kind_name k))
    ++ republished self (deliveries (listeners_of w (KindEm k)) event i)
    ++ republished self (deliveries (listeners_of w e) event i).
Proof.
  unfold fanout.
  rewrite (republished_cons self _ (_ ++ _)), republished_app,
    (republished_cons self _ (_ ++ _)), republished_app,
    (republished_cons self _ (deliveries _ _ _)).
  done.
Qed.

Lemma republished_fanout_unsubscribed self w event k i v e :
  unsubscribed self w -> republished self (fanout w event k i v e) = [].
Proof.
  intros Hun. rewrite republished_fanout, !republished_unheard; done.
Qed.

Lemma unheard_nil self : unheard self [].
Proof. intros ev self' hid key Hin. by apply elem_of_nil in Hin. Qed.

(** A world that differs in one emitter, which the handle does not hear
    on either. *)
Lemma unsubscribed_insert self w w' e regs :
  channels w' = <[e := regs]> (channels w) ->
  unheard self regs -> unsubscribed self w -> unsubscribed self w'.
Proof.
  intros Hc Hregs Hun x. unfold listeners_of. rewrite Hc.
  destruct (decide (e = x)) as [->|Hne].
  - by rewrite lookup_insert_eq.
  - rewrite lookup_insert_ne by done. apply Hun.
Qed.

Lemma unsubscribed_same_channels self w w' :
  channels w' = channels w -> unsubscribed self w -> unsubscribed self w'.
Proof. intros Hc Hun x. unfold listeners_of. rewrite Hc. apply Hun. Qed.

(** [set] on an entry or on a missing id keeps a handle that hears
    nothing that way, and makes it re-publish nothing. *)
Lemma set_unsubscribed self k i v w :
  storable w k i ->
  unsubscribed self w ->
  unsubscribed self (Cache.set k i v w).2 ∧
  republished self (since w (Cache.set k i v w).2) = [].
Proof.
  intros Hst Hun. destruct (entry w k i) as [item|] eqn:He.
  - destruct (same_ref (Item.value item) v) eqn:Hv.
    + rewrite (set_same _ _ _ _ _ He Hv). cbn [snd]. by rewrite since_refl.
    + rewrite (set_other _ _ _ _ _ He Hv). cbn [snd]. split.
      * by apply (unsubscribed_same_channels self w).
      * rewrite since_overwritten. apply republished_fanout_unsubscribed.
        by apply (unsubscribed_same_channels self w).
  - rewrite (set_absent _ _ _ _ He (storable_absent _ _ _ Hst He)). cbn [snd].
    assert (Hun' : unsubscribed self
              (put_item k i (Item.mk v (ItemEm (fresh_emitter w)))
                 (alloc_emitter w))).
    { apply (unsubscribed_insert self w _ (ItemEm (fresh_emitter w)) []);
        [done | apply unheard_nil | done]. }
    split.
    + by apply (unsubscribed_same_channels self
                  (put_item k i (Item.mk v (ItemEm (fresh_emitter w)))
                     (alloc_emitter w))).
    + rewrite since_inserted. by apply republished_fanout_unsubscribed.
Qed.

Lemma for_each_addListener_exact e (l : CacheEvent -> Listener) key ks
    (h : StatefulObject.t) w :
  for_each (key :: ks) (fun key => in_world (addListener e key (l key))) (h, w)
  = (Ok tt, (h, with_channels w
                  (<[e := listeners_of w e
                          ++ map (fun key => (key, l key)) (key :: ks)]>
                     (channels w)))).
Proof.
  revert key w. induction ks as [|key' ks IH]; intros key w.
  - done.
  - change (for_each (key :: key' :: ks) ?f)
      with (bind (f key) (fun _ => for_each (key' :: ks) f)).
    unfold bind at 1. rewrite in_world_run. cbn [fst snd].
    rewrite IH. unfold listeners_of at 1. cbn.
    rewrite lookup_insert_eq, insert_insert_eq. cbn.
    by rewrite <- app_assoc.
Qed.

Lemma remove_first_app r regs1 regs2 :
  r ∉ regs1 -> remove_first r (regs1 ++ r :: regs2) = regs1 ++ regs2.
Proof.
  induction regs1 as [|r' regs1 IH]; intros Hnot; cbn.
  - by rewrite decide_True.
  - rewrite decide_False.
    + rewrite IH; [done|]. intros Hin. apply Hnot. by right.
    + intros ->. apply Hnot. by left.
Qed.

(** Removing the registration added last. *)
Lemma remove_last_app r regs1 regs2 :
  r ∉ regs2 ->
  reverse (remove_first r (reverse (regs1 ++ r :: regs2))) = regs1 ++ regs2.
Proof.
  intros Hnot. rewrite reverse_app, reverse_cons, <- app_assoc. cbn.
  rewrite remove_first_app.
  - by rewrite reverse_app, !reverse_involutive.
  - by rewrite elem_of_reverse.
Qed.

Lemma listeners_of_insert w e regs c :
  listeners_of (with_channels w (<[e := regs]> c)) e = regs.
Proof. unfold listeners_of; cbn. by rewrite lookup_insert_eq. Qed.

Lemma removeListener_step e event l (h : StatefulObject.t) w regs1 regs2
    (f : unit -> M (StatefulObject.t * World) unit) :
  listeners_of w e = regs1 ++ (event, l) :: regs2 ->
  (event, l) ∉ regs2 ->
  bind (in_world (removeListener e event l)) f (h, w)
  = f tt (h, with_channels w (<[e := regs1 ++ regs2]> (channels w))).
Proof.
  intros Hl Hnot. unfold bind. rewrite in_world_run.
  unfold removeListener, modify. cbn [fst snd].
  by rewrite Hl, remove_last_app.
Qed.

(** [_unsubscribe()] of a subscription made on [e] removes its six
    registrations and no other, when [Object.prototype] has no
    [value]. *)
Lemma unsubscribe_exact e h w regs :
  unpolluted w ->
  StatefulObject._unsubscribe h = Some e ->
  listeners_of w e = regs ++ subscription h ->
  StatefulObject.call_unsubscribe (h, w)
  = (Ok tt, (StatefulObject.with_unsubscribe None h,
             with_channels w (<[e := regs]> (channels w)))).
Proof.
  intros Hclean Hu Hl. unfold StatefulObject.call_unsubscribe.
  rewrite (bind_run _ _ _ h (h, w)) by done. rewrite Hu.
  assert (Hloop :
    for_each StatefulObject.keys (fun key =>
      in_world (removeListener e key
                  (Republish (StatefulObject.self h) (StatefulObject._id h) key)))
      (h, w)
    = (Ok tt, (h, with_channels w (<[e := regs]> (channels w))))).
  { unfold StatefulObject.keys. cbn [for_each].
    unfold subscription, StatefulObject.keys in Hl. cbn [map] in Hl.
    assert (Hnot : ∀ (r : Registration) rs,
              Forall (fun r' => r.1 ≠ r'.1) rs -> r ∉ rs).
    { intros r rs Hall Hin. rewrite Forall_forall in Hall.
      by apply (Hall r Hin). }
    erewrite removeListener_step;
      [| exact Hl | apply Hnot; repeat constructor; discriminate].
    do 4 (erewrite removeListener_step;
            [| apply listeners_of_insert
             | apply Hnot; repeat constructor; discriminate]).
    erewrite removeListener_step;
      [| apply listeners_of_insert | apply not_elem_of_nil].
    cbn. rewrite app_nil_r, !insert_insert_eq. done. }
  rewrite (bind_run _ _ _ _ _ Hloop).
  rewrite (bind_run _ _ _ (with_channels w (<[e := regs]> (channels w)))
             (h, with_channels w (<[e := regs]> (channels w)))) by done.
  change (slots (with_channels w (<[e := regs]> (channels w)))) with (slots w).
  by rewrite Hclean.
Qed.

(** [_subscribe()] of a handle that has no subscription, on an entry in
    the cache. *)
Lemma _subscribe_fresh h w item :
  StatefulObject._unsubscribe h = None ->
  entry w (StatefulObject.object h) (StatefulObject._id h) = Some item ->
  let e := third (StatefulObject.object h) (StatefulObject._id h)
                 (Item.emitter item) in
  StatefulObject._subscribe (h, w)
  = (Ok tt, (StatefulObject.with_unsubscribe (Some e) h,
             with_channels w
               (<[e := listeners_of w e ++ subscription h]> (channels w)))).
Proof.
  intros Hu He e. unfold StatefulObject._subscribe.
  rewrite (bind_run _ _ _ h (h, w)) by done.
  rewrite (bind_run _ _ _ (Some (Item.value item)) (h, w))
    by (by rewrite in_world_run, get_run; unfold StatefulObject.id;
        rewrite (cached_own _ _ _ _ He)).
  rewrite (bind_run _ _ _ tt (h, w))
    by (unfold StatefulObject.call_unsubscribe;
        rewrite (bind_run _ _ _ h (h, w)) by done; by rewrite Hu).
  rewrite (bind_run _ _ _ (Some e) (h, w)).
  - unfold StatefulObject.keys.
    by rewrite (bind_run _ _ _ _ _
                  (for_each_addListener_exact e
                     (Republish (StatefulObject.self h) (StatefulObject._id h))
                     _ _ h w)).
  - rewrite in_world_run, emitter_of_entry. unfold StatefulObject.id.
    by rewrite (channel_of_present _ _ _ _ He).
Qed.

Lemma load_cached h answer w item :
  entry w (StatefulObject.object h) (StatefulObject._id h) = Some item ->
  StatefulObject.load answer (h, w) = StatefulObject._subscribe (h, w).
Proof.
  intros He. unfold StatefulObject.load.
  rewrite (bind_run _ _ _ h (h, w)) by done.
  by rewrite (bind_run _ _ _ (Some (Item.value item)) (h, w))
    by (by rewrite in_world_run, (getOrFetch_run_present _ _ _ _ _ He)).
Qed.

(** An event of the entry that the handle is subscribed to, and to no
    other emitter: the handle re-publishes it once. *)
Lemma republished_fanout_subscribed h w event k v n regs :
  unheard (StatefulObject.self h) (listeners_of w GlobalEm) ->
  unheard (StatefulObject.self h) (listeners_of w (KindEm k)) ->
  listeners_of w (ItemEm n) = regs ++ subscription h ->
  unheard (StatefulObject.self h) regs ->
  republished (StatefulObject.self h)
    (fanout w event k (StatefulObject._id h) v (ItemEm n)) = [event].
Proof.
  intros Hg Hk Hl Hregs.
  rewrite republished_fanout, Hl, deliveries_app, republished_app,
    !republished_unheard, republished_subscription by done.
  done.
Qed.

Lemma since_trans w1 w2 w3 tr1 tr2 :
  trace w2 = trace w1 ++ tr1 -> trace w3 = trace w2 ++ tr2 ->
  since w1 w3 = tr1 ++ tr2.
Proof. intros H1 H2. apply since_app. by rewrite H2, H1, app_assoc. Qed.

(** X6. A handle re-publishes an update of its entry once.  A handle with
    a non-empty id and no subscription yet, whose entry is in a cache
    where entries own their emitters: after [load], a [set] of another
    record on its kind and id makes the handle emit [updated] exactly
    once, and nothing else. *)
Theorem handle_republishes_update h answer v w item :
  StatefulObject._id h ≠ ""%string ->
  own_emitters w ->
  StatefulObject._unsubscribe h = None ->
  unsubscribed (StatefulObject.self h) w ->
  entry w (StatefulObject.object h) (StatefulObject._id h) = Some item ->
  same_ref (Item.value item) v = false ->
  ∃ h' w',
    (StatefulObject.load answer >>
     in_world (Cache.set (StatefulObject.object h) (StatefulObject._id h) v))
      (h, w) = (Ok tt, (h', w')) ∧
    republished (StatefulObject.self h) (since w w') = [updated].
Proof.
  intros Hi [Hown _] Hu Hun He Hv.
  destruct (Hown _ _ _ He) as (n & Hn & _).
  pose proof (_subscribe_fresh h w item Hu He) as Hsub. cbn zeta in Hsub.
  rewrite third_nonempty, Hn in Hsub by done.
  eexists _, _. split.
  - rewrite (bind_run _ _ _ _ _
               (eq_trans (load_cached h answer w item He) Hsub)).
    rewrite in_world_run.
    erewrite (set_other _ _ v _ item) by done. cbn [fst snd]. reflexivity.
  - match goal with
    | |- context [since w (overwritten ?k ?i ?v ?e ?w1)] =>
        change (since w (overwritten k i v e w1))
          with (since w1 (overwritten k i v e w1))
    end.
    rewrite since_overwritten, third_nonempty by done. cbn [Item.emitter].
    rewrite Hn.
    apply (republished_fanout_subscribed h _ updated _ _ n
             (listeners_of w (ItemEm n))).
    + unfold listeners_of; cbn. rewrite lookup_insert_ne by done. apply Hun.
    + unfold listeners_of; cbn. rewrite lookup_insert_ne by done. apply Hun.
    + unfold listeners_of at 1; cbn. by rewrite lookup_insert_eq.
    + apply Hun.
Qed.

Lemma unsubscribed_new_Cache self : unsubscribed self new_Cache.
Proof. intros e. apply unheard_nil. Qed.

Lemma unsubscribed_inserted self k i v w :
  unsubscribed self w -> unsubscribed self (inserted k i v w).
Proof.
  intros Hun.
  apply (unsubscribed_insert self w _ (ItemEm (fresh_emitter w)) []);
    [done | apply unheard_nil | done].
Qed.

Lemma handle_republishes_update_witness :
  let h := StatefulObject.mk 1 thread "thread_1" None in
  let w := inserted thread "thread_1" (mkValue 1 None None) new_Cache in
  ∃ h' w',
    (StatefulObject.load (Throw (RemoteFailure 500)) >>
     in_world (Cache.set thread "thread_1" (mkValue 2 None None)))
      (h, w) = (Ok tt, (h', w')) ∧
    republished 1 (since w w') = [updated].
Proof.
  apply (handle_republishes_update
           (StatefulObject.mk 1 thread "thread_1" None) _ _ _
           (Item.mk (mkValue 1 None None) (ItemEm 0))).
  - discriminate.
  - apply own_emitters_inserted; [apply own_emitters_new_Cache | reflexivity].
  - reflexivity.
  - apply unsubscribed_inserted, unsubscribed_new_Cache.
  - reflexivity.
  - reflexivity.
Defined.

(** [_subscribe()] of a handle in the state that [_subscribe_fresh]
    leaves, when [Object.prototype] has no [value]: it removes its
    listeners and adds them again. *)
Lemma _subscribe_twice h w item :
  unpolluted w ->
  StatefulObject._unsubscribe h = None ->
  entry w (StatefulObject.object h) (StatefulObject._id h) = Some item ->
  let e := third (StatefulObject.object h) (StatefulObject._id h)
                 (Item.emitter item) in
  let h1 := StatefulObject.with_unsubscribe (Some e) h in
  let w1 := with_channels w
              (<[e := listeners_of w e ++ subscription h]> (channels w)) in
  StatefulObject._subscribe (h1, w1) = (Ok tt, (h1, w1)).
Proof.
  intros Hclean Hu He e h1 w1.
  unfold StatefulObject._subscribe.
  rewrite (bind_run _ _ _ h1 (h1, w1)) by done.
  rewrite (bind_run _ _ _ (Some (Item.value item)) (h1, w1)).
  2:{ rewrite in_world_run, get_run. unfold StatefulObject.id.
      by rewrite (cached_own w1 (StatefulObject.object h1)
                    (StatefulObject._id h1) item He). }
  rewrite (bind_run _ _ _ _ _
             (unsubscribe_exact e h1 w1 (listeners_of w e) Hclean eq_refl
                (listeners_of_insert w e _ (channels w)))).
  set (h2 := StatefulObject.with_unsubscribe None h1).
  set (w2 := with_channels w1 (<[e := listeners_of w e]> (channels w1))).
  rewrite (bind_run _ _ _ (Some e) (h2, w2)).
  2:{ rewrite in_world_run, emitter_of_entry. unfold StatefulObject.id.
      change (channel_of w2 (StatefulObject.object h1) (StatefulObject._id h1))
        with (channel_of w (StatefulObject.object h) (StatefulObject._id h)).
      by rewrite (channel_of_present _ _ _ _ He). }
  unfold StatefulObject.keys.
  rewrite (bind_run _ _ _ _ _
             (for_each_addListener_exact e
                (Republish (StatefulObject.self h) (StatefulObject._id h))
                _ _ h2 w2)).
  replace (listeners_of w2 e) with (listeners_of w e)
    by (symmetry; apply listeners_of_insert).
  unfold update_this, modify, h2, h1, w2, w1, subscription, StatefulObject.keys.
  cbn. rewrite !insert_insert_eq. done.
Qed.

(** X7. Loading again does not subscribe twice.  For a handle without
    subscription whose entry is in the cache, [Object.prototype] having
    no property [value]: [load] registers its six listeners after those
    already on the emitter of the entry, and a second [load] leaves the
    handle and the world exactly as the first left them. *)
Theorem load_again h answer1 answer2 w item :
  unpolluted w ->
  StatefulObject._unsubscribe h = None ->
  entry w (StatefulObject.object h) (StatefulObject._id h) = Some item ->
  ∃ h' w' e,
    channel_of w (StatefulObject.object h) (StatefulObject._id h) = Some e ∧
    StatefulObject.load answer1 (h, w) = (Ok tt, (h', w')) ∧
    listeners_of w' e = listeners_of w e ++ subscription h ∧
    StatefulObject.load answer2 (h', w') = (Ok tt, (h', w')).
Proof.
  intros Hclean Hu He.
  pose proof (_subscribe_fresh h w item Hu He) as Hsub.
  pose proof (_subscribe_twice h w item Hclean Hu He) as Hsub2.
  cbn zeta in Hsub, Hsub2.
  eexists _, _, _.
  split; [by apply channel_of_present|].
  split; [by rewrite (load_cached h answer1 w item He)|].
  split; [apply listeners_of_insert|].
  by rewrite (load_cached
                (StatefulObject.with_unsubscribe (Some _) h) answer2
                (with_channels w _) item He).
Qed.

Lemma load_again_witness :
  let h := StatefulObject.mk 1 thread "thread_1" None in
  let w := inserted thread "thread_1" (mkValue 1 None None) new_Cache in
  ∃ h' w' e,
    channel_of w thread "thread_1" = Some e ∧
    StatefulObject.load (Throw (RemoteFailure 500)) (h, w)
      = (Ok tt, (h', w')) ∧
    listeners_of w' e = listeners_of w e ++ subscription h ∧
    StatefulObject.load (Throw (RemoteFailure 500)) (h', w')
      = (Ok tt, (h', w')).
Proof.
  apply (load_again (StatefulObject.mk 1 thread "thread_1" None) _ _ _
           (Item.mk (mkValue 1 None None) (ItemEm 0)));
    reflexivity.
Defined.

(** X8. A subscription does not outlive its entry.  A subscribed handle
    whose id is neither empty nor the name of an inherited object, in a
    cache where entries own their emitters: when the entry is removed the
    handle emits [cacheRemoved]; when the entry is then inserted again
    and updated, the handle emits nothing, for it is no longer registered
    anywhere. *)
Theorem subscription_ends_with_entry h answer v1 v2 w item :
  StatefulObject._id h ≠ ""%string ->
  inherited w (StatefulObject._id h) = None ->
  own_emitters w ->
  StatefulObject._unsubscribe h = None ->
  unsubscribed (StatefulObject.self h) w ->
  entry w (StatefulObject.object h) (StatefulObject._id h) = Some item ->
  ∃ h' w',
    (StatefulObject.load answer >>
     in_world (Cache.remove (StatefulObject.object h) (StatefulObject._id h)) >>
     in_world (Cache.set (StatefulObject.object h) (StatefulObject._id h) v1) >>
     in_world (Cache.set (StatefulObject.object h) (StatefulObject._id h) v2))
      (h, w) = (Ok tt, (h', w')) ∧
    republished (StatefulObject.self h) (since w w') = [cacheRemoved] ∧
    is_Some (entry w' (StatefulObject.object h) (StatefulObject._id h)) ∧
    unsubscribed (StatefulObject.self h) w'.
Proof.
  intros Hi Hinh [Hown _] Hu Hun He.
  destruct (Hown _ _ _ He) as (n & Hn & _).
  pose proof (_subscribe_fresh h w item Hu He) as Hsub. cbn zeta in Hsub.
  rewrite third_nonempty, Hn in Hsub by done.
  set (k := StatefulObject.object h) in *.
  set (i := StatefulObject._id h) in *.
  set (w1 := with_channels w
               (<[ItemEm n := listeners_of w (ItemEm n) ++ subscription h]>
                  (channels w))) in *.
  set (w2 := removed k i item w1).
  assert (Hun2 : unsubscribed (StatefulObject.self h) w2).
  { apply (unsubscribed_insert _ w _ (ItemEm n) []);
      [|apply unheard_nil | done].
    unfold w2, removed, w1; cbn. by rewrite Hn, insert_insert_eq. }
  assert (Hst2 : storable w2 k i) by (by right).
  destruct (set_spec k i v1 w2 Hst2)
    as (w3 & item3 & tr3 & Hset3 & He3 & _ & _ & _ & (Ht3 & _) & _).
  destruct (set_unsubscribed _ k i v1 w2 Hst2 Hun2) as [Hun3 Hq3].
  rewrite Hset3 in Hun3, Hq3. cbn [snd] in Hun3, Hq3.
  assert (Hst3 : storable w3 k i) by (left; by exists item3).
  destruct (set_spec k i v2 w3 Hst3)
    as (w4 & item4 & tr4 & Hset4 & He4 & _ & _ & _ & (Ht4 & _) & _).
  destruct (set_unsubscribed _ k i v2 w3 Hst3 Hun3) as [Hun4 Hq4].
  rewrite Hset4 in Hun4, Hq4. cbn [snd] in Hun4, Hq4.
  rewrite (since_app _ _ _ Ht3) in Hq3. rewrite (since_app _ _ _ Ht4) in Hq4.
  exists (StatefulObject.with_unsubscribe (Some (ItemEm n)) h), w4.
  split; [|split; [|split]].
  - rewrite (bind_run _ _ _ _ _
               (eq_trans (load_cached h answer w item He) Hsub)).
    rewrite (bind_run _ _ _ tt (_, w2))
      by (by rewrite in_world_run, (remove_present k i w1 item He)).
    rewrite (bind_run _ _ _ tt (_, w3)) by (by rewrite in_world_run, Hset3).
    by rewrite in_world_run, Hset4.
  - rewrite (since_app w w4
               (fanout w1 cacheRemoved k i None (ItemEm n) ++ tr3 ++ tr4)).
    + rewrite !republished_app, Hq3, Hq4, !app_nil_r.
      apply (republished_fanout_subscribed h w1 cacheRemoved k None n
               (listeners_of w (ItemEm n))).
      * unfold listeners_of, w1; cbn. rewrite lookup_insert_ne by done. apply Hun.
      * unfold listeners_of, w1; cbn. rewrite lookup_insert_ne by done. apply Hun.
      * apply listeners_of_insert.
      * apply Hun.
    + rewrite Ht4, Ht3.
      change (trace w2)
        with (trace w ++ fanout w1 cacheRemoved k i None
                           (third k i (Item.emitter item))).
      rewrite third_nonempty, Hn by done. by rewrite <- !app_assoc.
  - by exists item4.
  - done.
Qed.

Lemma subscription_ends_with_entry_witness :
  let h := StatefulObject.mk 1 thread "thread_1" None in
  let w := inserted thread "thread_1" (mkValue 1 None None) new_Cache in
  ∃ h' w',
    (StatefulObject.load (Throw (RemoteFailure 500)) >>
     in_world (Cache.remove thread "thread_1") >>
     in_world (Cache.set thread "thread_1" (mkValue 2 None None)) >>
     in_world (Cache.set thread "thread_1" (mkValue 3 None None)))
      (h, w) = (Ok tt, (h', w')) ∧
    republished 1 (since w w') = [cacheRemoved] ∧
    is_Some (entry w' thread "thread_1") ∧
    unsubscribed 1 w'.
Proof.
  apply (subscription_ends_with_entry
           (StatefulObject.mk 1 thread "thread_1" None) _ _ _ _
           (Item.mk (mkValue 1 None None) (ItemEm 0))).
  - discriminate.
  - reflexivity.
  - apply own_emitters_inserted; [apply own_emitters_new_Cache | reflexivity].
  - reflexivity.
  - apply unsubscribed_inserted, unsubscribed_new_Cache.
  - reflexivity.
Defined.

End Subscriptions.

Section PollingSessions.

Lemma beginPolling_run now r w :
  Run.beginPolling now (r, w)
    = (Ok tt, (Run.mk (Run.base r) (Run.thread r) (Some (fresh_timer w)) now,
               started (cleared (Run._pollInterval r) w))).
Proof. by destruct r as [b th [t|] start]. Qed.

Lemma poll_view_cleared self t w :
  poll_view self (since w (cleared t w))
  = match t with Some n => [Cleared n] | None => [] end.
Proof.
  destruct t as [n|]; cbn.
  - by rewrite (since_app w _ [IntervalCleared n]).
  - by rewrite (since_app w w []) by (by rewrite app_nil_r).
Qed.

(** X9. Restarting a poll session leaves one timer.  In a world where
    every active timer was handed out by [setInterval], for a handle
    whose timer, if it has one, was too: [beginPolling] at time [now]
    clears that timer, starts a new one and records [now] as the start
    time; the old timer is never active again and no other timer is
    touched. *)
Theorem beginPolling_restart r now w :
  known_timers w ->
  (∀ t, Run._pollInterval r = Some t -> (t < fresh_timer w)%nat) ->
  ∃ r' w' timer,
    Run.beginPolling now (r, w) = (Ok tt, (r', w')) ∧
    Run._pollInterval r' = Some timer ∧
    Run._pollStartTime r' = now ∧
    timer ∈ timers w' ∧ (timer ∉ timers w) ∧ known_timers w' ∧
    poll_view (StatefulObject.self (Run.base r)) (since w w')
      = match Run._pollInterval r with
        | Some t => [Cleared t; Started timer]
        | None => [Started timer]
        end ∧
    (∀ t, Run._pollInterval r = Some t ->
       (t ∉ timers w') ∧
       ∀ now' a1 a2, Run.fire t now' a1 a2 (r', w') = (Ok tt, (r', w'))) ∧
    (∀ t, Run._pollInterval r ≠ Some t -> t ≠ timer ->
       (t ∈ timers w' ↔ t ∈ timers w)).
Proof.
  intros Hknown Hold.
  eexists _, _, (fresh_timer w).
  split; [apply beginPolling_run|].
  assert (Hfresh : fresh_timer w ∉ timers w).
  { intros Hin. apply Hknown in Hin. lia. }
  assert (Hold' : ∀ t, Run._pollInterval r = Some t ->
            t ∉ timers (started (cleared (Run._pollInterval r) w))).
  { intros t Ht. rewrite Ht. cbn.
    intros [Hin|Hin]%elem_of_union.
    - apply elem_of_singleton in Hin. specialize (Hold t Ht). lia.
    - apply elem_of_difference in Hin as [_ Hin]. apply Hin.
      by apply elem_of_singleton. }
  split; [done|]. split; [done|].
  split.
  { destruct (Run._pollInterval r); cbn; apply elem_of_union_l;
      by apply elem_of_singleton. }
  split; [done|].
  split.
  { intros t. destruct (Run._pollInterval r) as [t0|]; cbn;
      intros [Hin|Hin]%elem_of_union.
    - apply elem_of_singleton in Hin. lia.
    - apply elem_of_difference in Hin as [Hin _]. apply Hknown in Hin. lia.
    - apply elem_of_singleton in Hin. lia.
    - apply Hknown in Hin. lia. }
  split.
  { destruct (Run._pollInterval r) as [t0|]; cbn.
    - by rewrite (since_app w _ [IntervalCleared t0; IntervalSet (fresh_timer w)])
        by (cbn; by rewrite <- app_assoc).
    - by rewrite (since_app w _ [IntervalSet (fresh_timer w)]). }
  split.
  { intros t Ht. split; [by apply Hold'|].
    intros now' a1 a2. apply fire_inactive. by apply Hold'. }
  intros t Ht Hne.
  destruct (Run._pollInterval r) as [t0|]; cbn.
  - rewrite elem_of_union, elem_of_singleton, elem_of_difference,
      elem_of_singleton.
    split; [intros [?|[? _]]; done|].
    intros Hin. right. split; [done|]. intros ->. by apply Ht.
  - rewrite elem_of_union, elem_of_singleton.
    split; [intros [?|?]; done | by right].
Qed.

Lemma polled_run_timers :
  known_timers polled_run.2 ∧ fresh_timer polled_run.2 = 1%nat.
Proof.
  split; [|reflexivity].
  intros t Hin.
  change (t ∈ ({[0%nat]} ∪ ∅ : gset nat)) in Hin.
  apply elem_of_union in Hin as [Hin|Hin].
  - apply elem_of_singleton in Hin. subst t.
    change (fresh_timer polled_run.2) with 1%nat. lia.
  - by apply elem_of_empty in Hin.
Qed.

Lemma beginPolling_restart_witness :
  ∃ r' w' timer,
    Run.beginPolling 5000 (polled_run.1, polled_run.2) = (Ok tt, (r', w')) ∧
    Run._pollInterval r' = Some timer ∧
    Run._pollStartTime r' = 5000 ∧
    timer ∈ timers w' ∧ (timer ∉ timers polled_run.2) ∧ known_timers w' ∧
    poll_view (StatefulObject.self (Run.base polled_run.1))
              (since polled_run.2 w')
      = match Run._pollInterval polled_run.1 with
        | Some t => [Cleared t; Started timer]
        | None => [Started timer]
        end ∧
    (∀ t, Run._pollInterval polled_run.1 = Some t ->
       (t ∉ timers w') ∧
       ∀ now' a1 a2, Run.fire t now' a1 a2 (r', w') = (Ok tt, (r', w'))) ∧
    (∀ t, Run._pollInterval polled_run.1 ≠ Some t -> t ≠ timer ->
       (t ∈ timers w' ↔ t ∈ timers polled_run.2)).
Proof.
  apply (beginPolling_restart polled_run.1 5000 polled_run.2).
  - apply polled_run_timers.
  - intros t Ht. change (Some 0%nat = Some t) in Ht. injection Ht as <-.
    change (fresh_timer polled_run.2) with 1%nat. lia.
Defined.

Lemma tick_timed_out r timer w now a1 a2 :
  Run._pollInterval r = Some timer ->
  timer ∈ timers w ->
  now - Run._pollStartTime r > POLL_TIMEOUT_MS ->
  Run.fire timer now a1 a2 (r, w)
  = (Ok tt, (Run.mk (Run.base r) (Run.thread r) None 0,
             logged (HandleEmit (StatefulObject.self (Run.base r))
                       (finished (Some (PollTimeout (Run.id r))) None))
                    (cleared (Some timer) w))).
Proof.
  intros Hpi Htimer Hnow.
  unfold Run.fire. rewrite (bind_run _ _ _ w (r, w)) by done.
  rewrite bool_decide_eq_true_2 by done.
  unfold Run.callback. rewrite (bind_run _ _ _ r (r, w)) by done.
  rewrite bool_decide_eq_true_2 by done.
  rewrite (bind_run _ _ _ _ _ (endPolling_run r w)), Hpi.
  by rewrite super_emit.
Qed.

Lemma ticks_app_run timer steps1 steps2 ta (st st' : Run.t * World) :
  ticks timer steps1 ta st = (Ok tt, st') ->
  ticks timer (steps1 ++ steps2) ta st = ticks timer steps2 ta st'.
Proof.
  revert st. induction steps1 as [|[now a] steps1 IH]; intros st H.
  - by injection H as <-.
  - cbn [ticks app] in *. unfold bind in *.
    destruct (Run.fire timer now a ta st) as [[[]|e] st1]; [|done].
    by apply IH.
Qed.

(** Ticks within the time bound of a run whose status stays [s], which is
    not terminal. *)
Lemma ticks_idle r timer s steps tv :
  StatefulObject.object (Run.base r) = run ->
  StatefulObject.object (Run.thread r) = thread ->
  Run._pollInterval r = Some timer ->
  includes exitStatuses s = false ->
  Forall (fun step => step.1 - Run._pollStartTime r <= POLL_TIMEOUT_MS ∧
                      status step.2 = s) steps ->
  ∀ w old,
    timer ∈ timers w ->
    entry w run (Run.id r) = Some old ->
    status (Item.value old) = s ->
    ∃ w' tr item,
      ticks timer (answered steps) (Ok tv) (r, w) = (Ok tt, (r, w')) ∧
      trace w' = trace w ++ tr ∧
      poll_view (StatefulObject.self (Run.base r)) tr
        = flat_map (fun step => idle_tick_view r s step.2) steps ∧
      timer ∈ timers w' ∧
      entry w' run (Run.id r) = Some item ∧
      status (Item.value item) = s.
Proof.
  intros Hk Hkt Hpi Hs Hall.
  induction Hall as [|[now v] steps [Hnow Hv] _ IH]; intros w old Htimer He Hold.
  - exists w, [], old. by rewrite app_nil_r.
  - cbn [fst snd] in Hnow, Hv.
    destruct (tick_fetched r timer w now old v tv Hk Hkt Hpi Htimer Hnow He)
      as (r1 & w1 & tr1 & item1 & Hfire & Ht1 & Hpv1 & He1 & Hval1 & _ & Hrest).
    { rewrite Hv, Hs. discriminate. }
    rewrite Hv, Hs in Hrest. destruct Hrest as (-> & Hm1 & _).
    assert (Hst1 : status (Item.value item1) = s)
      by (destruct Hval1 as [->| ->]; done).
    destruct (IH w1 item1 ltac:(by rewrite Hm1) He1 Hst1)
      as (w2 & tr2 & item2 & Hticks & Ht2 & Hpv2 & Htimer2 & He2 & Hst2).
    exists w2, (tr1 ++ tr2), item2.
    split; [|split; [|split; [|split]]]; try done.
    + cbn [answered map ticks fst snd].
      by rewrite (bind_run _ _ _ _ _ Hfire).
    + by rewrite Ht2, Ht1, app_assoc.
    + rewrite poll_view_app, Hpv1, Hpv2. cbn [flat_map snd].
      f_equal. unfold tick_view, idle_tick_view. rewrite Hv, Hold, Hs.
      rewrite (bool_decide_eq_false_2 (s ≠ s)) by (by intros ?).
      cbn. by rewrite app_nil_r.
Qed.

(** X10. A run that never leaves its status times out.  For a poll
    session on a cached run whose status [s] is neither terminal nor
    [requires_action], each tick being over before the next begins:
    ticks within the time bound whose retrieves all answer with status
    [s] issue one retrieve each and emit none of [statusChanged],
    [actionRequired] and [finished]; the first tick after the bound then
    clears the timer and emits [finished] with the timeout error, without
    a retrieve.  (The events of the cache that the handle re-publishes
    at each retrieve are not part of what is stated.) *)
Theorem stalled_run_times_out r timer w old s steps late a tv :
  StatefulObject.object (Run.base r) = run ->
  StatefulObject.object (Run.thread r) = thread ->
  Run._pollInterval r = Some timer ->
  timer ∈ timers w ->
  entry w run (Run.id r) = Some old ->
  status (Item.value old) = s ->
  includes exitStatuses s = false ->
  s ≠ Some requires_action ->
  Forall (fun step => step.1 - Run._pollStartTime r <= POLL_TIMEOUT_MS ∧
                      status step.2 = s) steps ->
  late - Run._pollStartTime r > POLL_TIMEOUT_MS ->
  ∃ r' w',
    ticks timer (answered steps ++ [(late, a)]) (Ok tv) (r, w)
      = (Ok tt, (r', w')) ∧
    poll_view (StatefulObject.self (Run.base r)) (since w w') =
      replicate (length steps)
        (Called run (Some (StatefulObject.id (Run.thread r))) (Run.id r))
      ++ [Cleared timer;
          Raised (finished (Some (PollTimeout (Run.id r))) None)] ∧
    Run._pollInterval r' = None ∧
    (timer ∉ timers w').
Proof.
  intros Hk Hkt Hpi Htimer He Hold Hs Hna Hall Hlate.
  destruct (ticks_idle r timer s steps tv Hk Hkt Hpi Hs Hall w old Htimer He Hold)
    as (w1 & tr1 & item1 & Hticks & Ht1 & Hpv1 & Htimer1 & _).
  eexists _, _. split; [|split; [|split]].
  - rewrite (ticks_app_run _ _ _ _ _ _ Hticks). cbn [ticks].
    rewrite (bind_run _ _ _ _ _
               (tick_timed_out r timer w1 late a (Ok tv) Hpi Htimer1 Hlate)).
    reflexivity.
  - rewrite (since_app w _
               (tr1 ++ [IntervalCleared timer;
                        HandleEmit (StatefulObject.self (Run.base r))
                          (finished (Some (PollTimeout (Run.id r))) None)]))
      by (cbn; by rewrite Ht1, <- !app_assoc).
    rewrite poll_view_app, Hpv1. cbn. rewrite decide_True by done.
    f_equal. clear -Hna. induction steps as [|step steps IH]; [done|].
    cbn [flat_map length replicate]. rewrite IH. unfold idle_tick_view.
    by rewrite bool_decide_eq_false_2.
  - done.
  - cbn. intros [_ Hin]%elem_of_difference. apply Hin. by apply elem_of_singleton.
Qed.

Lemma stalled_run_times_out_witness :
  let steps := [(750, mkValue 2 (Some queued) None);
                (1500, mkValue 3 (Some queued) None)] in
  ∃ r' w',
    ticks 0 (answered steps ++ [(120001, Throw (RemoteFailure 500))])
      (Ok (mkValue 9 None None)) (polled_run.1, polled_run.2)
      = (Ok tt, (r', w')) ∧
    poll_view (StatefulObject.self (Run.base polled_run.1))
              (since polled_run.2 w') =
      replicate (length steps)
        (Called run (Some (StatefulObject.id (Run.thread polled_run.1)))
                (Run.id polled_run.1))
      ++ [Cleared 0;
          Raised (finished (Some (PollTimeout (Run.id polled_run.1))) None)] ∧
    Run._pollInterval r' = None ∧
    (0%nat ∉ timers w').
Proof.
  apply (stalled_run_times_out polled_run.1 0 polled_run.2
           (Item.mk (mkValue 1 (Some queued) None) (ItemEm 0)) (Some queued)
           [(750, mkValue 2 (Some queued) None);
            (1500, mkValue 3 (Some queued) None)]).
  - reflexivity.
  - reflexivity.
  - reflexivity.
  - by apply (bool_decide_unpack _).
  - reflexivity.
  - reflexivity.
  - reflexivity.
  - discriminate.
  - change (Run._pollStartTime polled_run.1) with 0. unfold POLL_TIMEOUT_MS.
    repeat (apply Forall_cons_2; [split; [cbn; lia | reflexivity]|]).
    apply Forall_nil_2.
  - change (Run._pollStartTime polled_run.1) with 0. unfold POLL_TIMEOUT_MS.
    lia.
Defined.

(** X11. [actionRequired] is emitted at every tick, not once.  For a
    poll session on a cached run whose status is [requires_action]:
    each tick within the time bound whose retrieve answers with that
    status emits [actionRequired] with the action of the record
    retrieved, and never [statusChanged]; the session stays active. *)
Theorem action_required_at_every_tick r timer w old steps tv :
  StatefulObject.object (Run.base r) = run ->
  StatefulObject.object (Run.thread r) = thread ->
  Run._pollInterval r = Some timer ->
  timer ∈ timers w ->
  entry w run (Run.id r) = Some old ->
  status (Item.value old) = Some requires_action ->
  Forall (fun step => step.1 - Run._pollStartTime r <= POLL_TIMEOUT_MS ∧
                      status step.2 = Some requires_action) steps ->
  ∃ w',
    ticks timer (answered steps) (Ok tv) (r, w) = (Ok tt, (r, w')) ∧
    poll_view (StatefulObject.self (Run.base r)) (since w w') =
      flat_map (fun step =>
                  [Called run (Some (StatefulObject.id (Run.thread r)))
                          (Run.id r);
                   Raised (actionRequired (required_action step.2))]) steps ∧
    timer ∈ timers w'.
Proof.
  intros Hk Hkt Hpi Htimer He Hold Hall.
  destruct (ticks_idle r timer (Some requires_action) steps tv Hk Hkt Hpi
              eq_refl Hall w old Htimer He Hold)
    as (w1 & tr1 & item1 & Hticks & Ht1 & Hpv1 & Htimer1 & _).
  exists w1. split; [done|]. split; [|done].
  by rewrite (since_app w _ tr1).
Qed.

Lemma action_required_at_every_tick_witness :
  let old := mkValue 1 (Some requires_action) (Some 7%nat) in
  let r := Run.mk (StatefulObject.mk 1 run "run_1" None) thread_1 (Some 0%nat) 0 in
  let w := with_timers (inserted run "run_1" old new_Cache) {[0%nat]} 1 in
  let steps := [(750, mkValue 2 (Some requires_action) (Some 7%nat));
                (1500, mkValue 3 (Some requires_action) (Some 8%nat))] in
  ∃ w',
    ticks 0 (answered steps) (Ok (mkValue 9 None None)) (r, w) = (Ok tt, (r, w')) ∧
    poll_view 1 (since w w') =
      flat_map (fun step =>
                  [Called run (Some "thread_1"%string) "run_1"%string;
                   Raised (actionRequired (required_action step.2))]) steps ∧
    0%nat ∈ timers w'.
Proof.
  apply (action_required_at_every_tick
           (Run.mk (StatefulObject.mk 1 run "run_1" None) thread_1 (Some 0%nat) 0)
           0 _ (Item.mk (mkValue 1 (Some requires_action) (Some 7%nat)) (ItemEm 0))
           [(750, mkValue 2 (Some requires_action) (Some 7%nat));
            (1500, mkValue 3 (Some requires_action) (Some 8%nat))]).
  - reflexivity.
  - reflexivity.
  - reflexivity.
  - change (0%nat ∈ ({[0%nat]} : gset nat)). by apply elem_of_singleton.
  - reflexivity.
  - reflexivity.
  - unfold POLL_TIMEOUT_MS.
    repeat (apply Forall_cons_2; [split; [cbn; lia | reflexivity]|]).
    apply Forall_nil_2.
Defined.

(** X12. A status that the handle itself brought into the cache is not
    reported as a change.  [update], [cancel] and [submitToolOutputs]
    store the record that the remote API answers.  When the operation is
    over before the next tick begins, and that tick is over before
    another begins and retrieves a record of the same status, the tick
    emits no [statusChanged]; for a terminal status it clears the timer,
    writes the thread it retrieves through to the cache and emits
    [finished].  (A tick that began before the operation stored its
    record is not covered.) *)
Theorem status_stored_by_handle_is_not_reported op r timer w old stored v now tv :
  op ∈ [Run_update; Run_cancel; Run_submitToolOutputs] ->
  StatefulObject.object (Run.base r) = run ->
  StatefulObject.object (Run.thread r) = thread ->
  Run._pollInterval r = Some timer ->
  timer ∈ timers w ->
  entry w run (Run.id r) = Some old ->
  (includes exitStatuses (status v) = true ->
   storable w thread (StatefulObject.id (Run.thread r))) ->
  same_ref (Item.value old) stored = false ->
  status v = status stored ->
  now - Run._pollStartTime r <= POLL_TIMEOUT_MS ->
  ∃ r' w',
    (op (Ok stored) >> Run.fire timer now (Ok v) (Ok tv)) (r, w)
      = (Ok tt, (r', w')) ∧
    poll_view (StatefulObject.self (Run.base r)) (since w w') =
      Called run (Some (StatefulObject.id (Run.thread r))) (Run.id r)
      :: (if bool_decide (status v = Some requires_action)
          then [Raised (actionRequired (required_action v))] else [])
      ++ (if includes exitStatuses (status v)
          then [Cleared timer;
                Called thread None (StatefulObject.id (Run.thread r));
                Raised (finished None (status v))]
          else []) ∧
    (includes exitStatuses (status v) = true ->
     thread_refetched r tv w' (since w w')).
Proof.
  intros Hop Hk Hkt Hpi Htimer He Hthread Hnew Hst Hnow.
  assert (op = Run_cancel) as ->.
  { repeat (apply elem_of_cons in Hop as [->|Hop]; [reflexivity|]).
    by apply elem_of_nil in Hop. }
  destruct (set_spec run (Run.id r) stored w (or_introl (ex_intro _ old He)))
    as (w1 & item1 & tr1 & Hset & He1 & Hv1 & Hval1 & Hother1
        & (Ht1 & Hm1 & _ & Hsl1) & Hpv1).
  assert (Hitem1 : Item.value item1 = stored).
  { destruct Hval1 as [|Hsame]; [done|].
    rewrite He in Hsame. injection Hsame as <-. congruence. }
  destruct (tick_fetched r timer w1 now item1 v tv Hk Hkt Hpi
              ltac:(by rewrite Hm1) Hnow He1)
    as (r2 & w2 & tr2 & item2 & Hfire & Ht2 & Hpv2 & _ & _ & _ & Hrest).
  { intros Hexit. apply (storable_later w); [done| |by apply Hthread].
    apply Hother1. by left. }
  exists r2, w2. split; [|split].
  - unfold Run_cancel.
    rewrite (bind_run _ _ _ tt (r, w1)); [done|].
    rewrite (bind_run _ _ _ r (r, w)) by done.
    rewrite (bind_run _ _ _ stored (r, w)) by done.
    by rewrite in_world_run, Hk, Hset.
  - rewrite (since_trans w w1 w2 tr1 tr2 Ht1 Ht2), poll_view_app, Hpv1, Hpv2.
    unfold tick_view. rewrite Hitem1, Hst.
    by rewrite (bool_decide_eq_false_2 (status stored ≠ status stored))
      by (by intros ?).
  - intros Hexit. rewrite Hexit in Hrest.
    destruct Hrest as (_ & _ & Hentry & Hlast). split; [done|].
    rewrite (since_trans w w1 w2 tr1 tr2 Ht1 Ht2), emitted_on_app, last_app.
    by rewrite Hlast.
Qed.

Lemma status_stored_by_handle_is_not_reported_witness :
  let stored := mkValue 2 (Some cancelled) None in
  let v := mkValue 3 (Some cancelled) None in
  ∃ r' w',
    (Run_cancel (Ok stored) >>
     Run.fire 0 750 (Ok v) (Ok (mkValue 9 None None)))
      (polled_run.1, polled_run.2) = (Ok tt, (r', w')) ∧
    poll_view (StatefulObject.self (Run.base polled_run.1))
              (since polled_run.2 w') =
      Called run (Some (StatefulObject.id (Run.thread polled_run.1)))
             (Run.id polled_run.1)
      :: (if bool_decide (status v = Some requires_action)
          then [Raised (actionRequired (required_action v))] else [])
      ++ (if includes exitStatuses (status v)
          then [Cleared 0;
                Called thread None (StatefulObject.id (Run.thread polled_run.1));
                Raised (finished None (status v))]
          else []) ∧
    (includes exitStatuses (status v) = true ->
     thread_refetched polled_run.1 (mkValue 9 None None) w'
       (since polled_run.2 w')).
Proof.
  apply (status_stored_by_handle_is_not_reported Run_cancel
           polled_run.1 0 polled_run.2
           (Item.mk (mkValue 1 (Some queued) None) (ItemEm 0))
           (mkValue 2 (Some cancelled) None)
           (mkValue 3 (Some cancelled) None)).
  - apply elem_of_cons; right. apply elem_of_cons; by left.
  - reflexivity.
  - reflexivity.
  - reflexivity.
  - by apply (bool_decide_unpack _).
  - reflexivity.
  - intros _. by right.
  - reflexivity.
  - reflexivity.
  - change (Run._pollStartTime polled_run.1) with 0. unfold POLL_TIMEOUT_MS.
    lia.
Defined.

Lemma constructor_cached self k id w item :
  entry w k id = Some item ->
  let e := third k id (Item.emitter item) in
  StatefulObject.constructor self k id w
  = (Ok (StatefulObject.mk self k id (Some e)),
     with_channels w
       (<[e := listeners_of w e
               ++ subscription (StatefulObject.mk self k id None)]>
          (channels w))).
Proof.
  intros He e. unfold StatefulObject.constructor.
  by rewrite (_subscribe_fresh (StatefulObject.mk self k id None) w item eq_refl He).
Qed.

Lemma constructor_uncached self k id w :
  cached w k id = None ->
  StatefulObject.constructor self k id w
  = (Ok (StatefulObject.mk self k id None), w).
Proof.
  intros He. unfold StatefulObject.constructor, StatefulObject._subscribe.
  rewrite (bind_run _ _ _ (StatefulObject.mk self k id None)
             (StatefulObject.mk self k id None, w)) by done.
  rewrite (bind_run _ _ _ None (StatefulObject.mk self k id None, w)); [done|].
  rewrite in_world_run, get_run. unfold StatefulObject.id. cbn.
  by rewrite He.
Qed.

(** X13. Loading a run that is cached asks the remote API nothing.
    [Run.load(ctx, thread, id)] on an id in the cache, [Object.prototype]
    having no property [value], returns a handle that is subscribed once
    to the emitter of the entry and polls from [now] on with a new timer;
    the only thing observed is the timer being set. *)
Theorem Run_load_cached self th id now answer w item :
  unpolluted w ->
  entry w run id = Some item ->
  ∃ r w' e,
    Run_load self th id now answer w = (Ok r, w') ∧
    channel_of w run id = Some e ∧
    r = Run.mk (StatefulObject.mk self run id (Some e)) th
               (Some (fresh_timer w)) now ∧
    since w w' = [IntervalSet (fresh_timer w)] ∧
    listeners_of w' e = listeners_of w e ++ subscription (Run.base r) ∧
    fresh_timer w ∈ timers w'.
Proof.
  intros Hclean He.
  pose proof (constructor_cached self run id w item He) as Hc.
  cbn zeta in Hc.
  set (e := third run id (Item.emitter item)) in *.
  set (h1 := StatefulObject.mk self run id (Some e)).
  set (w1 := with_channels w
               (<[e := listeners_of w e
                       ++ subscription (StatefulObject.mk self run id None)]>
                  (channels w))) in *.
  assert (Hsub2 : StatefulObject._subscribe (h1, w1) = (Ok tt, (h1, w1)))
    by exact (_subscribe_twice (StatefulObject.mk self run id None) w item
                Hclean eq_refl He).
  exists (Run.mk h1 th (Some (fresh_timer w)) now), (started w1), e.
  split; [|split; [|split; [|split; [|split]]]].
  - unfold Run_load, Run.constructor, Run_object.
    rewrite (bind_run _ _ _ (Run.mk h1 th None 0) w1)
      by (by rewrite (bind_run _ _ _ _ _ Hc)).
    unfold on_new, Run.load.
    rewrite (bind_run _ _ _ tt (Run.mk h1 th None 0, w1)).
    + by rewrite beginPolling_run.
    + unfold Run.super, zoom. cbn [fst snd Run.base].
      rewrite (load_cached h1 answer w1 item He).
      by rewrite Hsub2.
  - by apply channel_of_present.
  - done.
  - by rewrite (since_app w _ [IntervalSet (fresh_timer w)]).
  - apply listeners_of_insert.
  - cbn. apply elem_of_union_l. by apply elem_of_singleton.
Qed.

Lemma Run_load_cached_witness :
  let w := inserted run "run_1" (mkValue 1 (Some queued) None) new_Cache in
  ∃ r w' e,
    Run_load 1 thread_1 "run_1" 0 (Throw (RemoteFailure 500)) w = (Ok r, w') ∧
    channel_of w run "run_1" = Some e ∧
    r = Run.mk (StatefulObject.mk 1 run "run_1" (Some e)) thread_1
               (Some (fresh_timer w)) 0 ∧
    since w w' = [IntervalSet (fresh_timer w)] ∧
    listeners_of w' e = listeners_of w e ++ subscription (Run.base r) ∧
    fresh_timer w ∈ timers w'.
Proof.
  apply (Run_load_cached 1 thread_1 "run_1" 0 _ _
           (Item.mk (mkValue 1 (Some queued) None) (ItemEm 0)));
    reflexivity.
Defined.

(** X14. Waiting on a run that has already finished.  For a handle
    that is not polling, whose cached record has a terminal status, the
    id of the thread being an entry or missing: [waitUntilFinished]
    starts a poll session, and its first tick, when the retrieve answers
    with the same status, clears the timer again, retrieves the thread
    and writes it through to the cache, with [fetched] as the last event
    of the cache, and emits [finished] with that status and no
    [statusChanged]. *)
Theorem waitUntilFinished_of_finished_run r w old v tv now now' :
  StatefulObject.object (Run.base r) = run ->
  StatefulObject.object (Run.thread r) = thread ->
  Run._pollInterval r = None ->
  entry w run (Run.id r) = Some old ->
  storable w thread (StatefulObject.id (Run.thread r)) ->
  includes exitStatuses (status (Item.value old)) = true ->
  status v = status (Item.value old) ->
  now' - now <= POLL_TIMEOUT_MS ->
  ∃ r' w',
    (Run.waitUntilFinished now >>
     Run.fire (fresh_timer w) now' (Ok v) (Ok tv)) (r, w)
      = (Ok tt, (r', w')) ∧
    poll_view (StatefulObject.self (Run.base r)) (since w w') =
      [Started (fresh_timer w);
       Called run (Some (StatefulObject.id (Run.thread r))) (Run.id r);
       Cleared (fresh_timer w);
       Called thread None (StatefulObject.id (Run.thread r));
       Raised (finished None (status v))] ∧
    thread_refetched r tv w' (since w w') ∧
    Run._pollInterval r' = None ∧
    (fresh_timer w ∉ timers w').
Proof.
  intros Hk Hkt Hpi He Hthread Hexit Hst Hnow.
  set (timer := fresh_timer w).
  set (r1 := Run.mk (Run.base r) (Run.thread r) (Some timer) now).
  assert (Hwait : Run.waitUntilFinished now (r, w) = (Ok tt, (r1, started w))).
  { unfold Run.waitUntilFinished. rewrite (bind_run _ _ _ r (r, w)) by done.
    by rewrite Hpi, beginPolling_run, Hpi. }
  destruct (tick_fetched r1 timer (started w) now' old v tv Hk Hkt eq_refl)
    as (r2 & w2 & tr2 & item2 & Hfire & Ht2 & Hpv2 & _ & _ & _ & Hrest).
  { cbn. apply elem_of_union_l. by apply elem_of_singleton. }
  { done. }
  { done. }
  { intros _. exact Hthread. }
  rewrite Hst, Hexit in Hrest. destruct Hrest as (-> & Hm2 & Hentry & Hlast).
  eexists _, w2. split; [|split; [|split; [|split]]].
  - by rewrite (bind_run _ _ _ _ _ Hwait).
  - rewrite (since_trans w (started w) w2 [IntervalSet timer] tr2 eq_refl Ht2).
    rewrite (poll_view_app _ [_]).
    change (StatefulObject.self (Run.base r))
      with (StatefulObject.self (Run.base r1)).
    rewrite Hpv2. unfold tick_view.
    rewrite Hst, Hexit.
    rewrite (bool_decide_eq_false_2 (_ ≠ _)) by (by intros ?).
    rewrite (bool_decide_eq_false_2 (_ = Some requires_action)); [done|].
    intros Hra. rewrite Hra in Hexit. done.
  - split; [done|].
    rewrite (since_trans w (started w) w2 [IntervalSet timer] tr2 eq_refl Ht2).
    rewrite emitted_on_app, last_app. by rewrite Hlast.
  - done.
  - rewrite Hm2. cbn.
    intros [_ Hin]%elem_of_difference. apply Hin. by apply elem_of_singleton.
Qed.

Lemma waitUntilFinished_of_finished_run_witness :
  let old := mkValue 1 (Some completed) None in
  let r := Run.mk (StatefulObject.mk 1 run "run_1" None) thread_1 None 0 in
  let w := inserted run "run_1" old new_Cache in
  let v := mkValue 2 (Some completed) None in
  ∃ r' w',
    (Run.waitUntilFinished 1000 >>
     Run.fire (fresh_timer w) 1750 (Ok v) (Ok (mkValue 9 None None))) (r, w)
      = (Ok tt, (r', w')) ∧
    poll_view 1 (since w w') =
      [Started (fresh_timer w);
       Called run (Some "thread_1"%string) "run_1"%string;
       Cleared (fresh_timer w);
       Called thread None "thread_1"%string;
       Raised (finished None (status v))] ∧
    thread_refetched
      (Run.mk (StatefulObject.mk 1 run "run_1" None) thread_1 None 0)
      (mkValue 9 None None) w' (since w w') ∧
    Run._pollInterval r' = None ∧
    (fresh_timer w ∉ timers w').
Proof.
  apply (waitUntilFinished_of_finished_run
           (Run.mk (StatefulObject.mk 1 run "run_1" None) thread_1 None 0)
           _ (Item.mk (mkValue 1 (Some completed) None) (ItemEm 0))).
  - reflexivity.
  - reflexivity.
  - reflexivity.
  - reflexivity.
  - by right.
  - reflexivity.
  - reflexivity.
  - unfold POLL_TIMEOUT_MS. lia.
Defined.

End PollingSessions.

Section Resources.

Variable id_of : Value -> Id.

(** The steps that the four [create] operations share: store the new
    record, emit [created], make the handle. *)
Lemma create_steps k i v self w :
  lookup w k i = Missing -> i ≠ ""%string -> unsubscribed self w ->
  ∃ w' tr,
    (Cache.set k i v >> Cache._emit created k i (Some v) >>
     StatefulObject.constructor self k i) w
      = (Ok (StatefulObject.mk self k i (Some (ItemEm (fresh_emitter w)))), w') ∧
    grows w w' tr ∧
    (∀ e, e ∈ [GlobalEm; KindEm k; ItemEm (fresh_emitter w)] ->
       emitted_on e tr = [(cacheInserted, i, Some v); (created, i, Some v)]) ∧
    republished self tr = [] ∧
    (∀ h, poll_view h tr = []) ∧
    entry w' k i = Some (Item.mk v (ItemEm (fresh_emitter w))) ∧
    listeners_of w' (ItemEm (fresh_emitter w))
      = subscription (StatefulObject.mk self k i None).
Proof.
  intros Hl Hi Hun. destruct (lookup_missing_inv _ _ _ Hl) as (He & Hinh).
  set (n := fresh_emitter w).
  set (w1 := inserted k i v w).
  assert (He1 : entry w1 k i = Some (Item.mk v (ItemEm n)))
    by apply entry_inserted.
  assert (Hch1 : channel_of w1 k i = Some (ItemEm n)).
  { rewrite (channel_of_present _ _ _ _ He1). by rewrite third_nonempty. }
  set (tr2 := fanout w1 created k i (Some v) (ItemEm n)).
  set (w2 := with_trace w1 (trace w1 ++ tr2)).
  assert (He2 : entry w2 k i = Some (Item.mk v (ItemEm n))) by done.
  pose proof (constructor_cached self k i w2 _ He2) as Hc. cbn zeta in Hc.
  rewrite third_nonempty in Hc by done. cbn [Item.emitter] in Hc.
  assert (Hl2 : listeners_of w2 (ItemEm n) = []).
  { unfold listeners_of, w2, w1, inserted. cbn. by rewrite lookup_insert_eq. }
  rewrite Hl2 in Hc. cbn [app] in Hc.
  eexists _, (since w w1 ++ tr2).
  split.
  { rewrite (bind_run _ _ _ _ _ (set_absent _ _ _ _ He Hinh)).
    rewrite (bind_run _ _ _ _ _ (_emit_run _ _ _ _ _ _ Hch1)).
    exact Hc. }
  assert (Hun1 : unsubscribed self w1) by by apply unsubscribed_inserted.
  split; [|split; [|split; [|split; [|split]]]].
  - split; [|done]. cbn. unfold w1 at 1. rewrite since_inserted.
    unfold inserted. cbn. by rewrite <- app_assoc.
  - intros e Hin. unfold w1 at 1, tr2.
    rewrite emitted_on_app, since_inserted, !emitted_on_fanout,
      third_nonempty by done.
    cbn in Hin. rewrite !elem_of_cons, elem_of_nil in Hin.
    destruct Hin as [->|[->|[->|[]]]]; by repeat case_decide.
  - rewrite republished_app. unfold w1 at 1, tr2.
    rewrite since_inserted, !republished_fanout_unsubscribed; [done..|].
    by apply (unsubscribed_same_channels self w1).
  - intros h. rewrite poll_view_app. unfold w1 at 1, tr2.
    by rewrite since_inserted, !poll_view_fanout.
  - done.
  - apply listeners_of_insert.
Qed.

(** X15. The handle that [Assistant.create] returns never re-publishes
    [created].  When the remote API answers with a record whose id is
    not empty and not in the cache ([cache.data[id]] is [undefined]):
    [cacheInserted] and then [created]
    are emitted on the three emitters, the handle returned is
    subscribed to the emitter of the new entry and reads the record as
    its wrapped value; it was made after both events, so it re-publishes
    neither. *)
Theorem create_handle_misses_created v self w :
  lookup w assistant (id_of v) = Missing ->
  id_of v ≠ ""%string ->
  unsubscribed self w ->
  ∃ h w',
    Assistant.create id_of self (Ok v) w = (Ok h, w') ∧
    h = StatefulObject.mk self assistant (id_of v)
          (Some (ItemEm (fresh_emitter w))) ∧
    (∀ e, e ∈ [GlobalEm; KindEm assistant; ItemEm (fresh_emitter w)] ->
       emitted_on e (since w w')
       = [(cacheInserted, id_of v, Some v); (created, id_of v, Some v)]) ∧
    republished self (since w w') = [] ∧
    listeners_of w' (ItemEm (fresh_emitter w)) = subscription h ∧
    StatefulObject.wrappedValue (h, w') = (Ok v, (h, w')).
Proof.
  intros He Hi Hun.
  destruct (create_steps assistant (id_of v) v self w He Hi Hun)
    as (w' & tr & Hrun & (Ht & _) & Hem & Hrep & _ & He' & Hl).
  eexists _, w'. split; [exact Hrun|].
  rewrite (since_app w w' tr Ht).
  split; [done|]. split; [done|]. split; [done|]. split; [done|].
  set (h := StatefulObject.mk self assistant (id_of v) _).
  unfold StatefulObject.wrappedValue.
  rewrite (bind_run _ _ _ h (h, w')) by done.
  rewrite (bind_run _ _ _ (Some v) (h, w')); [done|].
  rewrite in_world_run, get_run. cbn [StatefulObject.object StatefulObject._id h].
  by rewrite (cached_own _ _ _ _ He').
Qed.

(** X16. [Run.create] returns a handle that is already polling.  When
    the remote API answers with a record whose id is not empty and not
    in the cache ([cache.data[id]] is [undefined]): the handle returned is subscribed to the new entry,
    has re-published nothing, and polls from [now] on with a new timer;
    of the poll session only the start of the timer has been seen. *)
Theorem Run_create_starts_polling v self th now w :
  lookup w run (id_of v) = Missing ->
  id_of v ≠ ""%string ->
  unsubscribed self w ->
  ∃ r w',
    Run_create id_of self th now (Ok v) w = (Ok r, w') ∧
    r = Run.mk (StatefulObject.mk self run (id_of v)
                  (Some (ItemEm (fresh_emitter w))))
               th (Some (fresh_timer w)) now ∧
    entry w' run (id_of v) = Some (Item.mk v (ItemEm (fresh_emitter w))) ∧
    listeners_of w' (ItemEm (fresh_emitter w)) = subscription (Run.base r) ∧
    republished self (since w w') = [] ∧
    poll_view self (since w w') = [Started (fresh_timer w)] ∧
    timers w' = {[fresh_timer w]} ∪ timers w.
Proof.
  intros He Hi Hun.
  destruct (create_steps run (id_of v) v self w He Hi Hun)
    as (w1 & tr & Hrun & (Ht & Hm & Hf & _) & _ & Hrep & Hpv & He' & Hl).
  set (h := StatefulObject.mk self run (id_of v)
              (Some (ItemEm (fresh_emitter w)))) in *.
  exists (Run.mk h th (Some (fresh_timer w)) now), (started w1).
  split.
  { unfold Run_create, Run.constructor, Run_object, remote, bind, ret in *.
    destruct (Cache.set run (id_of v) v w) as [[[]|e0] wa]; [|done].
    destruct (Cache._emit created run (id_of v) (Some v) wa) as [[[]|e1] wb];
      [|done].
    rewrite Hrun.
    unfold on_new. rewrite beginPolling_run. cbn [fst snd Run._pollInterval cleared].
    by rewrite Hf. }
  split; [done|].
  split; [done|]. split; [done|].
  assert (Hsince : since w (started w1) = tr ++ [IntervalSet (fresh_timer w)]).
  { apply since_app. cbn. by rewrite Ht, Hf, <- app_assoc. }
  rewrite Hsince.
  split; [by rewrite republished_app, Hrep|].
  split; [by rewrite poll_view_app, Hpv|].
  cbn. by rewrite Hm, Hf.
Qed.

(** A page of records none of which is cached, wrapped into handles of
    the kind [k]. *)
Lemma createWrappedPage_uncached k page :
  ∀ self w,
    NoDup (map id_of page) ->
    (∀ item, item ∈ page -> lookup w k (id_of item) = Missing) ->
    ∃ w' tr,
      createWrappedPage id_of StatefulObject.object
        (fun self id => StatefulObject.constructor self k id) self page w
      = (Ok (zip_with (fun n item => StatefulObject.mk n k (id_of item) None)
                      (seq self (length page)) page), w') ∧
      grows w w' tr ∧
      emitted_on GlobalEm tr
        = map (fun item => (cacheInserted, id_of item, Some item)) page ∧
      (∀ item, item ∈ page ->
         ∃ e, entry w' k (id_of item) = Some (Item.mk item e)) ∧
      (∀ k' i', k' ≠ k ∨ i' ∉ map id_of page ->
         entry w' k' i' = entry w k' i') ∧
      (∀ self', unsubscribed self' w ->
         unsubscribed self' w' ∧ republished self' tr = []).
Proof.
  induction page as [|item page IH]; intros self w Hnd Hnone.
  - exists w, []. split; [done|]. split; [by split; [rewrite app_nil_r|]|].
    split; [done|]. split; [by intros item Hin; apply elem_of_nil in Hin|].
    done.
  - cbn [map] in Hnd. apply NoDup_cons in Hnd as [Hnotin Hnd].
    destruct (lookup_missing_inv w k (id_of item)
                (Hnone item ltac:(apply elem_of_cons; by left)))
      as (He & Hinh).
    set (w1 := inserted k (id_of item) item w).
    destruct (IH (S self) w1 Hnd) as (w2 & tr2 & Hrun & (Ht2 & Hm2 & Hf2 & Hsl2)
                                      & Hem2 & Hin2 & Hother2 & Hun2).
    { intros item' Hin'.
      destruct (lookup_missing_inv w k (id_of item')
                  (Hnone item' ltac:(apply elem_of_cons; by right)))
        as (He' & Hinh').
      apply lookup_missing; [|done].
      unfold w1. rewrite entry_inserted_ne; [done|].
      right. intros Heq. apply Hnotin. rewrite <- Heq.
      by apply (list_elem_of_fmap_2 id_of). }
    exists w2, (since w w1 ++ tr2).
    split.
    { cbn [createWrappedPage length seq zip_with].
      rewrite (bind_run _ _ _ _ _
                 (constructor_uncached self k _ w (cached_missing _ _ _ He Hinh))).
      cbn [StatefulObject.object].
      rewrite (bind_run _ _ _ _ _ (set_absent _ _ _ _ He Hinh)).
      by rewrite (bind_run _ _ _ _ _ Hrun). }
    split.
    { split; [|by rewrite Hm2, Hf2, Hsl2].
      rewrite Ht2. unfold w1 at 2. rewrite since_inserted.
      unfold w1, inserted. cbn. by rewrite <- app_assoc. }
    split.
    { rewrite emitted_on_app, Hem2. unfold w1.
      rewrite since_inserted, emitted_on_fanout. cbn [map].
      rewrite decide_True by done. rewrite decide_False by done.
      unfold third. by destruct (falsy (id_of item)). }
    split.
    { intros item' [->|Hin']%elem_of_cons.
      - exists (ItemEm (fresh_emitter w)).
        rewrite Hother2 by (by right). apply entry_inserted.
      - by apply Hin2. }
    split.
    { intros k' i' Hne. rewrite Hother2.
      - apply entry_inserted_ne. destruct Hne as [?|Hne]; [by left|right].
        intros ->. apply Hne. cbn. apply elem_of_cons. by left.
      - destruct Hne as [?|Hne]; [by left|right].
        intros Hin'. apply Hne. cbn. apply elem_of_cons. by right. }
    intros self' Hun.
    assert (Hun1 : unsubscribed self' w1) by by apply unsubscribed_inserted.
    destruct (Hun2 self' Hun1) as [Hun' Hrep2].
    split; [done|].
    rewrite republished_app, Hrep2. unfold w1. rewrite since_inserted.
    rewrite republished_fanout_unsubscribed; [done|].
    by apply (unsubscribed_same_channels self' w1).
Qed.

(** X17. The handles that [Assistant.list] returns are not subscribed.
    For a page of records with distinct ids, none of them cached
    ([cache.data[id]] is [undefined] for each): each
    record is inserted into the cache, in the order of the page, and
    can be read from it; the handles are numbered in that order, and
    each was made before its record was stored, so none of them has
    registered a listener. *)
Theorem list_handles_are_not_subscribed page self w :
  NoDup (map id_of page) ->
  (∀ item, item ∈ page -> lookup w assistant (id_of item) = Missing) ->
  ∃ hs w',
    Assistant.list id_of self (Ok page) w = (Ok hs, w') ∧
    hs = zip_with (fun n item =>
                     StatefulObject.mk n assistant (id_of item) None)
                  (seq self (length page)) page ∧
    emitted_on GlobalEm (since w w')
      = map (fun item => (cacheInserted, id_of item, Some item)) page ∧
    (∀ item, item ∈ page ->
       Cache.get assistant (id_of item) w' = (Ok (Some item), w')) ∧
    (∀ self', unsubscribed self' w ->
       unsubscribed self' w' ∧ republished self' (since w w') = []).
Proof.
  intros Hnd Hnone.
  destruct (createWrappedPage_uncached assistant page self w Hnd Hnone)
    as (w' & tr & Hrun & (Ht & _) & Hem & Hin & _ & Hun).
  eexists _, w'. split; [exact Hrun|]. split; [done|].
  rewrite (since_app w w' tr Ht).
  split; [done|]. split; [|done].
  intros item Hitem. destruct (Hin item Hitem) as [e He].
  by rewrite get_run, (cached_own _ _ _ _ He).
Qed.

Lemma wrappedValue_run h w :
  StatefulObject.wrappedValue (h, w)
  = (match cached w (StatefulObject.object h) (StatefulObject._id h) with
     | Some v => Ok v
     | None => Throw NotLoaded
     end, (h, w)).
Proof.
  unfold StatefulObject.wrappedValue.
  rewrite (bind_run _ _ _ h (h, w)) by done.
  rewrite (bind_run _ _ _
             (cached w (StatefulObject.object h) (StatefulObject._id h)) (h, w))
    by (by rewrite in_world_run, get_run).
  by destruct (cached w _ _).
Qed.

Lemma wrappedValue_loaded h w item :
  entry w (StatefulObject.object h) (StatefulObject._id h) = Some item ->
  StatefulObject.wrappedValue (h, w) = (Ok (Item.value item), (h, w)).
Proof. intros He. by rewrite wrappedValue_run, (cached_own _ _ _ _ He). Qed.

(** X18. [delete()] confirmed by the remote API.  For a handle whose
    record is cached under the id that the record itself carries,
    neither empty nor the name of an inherited object, in a cache where
    entries own their emitters: [deleted] and
    then [cacheRemoved] are emitted, without a value, on the three
    emitters; the entry is gone and its emitter has no listener left,
    so that reading the wrapped value of the handle throws from then
    on. *)
Theorem delete_confirmed h w item :
  own_emitters w ->
  entry w (StatefulObject.object h) (StatefulObject._id h) = Some item ->
  id_of (Item.value item) = StatefulObject._id h ->
  StatefulObject._id h ≠ ""%string ->
  inherited w (StatefulObject._id h) = None ->
  ∃ w',
    Assistant.delete id_of (Ok true) (h, w) = (Ok true, (h, w')) ∧
    (∀ e, e ∈ [GlobalEm; KindEm (StatefulObject.object h); Item.emitter item] ->
       emitted_on e (since w w')
       = [(deleted, StatefulObject._id h, None);
          (cacheRemoved, StatefulObject._id h, None)]) ∧
    entry w' (StatefulObject.object h) (StatefulObject._id h) = None ∧
    listeners_of w' (Item.emitter item) = [] ∧
    StatefulObject.wrappedValue (h, w') = (Throw NotLoaded, (h, w')).
Proof.
  intros [Hown _] He Hid Hi Hinh.
  destruct (Hown _ _ _ He) as (n & Hn & _).
  set (k := StatefulObject.object h) in *.
  set (i := StatefulObject._id h) in *.
  set (tr1 := fanout w deleted k i None (ItemEm n)).
  set (w1 := with_trace w (trace w ++ tr1)).
  assert (Hch : channel_of w k i = Some (ItemEm n)).
  { rewrite (channel_of_present _ _ _ _ He). by rewrite third_nonempty, Hn. }
  assert (He1 : entry w1 k i = Some item) by done.
  exists (removed k i item w1).
  split; [|split; [|split; [|split]]].
  - unfold Assistant.delete.
    rewrite (bind_run _ _ _ h (h, w)) by done.
    rewrite (bind_run _ _ _ _ _ (wrappedValue_loaded h w item He)).
    rewrite (bind_run _ _ _ true (h, w)) by done.
    rewrite (bind_run _ _ _ _ _ (wrappedValue_loaded h w item He)).
    fold k. rewrite Hid.
    rewrite (bind_run _ _ _ tt (h, w1))
      by (by rewrite in_world_run, (_emit_run _ _ _ _ _ _ Hch)).
    rewrite (bind_run _ _ _ _ _ (wrappedValue_loaded h w1 item He1)).
    rewrite Hid.
    by rewrite (bind_run _ _ _ tt (h, removed k i item w1))
      by (by rewrite in_world_run, (remove_present _ _ _ _ He1)).
  - intros e Hin.
    rewrite (since_app w _ (tr1 ++ fanout w1 cacheRemoved k i None (ItemEm n))).
    2:{ unfold removed. cbn. rewrite third_nonempty, Hn by done.
        by rewrite <- app_assoc. }
    unfold tr1. rewrite emitted_on_app, !emitted_on_fanout.
    rewrite Hn in Hin. cbn in Hin. rewrite !elem_of_cons, elem_of_nil in Hin.
    destruct Hin as [->|[->|[->|[]]]]; by repeat case_decide.
  - apply entry_drop_item.
  - unfold removed, listeners_of. cbn. by rewrite lookup_insert_eq.
  - rewrite wrappedValue_run.
    change (cached (removed k i item w1) (StatefulObject.object h)
              (StatefulObject._id h))
      with (cached (removed k i item w1) k i).
    rewrite cached_missing; [done | apply entry_drop_item | exact Hinh].
Qed.

(** X19. [delete()] changes nothing unless the remote API confirms.  On
    a handle of which [cache.get] has no record it throws before the
    remote API is asked; when the remote call fails it throws that
    failure; when the answer is [deleted: false] it returns it.  In each
    of these cases the cache, the trace and the handle are as before. *)
Theorem delete_unconfirmed h answer w :
  answer ≠ Ok true ∨
  cached w (StatefulObject.object h) (StatefulObject._id h) = None ->
  Assistant.delete id_of answer (h, w)
  = (match cached w (StatefulObject.object h) (StatefulObject._id h) with
     | None => Throw NotLoaded
     | Some _ => answer
     end, (h, w)).
Proof.
  intros Hcase. unfold Assistant.delete.
  rewrite (bind_run _ _ _ h (h, w)) by done.
  destruct (cached w (StatefulObject.object h) (StatefulObject._id h))
    as [v0|] eqn:He.
  - rewrite (bind_run _ _ _ v0 (h, w))
      by (by rewrite wrappedValue_run, He).
    destruct Hcase as [Hans|]; [|done].
    destruct answer as [[]|e]; [done| |].
    + by rewrite (bind_run _ _ _ false (h, w)).
    + by rewrite (bind_throw _ _ _ e (h, w)).
  - by rewrite (bind_throw _ _ _ NotLoaded (h, w))
      by (by rewrite wrappedValue_run, He).
Qed.

(** [fetch] of a missing entry, step by step. *)
Lemma fetch_absent k fid t i v w :
  fetch_shape k fid = Some (t, i) ->
  entry w k i = None -> inherited w i = None ->
  Cache.fetch k fid (Ok v) w = (Ok v, fetched_new k t i v w).
Proof.
  intros Hshape He Hinh. rewrite (fetch_request _ _ _ _ _ _ Hshape).
  rewrite (bind_run _ _ _ _ _ (retrieve_ok k t i v w)).
  rewrite (bind_run _ _ _ _ _
             (set_absent k i v (logged (RemoteCall k t i) w) He Hinh)).
  by rewrite (bind_run _ _ _ _ _
                (_emit_run _ _ _ _ _ _
                   (channel_of_present _ _ _ _ (entry_inserted k i v _)))).
Qed.

(** [Thread.load(ctx, id)] of a thread that is not cached. *)
Lemma Thread_load_uncached self i tv w :
  entry w thread i = None -> inherited w i = None ->
  let e := third thread i (ItemEm (fresh_emitter w)) in
  Thread.load self i (Ok tv) w
  = (Ok (StatefulObject.mk self thread i (Some e)),
     subscribed (StatefulObject.mk self thread i None) e
       (fetched_new thread None i tv w)).
Proof.
  intros He Hinh e. unfold Thread.load, Thread.constructor, Thread_object.
  rewrite (bind_run _ _ _ _ _
             (constructor_uncached self thread i w
                (cached_missing _ _ _ He Hinh))).
  set (h0 := StatefulObject.mk self thread i None).
  set (w2 := fetched_new thread None i tv w).
  assert (He2 : entry w2 thread i
                = Some (Item.mk tv (ItemEm (fresh_emitter w))))
    by apply (entry_inserted thread i tv (logged (RemoteCall thread None i) w)).
  unfold on_new, StatefulObject.load.
  rewrite (bind_run _ _ _ h0 (h0, w)) by done.
  rewrite (bind_run _ _ _ (Some tv) (h0, w2)).
  2:{ rewrite in_world_run. cbn [StatefulObject.object StatefulObject._id h0].
      rewrite (getOrFetch_run_absent _ _ _ _ He Hinh).
      by rewrite (bind_run _ _ _ _ _
                    (fetch_absent thread (Plain i) None i tv w eq_refl He Hinh)). }
  by rewrite (_subscribe_fresh h0 w2 _ eq_refl He2).
Qed.

Lemma republished_fanout_elsewhere self w event k i v e :
  unheard self (listeners_of w GlobalEm) ->
  unheard self (listeners_of w (KindEm k)) ->
  unheard self (listeners_of w e) ->
  republished self (fanout w event k i v e) = [].
Proof.
  intros Hg Hk He. by rewrite republished_fanout, !republished_unheard.
Qed.

Lemma unheard_subscription self h :
  StatefulObject.self h ≠ self -> unheard self (subscription h).
Proof.
  intros Hne event self' hid key Hin.
  unfold subscription in Hin. apply list_elem_of_fmap_1 in Hin as (key' & Heq & _).
  injection Heq as _ -> _ _. done.
Qed.

(** X21. The handles of [Thread.createAndRun] do re-publish [created].
    When the remote API answers with a run record whose id and thread
    id are not empty and not cached ([cache.data[id]] is [undefined] for
    both), and the retrieve of the thread
    succeeds: the run is inserted, the thread is fetched, both handles
    are made and subscribed and polling begins before the two [created]
    events are emitted, for the thread and then for the run.  So each
    of the two handles re-publishes [created] once, and nothing else. *)
Theorem createAndRun_handles_hear_created thread_id_of v tv self_t self_r now w :
  lookup w run (id_of v) = Missing ->
  id_of v ≠ ""%string ->
  lookup w thread (thread_id_of v) = Missing ->
  thread_id_of v ≠ ""%string ->
  unsubscribed self_t w ->
  unsubscribed self_r w ->
  self_t ≠ self_r ->
  ∃ r w',
    Thread.createAndRun id_of thread_id_of self_t self_r now (Ok v) (Ok tv) w
      = (Ok r, w') ∧
    r = Run.mk (StatefulObject.mk self_r run (id_of v)
                  (Some (ItemEm (fresh_emitter w))))
               (StatefulObject.mk self_t thread (thread_id_of v)
                  (Some (ItemEm (S (fresh_emitter w)))))
               (Some (fresh_timer w)) now ∧
    emitted_on GlobalEm (since w w')
      = [(cacheInserted, id_of v, Some v);
         (cacheInserted, thread_id_of v, Some tv);
         (fetched, thread_id_of v, Some tv);
         (created, thread_id_of v, Some tv);
         (created, id_of v, Some v)] ∧
    republished self_r (since w w') = [created] ∧
    republished self_t (since w w') = [created] ∧
    poll_view self_r (since w w')
      = [Called thread None (thread_id_of v); Started (fresh_timer w)].
Proof.
  intros Hlr0 Hir Hlt0 Hit Hunt Hunr Hne.
  destruct (lookup_missing_inv _ _ _ Hlr0) as (Her & Hinr).
  destruct (lookup_missing_inv _ _ _ Hlt0) as (Het & Hint).
  set (n := fresh_emitter w).
  set (rid := id_of v). set (tid := thread_id_of v).
  set (ht0 := StatefulObject.mk self_t thread tid None).
  set (ht := StatefulObject.mk self_t thread tid (Some (ItemEm (S n)))).
  set (hr0 := StatefulObject.mk self_r run rid None).
  set (hr := StatefulObject.mk self_r run rid (Some (ItemEm n))).
  set (w1 := inserted run rid v w).
  set (w2 := fetched_new thread None tid tv w1).
  set (w3 := subscribed ht0 (ItemEm (S n)) w2).
  set (w4 := subscribed hr0 (ItemEm n) w3).
  set (w5 := started w4).
  set (tr6 := fanout w5 created thread tid (Some tv) (ItemEm (S n))).
  set (w6 := with_trace w5 (trace w5 ++ tr6)).
  set (tr7 := fanout w6 created run rid (Some v) (ItemEm n)).
  set (w7 := with_trace w6 (trace w6 ++ tr7)).
  assert (Het1 : entry w1 thread tid = None).
  { unfold w1. rewrite entry_inserted_ne by (by left). done. }
  assert (Hl2 : listeners_of w2 (ItemEm (S n)) = []).
  { unfold listeners_of, w2, fetched_new, w1, inserted. cbn.
    by rewrite lookup_insert_eq. }
  assert (Hl3 : listeners_of w3 (ItemEm n) = []).
  { unfold listeners_of, w3, subscribed, w2, fetched_new, w1, inserted. cbn.
    rewrite !lookup_insert_ne by (intros [=]; lia).
    by rewrite lookup_insert_eq. }
  assert (Hc3 : channels w3
                = <[ItemEm (S n) := subscription ht0]> (channels w2)).
  { unfold w3, subscribed. cbn [channels with_channels]. by rewrite Hl2. }
  assert (Hc4 : channels w4 = <[ItemEm n := subscription hr0]> (channels w3)).
  { unfold w4, subscribed. cbn [channels with_channels]. by rewrite Hl3. }
  assert (Hlr : listeners_of w5 (ItemEm n) = [] ++ subscription hr0).
  { unfold listeners_of. change (channels w5) with (channels w4).
    by rewrite Hc4, lookup_insert_eq. }
  assert (Hlt : listeners_of w5 (ItemEm (S n)) = [] ++ subscription ht0).
  { unfold listeners_of. change (channels w5) with (channels w4).
    rewrite Hc4, lookup_insert_ne by (intros [=]; lia).
    by rewrite Hc3, lookup_insert_eq. }
  assert (Hlo : ∀ e, e ≠ ItemEm n -> e ≠ ItemEm (S n) ->
            listeners_of w5 e = listeners_of w e).
  { intros e H1 H2. unfold listeners_of. change (channels w5) with (channels w4).
    rewrite Hc4, lookup_insert_ne by done.
    rewrite Hc3, lookup_insert_ne by done.
    unfold w2, fetched_new, w1, inserted. cbn.
    by rewrite !lookup_insert_ne by done. }
  assert (Het2 : entry w2 thread tid = Some (Item.mk tv (ItemEm (S n))))
    by apply (entry_inserted thread tid tv
                (logged (RemoteCall thread None tid) w1)).
  assert (Her3 : entry w3 run rid = Some (Item.mk v (ItemEm n))).
  { change (entry (inserted thread tid tv
                     (logged (RemoteCall thread None tid) w1)) run rid
            = Some (Item.mk v (ItemEm n))).
    rewrite entry_inserted_ne by (by left). apply entry_inserted. }
  exists (Run.mk hr ht (Some (fresh_timer w)) now), w7.
  split.
  { unfold Thread.createAndRun, Run_object, Thread_object.
    change (remote (Ok v)) with (@ret World _ v).
    change (bind (ret v) ?f w) with (f v w). cbv beta. fold rid tid.
    rewrite (bind_run _ _ _ _ _ (set_absent _ _ _ _ Her Hinr)). fold w1.
    pose proof (Thread_load_uncached self_t tid tv w1 Het1 Hint) as Hload.
    cbn zeta in Hload. rewrite third_nonempty in Hload by done.
    rewrite (bind_run _ _ _ _ _ Hload).
    pose proof (constructor_cached self_r run rid w3 _ Her3) as Hc.
    cbn zeta in Hc. rewrite third_nonempty in Hc by done.
    unfold Run.constructor, Run_object.
    rewrite (bind_run _ _ _ (Run.mk hr ht None 0) w4)
      by (by rewrite (bind_run _ _ _ _ _ Hc)).
    rewrite (bind_run _ _ _ (Run.mk hr ht (Some (fresh_timer w)) now) w5)
      by (unfold on_new; by rewrite beginPolling_run).
    rewrite (bind_run _ _ _ (Some tv) w5)
      by (rewrite get_run;
          by rewrite (cached_own w5 thread tid _ Het2)).
    rewrite (bind_run _ _ _ tt w6).
    2:{ apply _emit_run.
        change (channel_of w5 thread tid) with (channel_of w2 thread tid).
        rewrite (channel_of_present _ _ _ _ Het2). by rewrite third_nonempty. }
    rewrite (bind_run _ _ _ tt w7); [done|].
    apply _emit_run.
    change (channel_of w6 run rid) with (channel_of w3 run rid).
    rewrite (channel_of_present _ _ _ _ Her3). by rewrite third_nonempty. }
  split; [done|].
  set (wt := logged (RemoteCall thread None tid) w1).
  set (trA := fanout (put_item run rid (Item.mk v (ItemEm n)) (alloc_emitter w))
                cacheInserted run rid (Some v) (ItemEm n)).
  set (trB := fanout (put_item thread tid (Item.mk tv (ItemEm (S n)))
                        (alloc_emitter wt))
                cacheInserted thread tid (Some tv) (ItemEm (S n))).
  set (trC := fanout (inserted thread tid tv wt) fetched thread tid (Some tv)
                (ItemEm (S n))).
  assert (Ht1 : trace w1 = trace w ++ trA).
  { unfold w1, inserted. cbn [trace with_trace]. by rewrite third_nonempty. }
  assert (Ht2 : trace w2 = (trace w1 ++ [RemoteCall thread None tid]) ++ trB ++ trC).
  { unfold w2, fetched_new. fold wt. cbn [trace with_trace].
    rewrite third_nonempty by done.
    unfold inserted at 1. cbn [trace with_trace].
    rewrite third_nonempty by done.
    rewrite <- (app_assoc (trace wt)). reflexivity. }
  assert (Ht7 : trace w7
                = ((trace w2 ++ [IntervalSet (fresh_timer w)]) ++ tr6) ++ tr7)
    by done.
  assert (Hsince : since w w7 =
            trA ++ [RemoteCall thread None tid] ++ trB ++ trC
            ++ [IntervalSet (fresh_timer w)] ++ tr6 ++ tr7).
  { apply since_app. rewrite Ht7, Ht2, Ht1. by rewrite <- !app_assoc. }
  rewrite Hsince. clear Hsince Ht7 Ht2 Ht1.
  assert (Hun_w1 : ∀ self, unsubscribed self w -> unsubscribed self w1)
    by (intros self Hun; by apply unsubscribed_inserted).
  assert (Hun_wt : ∀ self, unsubscribed self w ->
            unsubscribed self (inserted thread tid tv wt)).
  { intros self Hun. apply unsubscribed_inserted.
    apply (unsubscribed_same_channels self w1); [done|]. by apply Hun_w1. }
  assert (Hquiet : ∀ self, unsubscribed self w ->
    republished self
      (trA ++ [RemoteCall thread None tid] ++ trB ++ trC
       ++ [IntervalSet (fresh_timer w)]) = []).
  { intros self Hun. rewrite !republished_app. unfold trA, trB, trC.
    rewrite !republished_fanout_unsubscribed; [done| | |].
    - by apply Hun_wt.
    - apply (unsubscribed_same_channels self (inserted thread tid tv wt));
        [done|]. by apply Hun_wt.
    - apply (unsubscribed_same_channels self w1); [done|]. by apply Hun_w1. }
  split; [|split; [|split]].
  - rewrite !emitted_on_app. unfold trA, trB, trC, tr6, tr7.
    rewrite !emitted_on_fanout. cbn.
    rewrite !decide_True by done. by rewrite !decide_False by done.
  - rewrite !app_assoc, republished_app, republished_app, <- !app_assoc.
    rewrite (Hquiet self_r Hunr). unfold tr6, tr7. cbn [app].
    rewrite (republished_fanout_elsewhere self_r w5).
    + apply (republished_fanout_subscribed hr0 w6 created run (Some v) n []);
        [| |exact Hlr|apply unheard_nil].
      * change (listeners_of w6 GlobalEm) with (listeners_of w5 GlobalEm).
        rewrite Hlo by done. apply Hunr.
      * change (listeners_of w6 (KindEm run)) with (listeners_of w5 (KindEm run)).
        rewrite Hlo by done. apply Hunr.
    + rewrite Hlo by done. apply Hunr.
    + rewrite Hlo by done. apply Hunr.
    + rewrite Hlt. by apply unheard_subscription.
  - assert (H6 : republished self_t tr6 = [created]).
    { apply (republished_fanout_subscribed ht0 w5 created thread (Some tv)
               (S n) []); [| |exact Hlt|apply unheard_nil].
      - rewrite Hlo by done. apply Hunt.
      - rewrite Hlo by done. apply Hunt. }
    assert (H7 : republished self_t tr7 = []).
    { apply republished_fanout_elsewhere.
      - change (listeners_of w6 GlobalEm) with (listeners_of w5 GlobalEm).
        rewrite Hlo by done. apply Hunt.
      - change (listeners_of w6 (KindEm run)) with (listeners_of w5 (KindEm run)).
        rewrite Hlo by done. apply Hunt.
      - change (listeners_of w6 (ItemEm n)) with (listeners_of w5 (ItemEm n)).
        rewrite Hlr. apply unheard_subscription. cbn. by intros ->. }
    rewrite !app_assoc, republished_app, republished_app, <- !app_assoc.
    by rewrite (Hquiet self_t Hunt), H6, H7.
  - rewrite !poll_view_app. unfold trA, trB, trC, tr6, tr7.
    by rewrite !poll_view_fanout.
Qed.

(** X22. [Thread.createAndRun] that fails half-way leaves the run
    behind.  When the run record is new and the retrieve of its thread,
    which is not cached, fails ([cache.data[id]] is [undefined] for
    both ids): the call throws that failure after the
    run has been inserted into the cache; no handle is returned, no
    [created] event is emitted and no timer is started. *)
Theorem createAndRun_thread_failure thread_id_of v err self_t self_r now w :
  lookup w run (id_of v) = Missing ->
  lookup w thread (thread_id_of v) = Missing ->
  ∃ w',
    Thread.createAndRun id_of thread_id_of self_t self_r now (Ok v) (Throw err) w
      = (Throw err, w') ∧
    Cache.get run (id_of v) w' = (Ok (Some v), w') ∧
    emitted_on GlobalEm (since w w') = [(cacheInserted, id_of v, Some v)] ∧
    (∀ self, poll_view self (since w w')
             = [Called thread None (thread_id_of v)]) ∧
    timers w' = timers w.
Proof.
  intros Hlr0 Hlt0.
  destruct (lookup_missing_inv _ _ _ Hlr0) as (Her & Hinr).
  destruct (lookup_missing_inv _ _ _ Hlt0) as (Het & Hint).
  set (rid := id_of v). set (tid := thread_id_of v).
  set (w1 := inserted run rid v w).
  assert (Het1 : entry w1 thread tid = None).
  { unfold w1. rewrite entry_inserted_ne by (by left). done. }
  exists (logged (RemoteCall thread None tid) w1).
  split; [|split; [|split; [|split]]].
  - unfold Thread.createAndRun, Run_object, Thread_object.
    change (remote (Ok v)) with (@ret World _ v).
    change (bind (ret v) ?f w) with (f v w). cbv beta. fold rid tid.
    rewrite (bind_run _ _ _ _ _ (set_absent _ _ _ _ Her Hinr)). fold w1.
    apply bind_throw.
    unfold Thread.load, Thread.constructor, Thread_object.
    rewrite (bind_run _ _ _ _ _
               (constructor_uncached self_t thread tid w1
                  (cached_missing w1 _ _ Het1 Hint))).
    set (h0 := StatefulObject.mk self_t thread tid None).
    unfold on_new, StatefulObject.load.
    rewrite (bind_run _ _ _ h0 (h0, w1)) by done.
    rewrite (bind_throw _ _ _ err (h0, logged (RemoteCall thread None tid) w1));
      [done|].
    rewrite in_world_run. cbn [StatefulObject.object StatefulObject._id h0].
    rewrite (getOrFetch_run_absent _ _ _ w1 Het1 Hint).
    by rewrite (bind_throw _ _ _ _ _
                  (fetch_remote_failure thread (Plain tid) None tid err w1
                     eq_refl)).
  - rewrite get_run.
    by rewrite (cached_own (logged (RemoteCall thread None tid) w1) run rid _
                  (entry_inserted run rid v w)).
  - rewrite (since_app w _ (since w w1 ++ [RemoteCall thread None tid])).
    2:{ unfold w1. rewrite since_inserted. unfold inserted, logged. cbn.
        by rewrite <- app_assoc. }
    unfold w1. rewrite emitted_on_app, since_inserted, emitted_on_fanout. cbn.
    rewrite decide_True by done. rewrite decide_False by done.
    unfold third. by destruct (falsy rid).
  - intros self.
    rewrite (since_app w _ (since w w1 ++ [RemoteCall thread None tid])).
    2:{ unfold w1. rewrite since_inserted. unfold inserted, logged. cbn.
        by rewrite <- app_assoc. }
    unfold w1. by rewrite poll_view_app, since_inserted, poll_view_fanout.
  - done.
Qed.

(** X20. The inherited [fetch()] of a message or run handle always
    throws.  It hands the plain id to [Cache.fetch], which requires an
    object with a thread id for these kinds: whether the record is
    cached or not and whatever the remote API would answer, the call
    throws the error of the id type, and the cache, the trace and the
    handle are as before. *)
Theorem fetch_of_message_or_run_handle h answer w :
  StatefulObject.object h = message ∨ StatefulObject.object h = run ->
  StatefulObject.fetch answer (h, w)
  = (Throw (InvalidIdType "string" (StatefulObject.object h)), (h, w)).
Proof.
  intros Hk. unfold StatefulObject.fetch.
  rewrite (bind_run _ _ _ h (h, w)) by done.
  apply bind_throw. rewrite in_world_run, fetch_bad_shape; [done|].
  by destruct Hk as [-> | ->].
Qed.

End Resources.

(** The properties of this part on concrete inputs. *)

Lemma create_handle_misses_created_witness :
  let v := mkValue 1 None None in
  ∃ h w',
    Assistant.create (numbered "asst_") 1 (Ok v) new_Cache = (Ok h, w') ∧
    h = StatefulObject.mk 1 assistant "asst_1" (Some (ItemEm 0)) ∧
    (∀ e, e ∈ [GlobalEm; KindEm assistant; ItemEm 0] ->
       emitted_on e (since new_Cache w')
       = [(cacheInserted, "asst_1"%string, Some v);
          (created, "asst_1"%string, Some v)]) ∧
    republished 1 (since new_Cache w') = [] ∧
    listeners_of w' (ItemEm 0) = subscription h ∧
    StatefulObject.wrappedValue (h, w') = (Ok v, (h, w')).
Proof.
  apply (create_handle_misses_created (numbered "asst_")
           (mkValue 1 None None) 1 new_Cache).
  - reflexivity.
  - discriminate.
  - apply unsubscribed_new_Cache.
Defined.

Lemma Run_create_starts_polling_witness :
  let v := mkValue 1 (Some queued) None in
  ∃ r w',
    Run_create (numbered "run_") 1 thread_1 5000 (Ok v) new_Cache = (Ok r, w') ∧
    r = Run.mk (StatefulObject.mk 1 run "run_1" (Some (ItemEm 0)))
               thread_1 (Some 0%nat) 5000 ∧
    entry w' run "run_1" = Some (Item.mk v (ItemEm 0)) ∧
    listeners_of w' (ItemEm 0) = subscription (Run.base r) ∧
    republished 1 (since new_Cache w') = [] ∧
    poll_view 1 (since new_Cache w') = [Started 0] ∧
    timers w' = {[0%nat]} ∪ timers new_Cache.
Proof.
  apply (Run_create_starts_polling (numbered "run_")
           (mkValue 1 (Some queued) None) 1 thread_1 5000 new_Cache).
  - reflexivity.
  - discriminate.
  - apply unsubscribed_new_Cache.
Defined.

Lemma list_handles_are_not_subscribed_witness :
  let page := [mkValue 1 None None; mkValue 2 None None] in
  ∃ hs w',
    Assistant.list (numbered "asst_") 1 (Ok page) new_Cache = (Ok hs, w') ∧
    hs = zip_with (fun n item =>
                     StatefulObject.mk n assistant (numbered "asst_" item) None)
                  (seq 1 (length page)) page ∧
    emitted_on GlobalEm (since new_Cache w')
      = map (fun item => (cacheInserted, numbered "asst_" item, Some item)) page ∧
    (∀ item, item ∈ page ->
       Cache.get assistant (numbered "asst_" item) w' = (Ok (Some item), w')) ∧
    (∀ self', unsubscribed self' new_Cache ->
       unsubscribed self' w' ∧ republished self' (since new_Cache w') = []).
Proof.
  apply (list_handles_are_not_subscribed (numbered "asst_")
           [mkValue 1 None None; mkValue 2 None None] 1 new_Cache).
  - apply NoDup_cons_2; [|apply NoDup_singleton].
    intros Hin. apply list_elem_of_singleton in Hin. discriminate Hin.
  - intros item Hin. apply elem_of_cons in Hin as [->|Hin]; [reflexivity|].
    apply list_elem_of_singleton in Hin as ->. reflexivity.
Defined.

Lemma delete_confirmed_witness :
  let h := StatefulObject.mk 1 assistant "asst_1" None in
  let item := Item.mk (mkValue 1 None None) (ItemEm 0) in
  let w := inserted assistant "asst_1" (mkValue 1 None None) new_Cache in
  ∃ w',
    Assistant.delete (numbered "asst_") (Ok true) (h, w) = (Ok true, (h, w')) ∧
    (∀ e, e ∈ [GlobalEm; KindEm assistant; ItemEm 0] ->
       emitted_on e (since w w')
       = [(deleted, "asst_1"%string, None);
          (cacheRemoved, "asst_1"%string, None)]) ∧
    entry w' assistant "asst_1" = None ∧
    listeners_of w' (ItemEm 0) = [] ∧
    StatefulObject.wrappedValue (h, w') = (Throw NotLoaded, (h, w')).
Proof.
  apply (delete_confirmed (numbered "asst_")
           (StatefulObject.mk 1 assistant "asst_1" None)
           (inserted assistant "asst_1" (mkValue 1 None None) new_Cache)
           (Item.mk (mkValue 1 None None) (ItemEm 0))).
  - apply own_emitters_inserted; [apply own_emitters_new_Cache | reflexivity].
  - reflexivity.
  - reflexivity.
  - discriminate.
  - reflexivity.
Defined.

Lemma delete_unconfirmed_witness :
  let h := StatefulObject.mk 1 assistant "asst_1" None in
  let w := inserted assistant "asst_1" (mkValue 1 None None) new_Cache in
  Assistant.delete (numbered "asst_") (Ok false) (h, w)
  = (match cached w assistant "asst_1" with
     | None => Throw NotLoaded
     | Some _ => Ok false
     end, (h, w)).
Proof.
  apply (delete_unconfirmed (numbered "asst_")
           (StatefulObject.mk 1 assistant "asst_1" None) (Ok false)
           (inserted assistant "asst_1" (mkValue 1 None None) new_Cache)).
  left. discriminate.
Defined.

Lemma fetch_of_message_or_run_handle_witness :
  let h := StatefulObject.mk 1 run "run_1" None in
  let w := inserted run "run_1" (mkValue 1 (Some queued) None) new_Cache in
  StatefulObject.fetch (Ok (mkValue 2 (Some completed) None)) (h, w)
  = (Throw (InvalidIdType "string" run), (h, w)).
Proof.
  apply (fetch_of_message_or_run_handle
           (StatefulObject.mk 1 run "run_1" None)).
  right. reflexivity.
Defined.

Lemma createAndRun_handles_hear_created_witness :
  let v := mkValue 1 (Some queued) None in
  let tv := mkValue 2 None None in
  ∃ r w',
    Thread.createAndRun (numbered "run_") (numbered "thread_") 1 2 5000
      (Ok v) (Ok tv) new_Cache = (Ok r, w') ∧
    r = Run.mk (StatefulObject.mk 2 run "run_1" (Some (ItemEm 0)))
               (StatefulObject.mk 1 thread "thread_1" (Some (ItemEm 1)))
               (Some 0%nat) 5000 ∧
    emitted_on GlobalEm (since new_Cache w')
      = [(cacheInserted, "run_1"%string, Some v);
         (cacheInserted, "thread_1"%string, Some tv);
         (fetched, "thread_1"%string, Some tv);
         (created, "thread_1"%string, Some tv);
         (created, "run_1"%string, Some v)] ∧
    republished 2 (since new_Cache w') = [created] ∧
    republished 1 (since new_Cache w') = [created] ∧
    poll_view 2 (since new_Cache w')
      = [Called thread None "thread_1"%string; Started 0].
Proof.
  apply (createAndRun_handles_hear_created (numbered "run_")
           (numbered "thread_") (mkValue 1 (Some queued) None)
           (mkValue 2 None None) 1 2 5000 new_Cache).
  - reflexivity.
  - discriminate.
  - reflexivity.
  - discriminate.
  - apply unsubscribed_new_Cache.
  - apply unsubscribed_new_Cache.
  - lia.
Defined.

Lemma createAndRun_thread_failure_witness :
  let v := mkValue 1 (Some queued) None in
  ∃ w',
    Thread.createAndRun (numbered "run_") (numbered "thread_") 1 2 5000
      (Ok v) (Throw (RemoteFailure 500)) new_Cache
      = (Throw (RemoteFailure 500), w') ∧
    Cache.get run "run_1" w' = (Ok (Some v), w') ∧
    emitted_on GlobalEm (since new_Cache w')
      = [(cacheInserted, "run_1"%string, Some v)] ∧
    (∀ self, poll_view self (since new_Cache w')
             = [Called thread None "thread_1"%string]) ∧
    timers w' = timers new_Cache.
Proof.
  apply (createAndRun_thread_failure (numbered "run_") (numbered "thread_")
           (mkValue 1 (Some queued) None) (RemoteFailure 500) 1 2 5000
           new_Cache).
  - reflexivity.
  - reflexivity.
Defined.
